(** * LoopStructural: the discrete interpolator's constraint / assembly / solve core

    A shallow embedding of [LoopStructural/interpolators/discete_interpolator.py]
    (class [DiscreteInterpolator]) and proofs of the properties its
    specification states about constraint accumulation, matrix assembly,
    solver dispatch and the [update] entry point.

    Conventions of the embedding.
    - numpy [float64] values are Rocq's primitive binary64 floats, so [nan],
      [==] and the arithmetic of the assembled matrices are the IEEE ones.
    - A method of the class is a computation in the monad [M]: it reads and
      writes the interpolator object and the logging output, and either returns
      a value or raises a Python exception.  Mutations made before an exception
      is raised stay, as in Python.
    - A scipy sparse matrix is its shape together with a partial entry map:
      [None] is a structural zero, [Some v] a stored value.
      Repeated triplets and the products of a matrix product are summed in
      storage order; no statement below depends on that order.
    - Python integers and the int64 row numbers are natural numbers, column
      indices are integers; neither wraps around.
    - The linear solvers of scipy, scikit-sparse and pyamg, and the
      [setup_interpolator] method of the subclasses, are parameters.
    - [set_interpolation_weights], [evaluate_value] and [evaluate_gradient]
      touch none of the state the properties are about and are left out. *)

From Stdlib Require Import PrimFloat ZArith.
From Stdlib Require FloatAxioms.
From stdpp Require Import base list gmap strings.

#[local] Open Scope nat_scope.

(** ** Python values, exceptions and logging *)

Inductive exn : Type :=
| ImportError
| IndexError
| ValueError
| KeyError
| OtherError (name : string).

Inductive result (X : Type) : Type :=
| Ok (x : X)
| Raise (e : exn).
Arguments Ok {X} x.
Arguments Raise {X} e.

Definition result_bind {X Y : Type} (r : result X) (f : X -> result Y) : result Y :=
  match r with Ok x => f x | Raise e => Raise e end.

Inductive level : Type := DEBUG | INFO | WARNING.

(** [logger] is the module logger obtained from [logging.getLogger(__name__)];
    [update] logs through the [logging] module itself (the root logger). *)
Inductive logger_id : Type := ModuleLogger | RootLogger.

Inductive fmtarg : Type :=
| ArgInt (n : Z)
| ArgFloat (f : float).

(** A log call: the format string and the arguments of its [%] operator. *)
Record LogRecord : Type := mkLog {
  lr_logger : logger_id;
  lr_level : level;
  lr_msg : string;
  lr_args : list fmtarg
}.

(** A Python value used where the code only tests truth or passes it on
    ([kwargs['damp']], [kwargs['show']]). *)
Inductive PyVal : Type :=
| PyBool (b : bool)
| PyInt (n : Z)
| PyFloat (f : float).

Definition truthy (v : PyVal) : bool :=
  match v with
  | PyBool b => b
  | PyInt n => negb (n =? 0)%Z
  | PyFloat f => negb (PrimFloat.eqb f 0%float)
  end.

(** ** numpy arrays *)

(** An n-dimensional array: its shape and its elements in row-major (C)
    order, which is the order of [flatten] and [tolist]. *)
Record ndarray (X : Type) : Type := mkArray {
  nd_shape : list nat;
  nd_data : list X
}.
Arguments mkArray {X} nd_shape nd_data.
Arguments nd_shape {X} n.
Arguments nd_data {X} n.

Definition nd_size (sh : list nat) : nat := fold_right Nat.mul 1 sh.

(** The invariant numpy maintains for every array. *)
Definition nd_wf {X : Type} (a : ndarray X) : Prop :=
  length (nd_data a) = nd_size (nd_shape a).

Definition flatten {X : Type} (a : ndarray X) : list X := nd_data a.

(** [a.shape[i]]: indexing the shape tuple raises IndexError out of range. *)
Definition shape_at {X : Type} (a : ndarray X) (i : nat) : result nat :=
  match nd_shape a !! i with
  | Some n => Ok n
  | None => Raise IndexError
  end.

(** [a.shape[-1]] *)
Definition shape_last {X : Type} (a : ndarray X) : result nat :=
  match last (nd_shape a) with
  | Some n => Ok n
  | None => Raise IndexError
  end.

(** An entry of a column-index array.  numpy stores it as an integer or as a
    float; the code only tests it for NaN and hands it to [coo_matrix], which
    casts it to an integer index.  [Idx z] is an entry whose cast is [z];
    [IdxNaN] is a NaN entry. *)
Inductive Index : Type :=
| Idx (z : Z)
| IdxNaN.

Definition index_isnan (i : Index) : bool :=
  match i with Idx _ => false | IdxNaN => true end.

(** The integer cast of the index arrays in [coo_matrix]: NaN becomes the
    smallest int64. *)
Definition index_cast (i : Index) : Z :=
  match i with Idx z => z | IdxNaN => (- 2 ^ 63)%Z end.

(** [np.any(np.isnan(a))] *)
Definition np_any_isnan (a : ndarray float) : bool :=
  existsb PrimFloat.is_nan (nd_data a).

Definition np_any_isnan_index (a : ndarray Index) : bool :=
  existsb index_isnan (nd_data a).

(** [np.arange(0, n)] *)
Definition np_arange (n : nat) : ndarray nat := mkArray [n] (seq 0 n).

(** [np.tile(v, (reps, 1))] for a one-dimensional [v]: [reps] copies of [v]
    stacked as the rows of a two-dimensional array. *)
Definition np_tile_rows {X : Type} (v : ndarray X) (reps : nat) : ndarray X :=
  mkArray [reps; length (nd_data v)] (concat (repeat (nd_data v) reps)).

(** [a.T] for a two-dimensional array *)
Definition np_T (a : ndarray nat) : ndarray nat :=
  match nd_shape a with
  | [r; c] =>
      mkArray [c; r]
        (flat_map (fun j => map (fun i => nth (i * c + j) (nd_data a) 0) (seq 0 r))
                  (seq 0 c))
  | _ => a
  end.

(** [a += k] on an integer array *)
Definition np_iadd (a : ndarray nat) (k : nat) : ndarray nat :=
  mkArray (nd_shape a) (map (fun x => x + k) (nd_data a)).

(** [a[mask]] for one-dimensional [a] and boolean [mask]: IndexError when the
    lengths differ. *)
Fixpoint select {X : Type} (a : list X) (mask : list bool) : list X :=
  match a, mask with
  | x :: a', b :: mask' => if b then x :: select a' mask' else select a' mask'
  | _, _ => []
  end.

Definition bool_index {X : Type} (a : list X) (mask : list bool) : result (list X) :=
  if length a =? length mask then Ok (select a mask) else Raise IndexError.

(** [a[idx] = vals] with an integer index array: IndexError for an index out
    of range, ValueError when [vals] has neither the length of [idx] nor
    length 1 (which numpy broadcasts).  Later writes to a repeated index win. *)
Definition scatter {X : Type} (a : list X) (idx : list nat) (vals : list X) : list X :=
  fold_left (fun acc iv => <[iv.1 := iv.2]> acc) (zip idx vals) a.

Definition np_setitem {X : Type} (a : list X) (idx : list nat) (vals : list X)
  : result (list X) :=
  if forallb (fun i => i <? length a) idx then
    if length vals =? length idx then Ok (scatter a idx vals)
    else match vals with
         | [v] => Ok (scatter a idx (repeat v (length idx)))
         | _ => Raise ValueError
         end
  else Raise IndexError.

(** [a[idx] = v] with a scalar [v] *)
Definition np_setitem_scalar {X : Type} (a : list X) (idx : list nat) (v : X)
  : result (list X) :=
  if forallb (fun i => i <? length a) idx
  then Ok (scatter a idx (repeat v (length idx)))
  else Raise IndexError.

(** [a[idx]] with an integer index array *)
Fixpoint np_getitem {X : Type} (a : list X) (idx : list nat) : result (list X) :=
  match idx with
  | [] => Ok []
  | i :: idx' =>
      match a !! i with
      | Some x => result_bind (np_getitem a idx') (fun xs => Ok (x :: xs))
      | None => Raise IndexError
      end
  end.

(** ** scipy sparse matrices *)

(** A sparse matrix is its shape and a partial entry map: [None] is a
    structural zero.  The storage format (coo, csr, csc, bsr) is not part of
    the model. *)
Record spmatrix : Type := mkSp {
  sp_shape : nat * nat;
  sp_entry : nat -> nat -> option float
}.

(** Adding a value to a possibly absent entry. *)
Definition sp_acc (acc : option float) (v : float) : option float :=
  Some (match acc with None => v | Some a => PrimFloat.add a v end).

(** The entry at [(i, j)] of a list of (value, row, column) triplets:
    repeated positions are summed, as scipy does on conversion. *)
Definition coo_entry (trip : list (float * nat * Z)) (i j : nat) : option float :=
  fold_left
    (fun acc t =>
       if (t.1.2 =? i) && (t.2 =? Z.of_nat j)%Z then sp_acc acc t.1.1 else acc)
    trip None.

Definition coo_check (data : list float) (row : list nat) (col : list Z)
    (shape : nat * nat) : bool :=
  (length data =? length row) && (length data =? length col)
  && forallb (fun r => r <? shape.1) row
  && forallb (fun c => (0 <=? c)%Z && (c <? Z.of_nat shape.2)%Z) col.

(** [coo_matrix((data, (row, col)), shape=shape)]: ValueError when the three
    arrays differ in length or an index is negative or exceeds the shape. *)
Definition coo_matrix (data : list float) (row : list nat) (col : list Z)
    (shape : nat * nat) : result spmatrix :=
  if coo_check data row col shape
  then Ok (mkSp shape (coo_entry (zip (zip data row) col)))
  else Raise ValueError.

(** [m.T] *)
Definition sp_T (m : spmatrix) : spmatrix :=
  mkSp ((sp_shape m).2, (sp_shape m).1) (fun i j => sp_entry m j i).

(** The sum of the products of the stored entries of a row and a column. *)
Definition sp_dot_entry (m n : spmatrix) (i j : nat) : option float :=
  fold_left
    (fun acc k =>
       match sp_entry m i k, sp_entry n k j with
       | Some a, Some b => sp_acc acc (PrimFloat.mul a b)
       | _, _ => acc
       end)
    (seq 0 (sp_shape m).2) None.

(** [m.dot(n)] for two sparse matrices *)
Definition sp_dot (m n : spmatrix) : result spmatrix :=
  if (sp_shape m).2 =? (sp_shape n).1
  then Ok (mkSp ((sp_shape m).1, (sp_shape n).2) (sp_dot_entry m n))
  else Raise ValueError.

(** [m.dot(v)] for a dense vector [v]: a dense vector *)
Definition sp_dot_vec (m : spmatrix) (v : list float) : result (list float) :=
  if (sp_shape m).2 =? length v then
    Ok (map (fun i =>
               fold_left
                 (fun acc k =>
                    match sp_entry m i k, v !! k with
                    | Some a, Some b => PrimFloat.add acc (PrimFloat.mul a b)
                    | _, _ => acc
                    end)
                 (seq 0 (sp_shape m).2) 0%float)
            (seq 0 (sp_shape m).1))
  else Raise ValueError.

(** [bmat([[p, q], [r, None]])]: ValueError when the block dimensions
    disagree; the [None] block is structurally zero. *)
Definition bmat (p q r : spmatrix) : result spmatrix :=
  if ((sp_shape p).1 =? (sp_shape q).1) && ((sp_shape p).2 =? (sp_shape r).2) then
    let n1 := (sp_shape p).1 in
    let n2 := (sp_shape p).2 in
    Ok (mkSp (n1 + (sp_shape r).1, n2 + (sp_shape q).2)
          (fun i j =>
             if i <? n1 then
               if j <? n2 then sp_entry p i j else sp_entry q i (j - n2)
             else
               if j <? n2 then sp_entry r (i - n1) j else None))
  else Raise ValueError.

(** [eye(n)] *)
Definition eye (n : nat) : spmatrix :=
  mkSp (n, n) (fun i j => if i =? j then Some 1%float else None).

(** [m * s] for a scalar [s] *)
Definition sp_scale (m : spmatrix) (s : float) : spmatrix :=
  mkSp (sp_shape m) (fun i j => (fun v => PrimFloat.mul v s) <$> sp_entry m i j).

(** [m + n]: ValueError for inconsistent shapes; an entry stored in only one
    of the two is kept as it is. *)
Definition sp_add (m n : spmatrix) : result spmatrix :=
  if ((sp_shape m).1 =? (sp_shape n).1) && ((sp_shape m).2 =? (sp_shape n).2) then
    Ok (mkSp (sp_shape m)
          (fun i j =>
             match sp_entry m i j, sp_entry n i j with
             | Some a, Some b => Some (PrimFloat.add a b)
             | Some a, None => Some a
             | None, o => o
             end))
  else Raise ValueError.

(** [np.finfo('float').eps] *)
Definition eps : float := 0x1p-52%float.

(** ** The interpolator object *)

Definition point : Type := float * float * float.

(** [self.region]: the index array [np.arange(0, n_nodes)] set by [__init__],
    or what the region function returns, a boolean mask over the nodes (or an
    index array). *)
Inductive Region : Type :=
| IndexArray (idx : list nat)
| BoolMask (mask : list bool).

(** The positions a region selects in an array of length [n], in order;
    IndexError when an index is out of range or the mask has another length. *)
Definition mask_indices (mask : list bool) : list nat :=
  select (seq 0 (length mask)) mask.

Definition region_indices (r : Region) (n : nat) : result (list nat) :=
  match r with
  | IndexArray idx =>
      if forallb (fun i => i <? n) idx then Ok idx else Raise IndexError
  | BoolMask mask =>
      if length mask =? n then Ok (mask_indices mask) else Raise IndexError
  end.

(** The mesh: only what the interpolator reads and writes. *)
Record Support : Type := mkSupport {
  n_nodes : nat;
  nodes : list point;
  properties : gmap string (list float)
}.

Record DiscreteInterpolator : Type := mkDI {
  (* attributes set by GeologicalInterpolator and the subclasses *)
  shape : string;
  propertyname : string;
  up_to_date : bool;
  (* attributes set by DiscreteInterpolator.__init__ *)
  B : list float;
  support : Support;
  region_function : option (list point -> Region);
  region : Region;
  region_map : list nat;
  nx : nat;
  c_ : nat;
  A : list float;
  col : list Index;
  row : list nat;
  solver : option string;
  eq_const_C : list float;
  eq_const_row : list nat;
  eq_const_col : list Z;
  eq_const_d : list float;
  eq_const_c_ : nat;
  (* set by _solve *)
  c : option (list float)
}.

Definition set_propertyname (v : string) (s : DiscreteInterpolator) :=
  mkDI (shape s) v (up_to_date s) (B s) (support s) (region_function s) (region s)
    (region_map s) (nx s) (c_ s) (A s) (col s) (row s) (solver s) (eq_const_C s)
    (eq_const_row s) (eq_const_col s) (eq_const_d s) (eq_const_c_ s) (c s).
Definition set_B (v : list float) (s : DiscreteInterpolator) :=
  mkDI (shape s) (propertyname s) (up_to_date s) v (support s) (region_function s)
    (region s) (region_map s) (nx s) (c_ s) (A s) (col s) (row s) (solver s)
    (eq_const_C s) (eq_const_row s) (eq_const_col s) (eq_const_d s) (eq_const_c_ s) (c s).
Definition set_support (v : Support) (s : DiscreteInterpolator) :=
  mkDI (shape s) (propertyname s) (up_to_date s) (B s) v (region_function s)
    (region s) (region_map s) (nx s) (c_ s) (A s) (col s) (row s) (solver s)
    (eq_const_C s) (eq_const_row s) (eq_const_col s) (eq_const_d s) (eq_const_c_ s) (c s).
Definition set_region_function (v : option (list point -> Region)) (s : DiscreteInterpolator) :=
  mkDI (shape s) (propertyname s) (up_to_date s) (B s) (support s) v
    (region s) (region_map s) (nx s) (c_ s) (A s) (col s) (row s) (solver s)
    (eq_const_C s) (eq_const_row s) (eq_const_col s) (eq_const_d s) (eq_const_c_ s) (c s).
Definition set_region_attr (v : Region) (s : DiscreteInterpolator) :=
  mkDI (shape s) (propertyname s) (up_to_date s) (B s) (support s) (region_function s)
    v (region_map s) (nx s) (c_ s) (A s) (col s) (row s) (solver s)
    (eq_const_C s) (eq_const_row s) (eq_const_col s) (eq_const_d s) (eq_const_c_ s) (c s).
Definition set_region_map (v : list nat) (s : DiscreteInterpolator) :=
  mkDI (shape s) (propertyname s) (up_to_date s) (B s) (support s) (region_function s)
    (region s) v (nx s) (c_ s) (A s) (col s) (row s) (solver s)
    (eq_const_C s) (eq_const_row s) (eq_const_col s) (eq_const_d s) (eq_const_c_ s) (c s).
Definition set_nx (v : nat) (s : DiscreteInterpolator) :=
  mkDI (shape s) (propertyname s) (up_to_date s) (B s) (support s) (region_function s)
    (region s) (region_map s) v (c_ s) (A s) (col s) (row s) (solver s)
    (eq_const_C s) (eq_const_row s) (eq_const_col s) (eq_const_d s) (eq_const_c_ s) (c s).
Definition set_c_ (v : nat) (s : DiscreteInterpolator) :=
  mkDI (shape s) (propertyname s) (up_to_date s) (B s) (support s) (region_function s)
    (region s) (region_map s) (nx s) v (A s) (col s) (row s) (solver s)
    (eq_const_C s) (eq_const_row s) (eq_const_col s) (eq_const_d s) (eq_const_c_ s) (c s).
Definition set_A (v : list float) (s : DiscreteInterpolator) :=
  mkDI (shape s) (propertyname s) (up_to_date s) (B s) (support s) (region_function s)
    (region s) (region_map s) (nx s) (c_ s) v (col s) (row s) (solver s)
    (eq_const_C s) (eq_const_row s) (eq_const_col s) (eq_const_d s) (eq_const_c_ s) (c s).
Definition set_col (v : list Index) (s : DiscreteInterpolator) :=
  mkDI (shape s) (propertyname s) (up_to_date s) (B s) (support s) (region_function s)
    (region s) (region_map s) (nx s) (c_ s) (A s) v (row s) (solver s)
    (eq_const_C s) (eq_const_row s) (eq_const_col s) (eq_const_d s) (eq_const_c_ s) (c s).
Definition set_row (v : list nat) (s : DiscreteInterpolator) :=
  mkDI (shape s) (propertyname s) (up_to_date s) (B s) (support s) (region_function s)
    (region s) (region_map s) (nx s) (c_ s) (A s) (col s) v (solver s)
    (eq_const_C s) (eq_const_row s) (eq_const_col s) (eq_const_d s) (eq_const_c_ s) (c s).
Definition set_eq_const_C (v : list float) (s : DiscreteInterpolator) :=
  mkDI (shape s) (propertyname s) (up_to_date s) (B s) (support s) (region_function s)
    (region s) (region_map s) (nx s) (c_ s) (A s) (col s) (row s) (solver s)
    v (eq_const_row s) (eq_const_col s) (eq_const_d s) (eq_const_c_ s) (c s).
Definition set_eq_const_row (v : list nat) (s : DiscreteInterpolator) :=
  mkDI (shape s) (propertyname s) (up_to_date s) (B s) (support s) (region_function s)
    (region s) (region_map s) (nx s) (c_ s) (A s) (col s) (row s) (solver s)
    (eq_const_C s) v (eq_const_col s) (eq_const_d s) (eq_const_c_ s) (c s).
Definition set_eq_const_col (v : list Z) (s : DiscreteInterpolator) :=
  mkDI (shape s) (propertyname s) (up_to_date s) (B s) (support s) (region_function s)
    (region s) (region_map s) (nx s) (c_ s) (A s) (col s) (row s) (solver s)
    (eq_const_C s) (eq_const_row s) v (eq_const_d s) (eq_const_c_ s) (c s).
Definition set_eq_const_d (v : list float) (s : DiscreteInterpolator) :=
  mkDI (shape s) (propertyname s) (up_to_date s) (B s) (support s) (region_function s)
    (region s) (region_map s) (nx s) (c_ s) (A s) (col s) (row s) (solver s)
    (eq_const_C s) (eq_const_row s) (eq_const_col s) v (eq_const_c_ s) (c s).
Definition set_eq_const_c_ (v : nat) (s : DiscreteInterpolator) :=
  mkDI (shape s) (propertyname s) (up_to_date s) (B s) (support s) (region_function s)
    (region s) (region_map s) (nx s) (c_ s) (A s) (col s) (row s) (solver s)
    (eq_const_C s) (eq_const_row s) (eq_const_col s) (eq_const_d s) v (c s).
Definition set_c (v : option (list float)) (s : DiscreteInterpolator) :=
  mkDI (shape s) (propertyname s) (up_to_date s) (B s) (support s) (region_function s)
    (region s) (region_map s) (nx s) (c_ s) (A s) (col s) (row s) (solver s)
    (eq_const_C s) (eq_const_row s) (eq_const_col s) (eq_const_d s) (eq_const_c_ s) v.

(** ** The monad of methods *)

(** What a method can read and write: the object and the log output. *)
Record World : Type := mkWorld {
  self : DiscreteInterpolator;
  logs : list LogRecord
}.

Definition M (X : Type) : Type := World -> result X * World.

Definition ret {X : Type} (x : X) : M X := fun w => (Ok x, w).

Definition bind {X Y : Type} (m : M X) (f : X -> M Y) : M Y :=
  fun w =>
    match m w with
    | (Ok x, w') => f x w'
    | (Raise e, w') => (Raise e, w')
    end.

Definition lift {X : Type} (r : result X) : M X := fun w => (r, w).

Definition get_self : M DiscreteInterpolator := fun w => (Ok (self w), w).

Definition modify (f : DiscreteInterpolator -> DiscreteInterpolator) : M unit :=
  fun w => (Ok tt, mkWorld (f (self w)) (logs w)).

Definition log_to (lg : logger_id) (lv : level) (msg : string) (args : list fmtarg)
  : M unit :=
  fun w => (Ok tt, mkWorld (self w) (logs w ++ [mkLog lg lv msg args])).

Definition logger : level -> string -> list fmtarg -> M unit := log_to ModuleLogger.

(** [try: body except ImportError: handler] *)
Definition try_except_ImportError {X : Type} (body handler : M X) : M X :=
  fun w =>
    match body w with
    | (Raise ImportError, w') => handler w'
    | r => r
    end.

Declare Scope py_scope.
Delimit Scope py_scope with py.
Notation "'do' x <- m ; k" := (bind m (fun x => k))
  (at level 10, x name, m at level 100, k at level 200) : py_scope.
Notation "'do_' m ; k" := (bind m (fun _ => k))
  (at level 10, m at level 100, k at level 200) : py_scope.
#[local] Open Scope py_scope.

(** ** Construction, region and reset *)

(** [DiscreteInterpolator.__init__(support)].  [shape], [propertyname] and
    [up_to_date] are the attributes the base class and the subclass set; they
    are arguments here.  [support.nodes[self.region]] raises IndexError when
    the support holds fewer than [n_nodes] nodes. *)
Definition init (shape0 propertyname0 : string) (up_to_date0 : bool)
    (support0 : Support) : result DiscreteInterpolator :=
  let region0 := IndexArray (seq 0 (n_nodes support0)) in
  result_bind (region_indices region0 (length (nodes support0))) (fun sel =>
  let nx0 := length sel in
  Ok (mkDI shape0 propertyname0 up_to_date0
        (if String.eqb shape0 "square" then repeat 0%float nx0 else [])
        support0 None region0 (repeat 0 (n_nodes support0)) nx0
        0 [] [] [] None [] [] [] [] 0 None)).

Definition set_property_name (name : string) : M unit :=
  modify (set_propertyname name).

Definition set_region (f : list point -> Region) : M unit :=
  do s <- get_self;
  do_ modify (set_region_function (Some f));
  let r := f (nodes (support s)) in
  do_ modify (set_region_attr r);
  let zeros := repeat 0 (n_nodes (support s)) in
  do_ modify (set_region_map zeros);
  do sel <- lift (region_indices r (length zeros));
  do rm <- lift (np_setitem zeros sel (seq 0 (length sel)));
  do_ modify (set_region_map rm);
  do sel' <- lift (region_indices r (length (nodes (support s))));
  modify (set_nx (length sel')).

Definition reset : M unit :=
  do_ logger DEBUG "Resetting interpolation constraints" [];
  do_ modify (set_c_ 0);
  do_ modify (set_A []);
  do_ modify (set_col []);
  do_ modify (set_row []);
  do_ modify (set_eq_const_C []);
  do_ modify (set_eq_const_row []);
  do_ modify (set_eq_const_col []);
  do_ modify (set_eq_const_d []);
  do_ modify (set_eq_const_c_ 0);
  modify (set_B []).

(** ** Accumulating constraints *)

(** [add_constraints_to_least_squares(A, B, idc)] *)
Definition add_constraints_to_least_squares (A0 B0 : ndarray float)
    (idc : ndarray Index) : M unit :=
  if np_any_isnan_index idc || np_any_isnan A0 || np_any_isnan B0 then
    logger WARNING "Constraints contain nan not adding constraints" []
  else
    do nr0 <- lift (shape_at A0 0);
    do nr <- (if 2 <? length (nd_shape A0)
              then do n1 <- lift (shape_at A0 1); ret (nr0 * n1)
              else ret nr0);
    let rows := np_arange nr in
    do ncol <- lift (shape_last A0);
    let rows := np_T (np_tile_rows rows ncol) in
    do s <- get_self;
    let rows := np_iadd rows (c_ s) in
    do_ modify (set_c_ (c_ s + nr));
    if String.eqb (shape s) "rectangular" then
      let Af := flatten A0 in
      let rowsf := flatten rows in
      let idcf := flatten idc in
      let Bf := flatten B0 in
      let mask := map (fun a => PrimFloat.eqb a 0%float) Af in
      let keep := map negb mask in
      do av <- lift (bool_index Af keep);
      do_ modify (fun s => set_A (A s ++ av) s);
      do rv <- lift (bool_index rowsf keep);
      do_ modify (fun s => set_row (row s ++ rv) s);
      do cv <- lift (bool_index idcf keep);
      do_ modify (fun s => set_col (col s ++ cv) s);
      modify (fun s => set_B (B s ++ Bf) s)
    else ret tt.

(** [add_equality_constraints(node_idx, values)].  [gi] is a float array in
    the source; it only ever holds -1 and the integers below [nx], which
    float64 represents exactly, so its entries are integers here.  Node
    indices are natural numbers: the wrap-around numpy gives a negative index
    is outside the model. *)
Definition add_equality_constraints (node_idx : list nat) (values : list float)
  : M unit :=
  do s <- get_self;
  let gi := repeat (-1)%Z (n_nodes (support s)) in
  do sel <- lift (region_indices (region s) (length gi));
  do gi <- lift (np_setitem gi sel (map Z.of_nat (seq 0 (nx s))));
  do idc <- lift (np_getitem gi node_idx);
  let outside := map (fun x => negb (x =? -1)%Z) idc in
  let kept := select idc outside in
  do_ modify (fun s => set_eq_const_C (eq_const_C s ++ repeat 1%float (length kept)) s);
  do_ modify (fun s => set_eq_const_col (eq_const_col s ++ kept) s);
  do_ modify (fun s => set_eq_const_row (eq_const_row s ++ seq 0 (length kept)) s);
  do vals <- lift (bool_index values outside);
  do_ modify (fun s => set_eq_const_d (eq_const_d s ++ vals) s);
  modify (fun s => set_eq_const_c_ (eq_const_c_ s + length kept) s).

(** ** Assembly *)

(** [build_matrix(square, damp)] *)
Definition build_matrix (square damp : bool) : M (spmatrix * list float) :=
  do s <- get_self;
  do_ logger INFO "Interpolation matrix is %i x %i"
        [ArgInt (Z.of_nat (c_ s)); ArgInt (Z.of_nat (nx s))];
  let cols := map index_cast (col s) in
  do Am <- lift (coo_matrix (A s) (row s) cols (c_ s, nx s));
  let Bv := B s in
  if negb square then
    do_ logger INFO "Using rectangular matrix, equality constraints are not used" [];
    ret (Am, Bv)
  else
    do AAT <- lift (sp_dot (sp_T Am) Am);
    do BT <- lift (sp_dot_vec (sp_T Am) Bv);
    do sys <- (if 0 <? eq_const_c_ s then
                 do_ logger INFO "Equality block is %i x %i"
                       [ArgInt (Z.of_nat (eq_const_c_ s)); ArgInt (Z.of_nat (nx s))];
                 do Cm <- lift (coo_matrix (eq_const_C s) (eq_const_row s)
                                  (eq_const_col s) (eq_const_c_ s, nx s));
                 let d := eq_const_d s in
                 do AAT' <- lift (bmat AAT (sp_T Cm) Cm);
                 ret (AAT', BT ++ d)
               else ret (AAT, BT));
    if damp then
      do_ logger INFO "Adding eps to matrix diagonal" [];
      do AAT' <- lift (sp_add sys.1 (sp_scale (eye (sp_shape sys.1).1) eps));
      ret (AAT', sys.2)
    else ret sys.

(** ** Solver back ends *)

(** An opaque Python object handed through to a library (a callback, a
    preconditioner). *)
Inductive PyObject : Type := PyObj (id : nat).

(** The keyword arguments [_solve] and the solver wrappers look at. *)
Record Kwargs : Type := mkKwargs {
  kw_damp : option PyVal;
  kw_precon : option (spmatrix -> result PyObject);
  kw_maxiter : option Z;
  kw_x0 : option (list float);
  kw_tol : option float;
  kw_atol : option float;
  kw_callback : option PyObject;
  kw_iter_lim : option Z;
  kw_btol : option float;
  kw_show : option PyVal;
  kw_conlim : option float;
  kw_external : option (spmatrix -> list float -> result (list float))
}.

Definition no_kwargs : Kwargs :=
  mkKwargs None None None None None None None None None None None None.

(** The arguments passed on to [scipy.sparse.linalg.cg] *)
Record CgArgs : Type := mkCgArgs {
  cg_tol : float;
  cg_maxiter : option Z;
  cg_x0 : option (list float);
  cg_atol : option float;
  cg_callback : option PyObject;
  cg_M : option PyObject
}.

(** The arguments passed on to [scipy.sparse.linalg.lsqr] *)
Record LsqrArgs : Type := mkLsqrArgs {
  lsqr_iter_lim : option Z;
  lsqr_damp : option PyVal;
  lsqr_atol : option float;
  lsqr_btol : option float;
  lsqr_show : option PyVal;
  lsqr_conlim : option float
}.

(** The libraries behind the solver wrappers.  An optional library that is
    not installed is [None]: importing it raises ImportError. *)
Record Backends : Type := mkBackends {
  (* scipy.sparse.linalg.cg(A, B, ...)[0] *)
  sla_cg : spmatrix -> list float -> CgArgs -> result (list float);
  (* scipy.sparse.linalg.splu(A.tocsc()).solve(B) *)
  sla_splu_solve : spmatrix -> list float -> result (list float);
  (* scipy.sparse.linalg.lsqr(A, B, ...)[0] *)
  sla_lsqr : spmatrix -> list float -> LsqrArgs -> result (list float);
  (* sksparse.cholmod.cholesky(A.tocsc())(B) *)
  sksparse_cholesky : option (spmatrix -> list float -> result (list float));
  (* pyamg.solve(A, B, verb=False) *)
  pyamg_solve : option (spmatrix -> list float -> result (list float));
  (* the subclass's setup_interpolator() *)
  setup_interpolator : M unit
}.

(** What a solver wrapper hands back to [_solve]: a vector, or the [False]
    that [_solve_chol] returns. *)
Inductive Solution : Type :=
| SolVector (x : list float)
| SolFalse.

(** 1e-12, the default tolerance of [_solve_cg] *)
Definition tol_default : float := 0x1.19799812dea11p-40%float.

Section Solve.

Variable env : Backends.

Definition _solve_lu (Am : spmatrix) (Bv : list float) : M (list float) :=
  do s <- get_self;
  do sol <- lift (sla_splu_solve env Am Bv);
  ret (take (nx s) sol).

Definition _solve_lsqr (Am : spmatrix) (Bv : list float) (kw : Kwargs)
  : M (list float) :=
  do_ (match kw_iter_lim kw with
       | Some n => logger INFO "Using %i maximum iterations" [ArgInt n]
       | None => ret tt
       end);
  do_ (match kw_damp kw with
       | Some _ => logger INFO "Using damping coefficient" []
       | None => ret tt
       end);
  do_ (match kw_atol kw with
       | Some t => logger INFO "Using a tolerance of %f" [ArgFloat t]
       | None => ret tt
       end);
  do_ (match kw_btol kw with
       | Some t => logger INFO "Using btol of %f" [ArgFloat t]
       | None => ret tt
       end);
  lift (sla_lsqr env Am Bv
          (mkLsqrArgs (kw_iter_lim kw) (kw_damp kw) (kw_atol kw) (kw_btol kw)
             (kw_show kw) (kw_conlim kw))).

Definition _solve_chol (Am : spmatrix) (Bv : list float) : M Solution :=
  try_except_ImportError
    (do s <- get_self;
     do cholesky <- lift (match sksparse_cholesky env with
                          | Some f => Ok f
                          | None => Raise ImportError
                          end);
     do sol <- lift (cholesky Am Bv);
     ret (SolVector (take (nx s) sol)))
    (do_ logger WARNING "Scikit Sparse not installed try using cg instead" [];
     ret SolFalse).

Definition _solve_cg (Am : spmatrix) (Bv : list float) (kw : Kwargs)
  : M (list float) :=
  do_ (match kw_maxiter kw with
       | Some n => logger INFO "Using %i maximum iterations" [ArgInt n]
       | None => ret tt
       end);
  do_ (match kw_x0 kw with
       | Some _ => logger INFO "Using starting guess" []
       | None => ret tt
       end);
  do_ (match kw_tol kw with
       | Some t => logger INFO "Using tolerance of %f" [ArgFloat t]
       | None => ret tt
       end);
  do_ (match kw_atol kw with
       | Some t => logger INFO "Using atol of %f" [ArgFloat t]
       | None => ret tt
       end);
  do pre <- (match kw_precon kw with
             | Some precon => do m <- lift (precon Am); ret (Some m)
             | None => ret None
             end);
  do s <- get_self;
  do sol <- lift (sla_cg env Am Bv
                    (mkCgArgs (default tol_default (kw_tol kw)) (kw_maxiter kw)
                       (kw_x0 kw) (kw_atol kw) (kw_callback kw) pre));
  ret (take (nx s) sol).

Definition _solve_pyamg (Am : spmatrix) (Bv : list float) : M (list float) :=
  do s <- get_self;
  do solve <- lift (match pyamg_solve env with
                    | Some f => Ok f
                    | None => Raise ImportError
                    end);
  do sol <- lift (solve Am Bv);
  ret (take (nx s) sol).

(** [self.c[self.region] = v] *)
Definition assign_c_region (v : Solution) : M unit :=
  do s <- get_self;
  do cv <- lift (match c s with
                 | Some cv => Ok cv
                 | None => Raise (OtherError "AttributeError")
                 end);
  do sel <- lift (region_indices (region s) (length cv));
  do cv' <- lift (match v with
                  | SolVector x => np_setitem cv sel x
                  | SolFalse => np_setitem_scalar cv sel 0%float
                  end);
  modify (set_c (Some cv')).

Definition when (b : bool) (m : M unit) : M unit := if b then m else ret tt.

(** The middle of [_solve] ("run the chosen solver"): one [if] per solver
    name, each assigning the solver's result to [self.c[self.region]]. *)
Definition run_solver (solver_name : string) (kw : Kwargs) (Am : spmatrix)
    (Bv : list float) : M unit :=
  do_ when (String.eqb solver_name "cg")
        (do_ logger INFO "Solving using conjugate gradient" [];
         do x <- _solve_cg Am Bv kw;
         assign_c_region (SolVector x));
  do_ when (String.eqb solver_name "chol")
        (do x <- _solve_chol Am Bv;
         assign_c_region x);
  do_ when (String.eqb solver_name "lu")
        (do_ logger INFO "Solving using scipy LU" [];
         do x <- _solve_lu Am Bv;
         assign_c_region (SolVector x));
  do_ when (String.eqb solver_name "pyamg")
        (try_except_ImportError
           (do_ logger INFO "Solving with pyamg solve" [];
            do x <- _solve_pyamg Am Bv;
            assign_c_region (SolVector x))
           (do_ logger WARNING "Pyamg not installed using cg instead" [];
            do x <- _solve_cg Am Bv no_kwargs;
            assign_c_region (SolVector x)));
  do_ when (String.eqb solver_name "lsqr")
        (do x <- _solve_lsqr Am Bv kw;
         assign_c_region (SolVector x));
  when (String.eqb solver_name "external")
    (do_ logger WARNING "Using external solver" [];
     do ext <- lift (match kw_external kw with
                     | Some f => Ok f
                     | None => Raise KeyError
                     end);
     do sol <- lift (ext Am Bv);
     do s <- get_self;
     assign_c_region (SolVector (take (nx s) sol))).

(** The end of [_solve]: the array is stored on the support under the
    property name, then the two checks of the solution. *)
Definition publish_solution : M unit :=
  do s <- get_self;
  do cv <- lift (match c s with
                 | Some cv => Ok cv
                 | None => Raise (OtherError "AttributeError")
                 end);
  do_ modify (set_support
                (mkSupport (n_nodes (support s)) (nodes (support s))
                   (<[propertyname s := cv]> (properties (support s)))));
  do_ when (forallb (fun x => PrimFloat.eqb x nan) cv)
        (logger WARNING "Solver not run, no scalar field" []);
  do sel <- lift (region_indices (region s) (length cv));
  do creg <- lift (np_getitem cv sel);
  when (forallb (fun x => PrimFloat.eqb x 0%float) creg)
    (logger WARNING "No solution, scalar field 0. Add more data." []).

(** The [damp] flag [_solve] passes to [build_matrix]: [kwargs['damp']] when
    given, else [True]. *)
Definition damp_flag (kw : Kwargs) : bool :=
  match kw_damp kw with Some v => truthy v | None => true end.

(** [_solve(solver, **kwargs)] *)
Definition _solve (solver_name : string) (kw : Kwargs) : M unit :=
  do s <- get_self;
  do_ modify (set_c (Some (repeat nan (n_nodes (support s)))));
  let damp := damp_flag kw in
  do sys <- (if String.eqb solver_name "lsqr"
             then build_matrix false true
             else build_matrix true damp);
  do_ run_solver solver_name kw sys.1 sys.2;
  publish_solution.

(** [self._solve(self.solver)]: the attribute is read when the call is made.
    When it holds [None], none of the comparisons of [_solve] with a solver
    name holds: the square system is assembled, no back end is run, and the
    array is published. *)
Definition _solve_attr (kw : Kwargs) : M unit :=
  do s <- get_self;
  match solver s with
  | Some name => _solve name kw
  | None =>
      do_ modify (set_c (Some (repeat nan (n_nodes (support s)))));
      do _ <- build_matrix true (damp_flag kw);
      publish_solution
  end.

(** [update()]: returns [False] ([Some false]) or [None].  The two tests read
    [self.solver] and [self.up_to_date] before [setup_interpolator] runs; the
    argument of [_solve] is read after it. *)
Definition update : M (option bool) :=
  do s <- get_self;
  match solver s with
  | None =>
      do_ log_to RootLogger DEBUG "Cannot rerun interpolator" [];
      ret (Some false)
  | Some _ =>
      if negb (up_to_date s) then
        do_ setup_interpolator env;
        do_ _solve_attr no_kwargs;
        ret None
      else ret None
  end.

End Solve.

(** * Properties *)

(** ** Helper lemmas on the array operations *)

Lemma length_scatter {X : Type} (idx : list nat) (vals a : list X) :
  length (scatter a idx vals) = length a.
Proof.
  unfold scatter. revert vals a.
  induction idx as [|i idx IH]; intros [|v vals] a; simpl; try reflexivity.
  rewrite IH. apply length_insert.
Qed.

Lemma scatter_lookup_notin {X : Type} (idx : list nat) (vals a : list X) (i : nat) :
  i ∉ idx -> scatter a idx vals !! i = a !! i.
Proof.
  unfold scatter. revert vals a.
  induction idx as [|j idx IH]; intros [|v vals] a Hni; simpl; try reflexivity.
  apply not_elem_of_cons in Hni as [Hne Hni].
  rewrite IH by assumption. apply list_lookup_insert_ne. congruence.
Qed.

Lemma scatter_lookup_in {X : Type} (idx : list nat) (vals a : list X)
    (p i : nat) (v : X) :
  NoDup idx -> idx !! p = Some i -> vals !! p = Some v -> i < length a ->
  scatter a idx vals !! i = Some v.
Proof.
  unfold scatter. revert vals a p.
  induction idx as [|j idx IH]; intros [|v0 vals] a p Hnd Hi Hv Hlt;
    try discriminate.
  apply NoDup_cons in Hnd as [Hnj Hnd].
  destruct p as [|p]; simpl in *.
  - injection Hi as ->. injection Hv as ->.
    change (scatter (<[i:=v]> a) idx vals !! i = Some v).
    rewrite scatter_lookup_notin by assumption.
    apply list_lookup_insert_eq. assumption.
  - apply (IH vals _ p); try assumption. rewrite length_insert. assumption.
Qed.

Lemma forallb_ltb_Forall (n : nat) (l : list nat) :
  forallb (fun i => i <? n) l = true <-> Forall (fun i => i < n) l.
Proof.
  rewrite forallb_forall, Forall_forall.
  split; intros H x Hx.
  - apply Nat.ltb_lt, H, list_elem_of_In, Hx.
  - apply Nat.ltb_lt, H, list_elem_of_In, Hx.
Qed.

Lemma np_getitem_Forall2 {X : Type} (a : list X) (idx : list nat) :
  Forall (fun i => i < length a) idx ->
  exists ys, np_getitem a idx = Ok ys /\ Forall2 (fun i y => a !! i = Some y) idx ys.
Proof.
  induction 1 as [|i idx Hi _ IH]; simpl.
  - exists []. split; [reflexivity | constructor].
  - destruct IH as (ys & -> & HF).
    destruct (lookup_lt_is_Some_2 a i Hi) as [x Hx]. rewrite Hx. simpl.
    exists (x :: ys). split; [reflexivity | constructor; assumption].
Qed.

(** ** Rejection of batches that contain NaN *)

Definition contains_nan (a : ndarray float) : Prop :=
  exists x, x ∈ nd_data a /\ PrimFloat.is_nan x = true.

Definition contains_nan_index (a : ndarray Index) : Prop :=
  IdxNaN ∈ nd_data a.

Lemma np_any_isnan_true (a : ndarray float) :
  contains_nan a -> np_any_isnan a = true.
Proof.
  intros (x & Hx & Hn). apply existsb_exists.
  exists x. split; [apply list_elem_of_In, Hx | exact Hn].
Qed.

Lemma np_any_isnan_index_true (a : ndarray Index) :
  contains_nan_index a -> np_any_isnan_index a = true.
Proof.
  intros Hx. apply existsb_exists.
  exists IdxNaN. split; [apply list_elem_of_In, Hx | reflexivity].
Qed.

(** C2: a batch with a NaN in the coefficients, the column indices or the
    right-hand side is rejected as a whole.  The call returns normally, its
    only effect is one warning appended to the log, and the interpolator
    object (in particular [A], [row], [col], [B] and [c_]) is the one it was
    before the call. *)
Theorem add_constraints_nan_rejected (A0 B0 : ndarray float) (idc : ndarray Index)
    (w : World) :
  contains_nan A0 \/ contains_nan B0 \/ contains_nan_index idc ->
  add_constraints_to_least_squares A0 B0 idc w =
    (Ok tt,
     mkWorld (self w)
       (logs w ++ [mkLog ModuleLogger WARNING
                     "Constraints contain nan not adding constraints" []]))
  /\ (let w' := (add_constraints_to_least_squares A0 B0 idc w).2 in
      A (self w') = A (self w) /\ row (self w') = row (self w)
      /\ col (self w') = col (self w) /\ B (self w') = B (self w)
      /\ c_ (self w') = c_ (self w)).
Proof.
  intros H.
  assert (Hb : np_any_isnan_index idc || np_any_isnan A0 || np_any_isnan B0 = true).
  { destruct H as [H | [H | H]].
    - rewrite (np_any_isnan_true _ H). apply orb_true_iff. left.
      apply orb_true_r.
    - rewrite (np_any_isnan_true _ H). apply orb_true_r.
    - rewrite (np_any_isnan_index_true _ H). reflexivity. }
  unfold add_constraints_to_least_squares. rewrite Hb.
  split; [reflexivity |].
  repeat split.
Qed.

(** ** [update] before any solver was selected *)

(** C10: when no solver was ever selected, [update] returns [False], whatever
    the back ends are; it neither assembles nor solves, and the interpolator
    object, with its accumulated constraints and the properties published on
    the support, is unchanged.  Its only effect is one debug record. *)
Theorem update_without_solver (env : Backends) (w : World) :
  solver (self w) = None ->
  update env w =
    (Ok (Some false),
     mkWorld (self w)
       (logs w ++ [mkLog RootLogger DEBUG "Cannot rerun interpolator" []])).
Proof.
  intros H. unfold update, bind, get_self. simpl. rewrite H. reflexivity.
Qed.

(** When the last solve is still current, [update] returns [None] and changes
    nothing, not even the log. *)
Lemma update_up_to_date (env : Backends) (w : World) (name : string) :
  solver (self w) = Some name ->
  up_to_date (self w) = true ->
  update env w = (Ok None, w).
Proof.
  intros Hs Hu. unfold update, bind, get_self. simpl. rewrite Hs, Hu. reflexivity.
Qed.

(** ** Regions *)

Lemma select_seq_bounds (mask : list bool) (a i : nat) :
  i ∈ select (seq a (length mask)) mask -> a <= i < a + length mask.
Proof.
  revert a. induction mask as [|b mask IH]; intros a; simpl.
  - intros H. inversion H.
  - destruct b.
    + intros [-> | H]%elem_of_cons; [lia |]. apply IH in H. lia.
    + intros H. apply IH in H. lia.
Qed.

Lemma select_seq_NoDup (mask : list bool) (a : nat) :
  NoDup (select (seq a (length mask)) mask).
Proof.
  revert a. induction mask as [|b mask IH]; intros a; simpl.
  - constructor.
  - destruct b; [| apply IH].
    constructor; [| apply IH].
    intros H. apply select_seq_bounds in H. lia.
Qed.

Lemma region_indices_lt (r : Region) (n : nat) (sel : list nat) :
  region_indices r n = Ok sel -> Forall (fun i => i < n) sel.
Proof.
  destruct r as [idx | mask]; simpl.
  - destruct (forallb _ idx) eqn:E; [| discriminate].
    intros [= <-]. apply forallb_ltb_Forall, E.
  - destruct (Nat.eqb_spec (length mask) n) as [<- |]; [| discriminate].
    intros [= <-]. apply Forall_forall. intros i Hi.
    apply select_seq_bounds in Hi. lia.
Qed.

(** A boolean mask never selects a node twice. *)
Lemma region_indices_mask_NoDup (mask : list bool) (n : nat) (sel : list nat) :
  region_indices (BoolMask mask) n = Ok sel -> NoDup sel.
Proof.
  simpl. destruct (length mask =? n); [| discriminate].
  intros [= <-]. apply select_seq_NoDup.
Qed.

(** The active region of an interpolator: the nodes [sel] it selects on the
    support, each once, with [nx] their number. *)
Definition region_ok (s : DiscreteInterpolator) (sel : list nat) : Prop :=
  region_indices (region s) (n_nodes (support s)) = Ok sel
  /\ NoDup sel
  /\ nx s = length sel.

Lemma lookup_repeat {X : Type} (x y : X) (n i : nat) :
  repeat x n !! i = Some y -> y = x.
Proof.
  revert i. induction n as [|n IH]; intros [|i]; simpl; try discriminate.
  - congruence.
  - apply IH.
Qed.

(** The compaction map [gi] built by [add_equality_constraints]: -1 outside
    the region, the position in the region inside. *)
Lemma gi_lookup (sel : list nat) (n i : nat) (y : Z) :
  NoDup sel -> Forall (fun j => j < n) sel ->
  scatter (repeat (-1)%Z n) sel (map Z.of_nat (seq 0 (length sel))) !! i = Some y ->
  (y = (-1)%Z /\ i ∉ sel) \/ (exists p, y = Z.of_nat p /\ sel !! p = Some i).
Proof.
  intros Hnd Hlt Hy.
  destruct (decide (i ∈ sel)) as [Hin | Hni].
  - right. apply list_elem_of_lookup in Hin as [p Hp]. exists p. split; [| exact Hp].
    assert (Hpl : p < length sel) by (eapply lookup_lt_Some; exact Hp).
    erewrite scatter_lookup_in in Hy; [injection Hy as <-; reflexivity | exact Hnd | exact Hp | |].
    + rewrite list_lookup_fmap, lookup_seq_lt by assumption. reflexivity.
    + rewrite repeat_length. rewrite Forall_forall in Hlt. apply Hlt.
      eapply list_elem_of_lookup_2. exact Hp.
  - left. rewrite scatter_lookup_notin in Hy by assumption.
    apply lookup_repeat in Hy. split; assumption.
Qed.

Lemma select_retained (sel : list nat) (gi : list Z) (node_idx : list nat)
    (idc : list Z) :
  (forall i y, gi !! i = Some y ->
     (y = (-1)%Z /\ i ∉ sel) \/ (exists p, y = Z.of_nat p /\ sel !! p = Some i)) ->
  Forall2 (fun i y => gi !! i = Some y) node_idx idc ->
  forall values : list float,
  length values = length node_idx ->
  let outside := map (fun x => negb (x =? -1)%Z) idc in
  let retained := List.filter (fun iv => bool_decide (iv.1 ∈ sel)) (zip node_idx values) in
  select values outside = map snd retained
  /\ Forall2 (fun iv c => exists p, c = Z.of_nat p /\ sel !! p = Some iv.1)
       retained (select idc outside).
Proof.
  intros Hgi HF. induction HF as [|i y node_idx idc Hy HF IH]; intros values Hlen.
  - destruct values; [| discriminate]. simpl. split; constructor.
  - destruct values as [|v values]; [discriminate |].
    injection Hlen as Hlen. specialize (IH values Hlen) as [IH1 IH2].
    simpl. destruct (Hgi i y Hy) as [[-> Hni] | (p & -> & Hp)].
    + simpl. rewrite bool_decide_eq_false_2 by assumption. split; assumption.
    + assert (Hne : (Z.of_nat p =? -1)%Z = false) by (apply Z.eqb_neq; lia).
      rewrite Hne. simpl.
      rewrite bool_decide_eq_true_2 by (eapply list_elem_of_lookup_2; exact Hp).
      simpl. split; [f_equal; exact IH1 |].
      constructor; [| exact IH2]. exists p. split; [reflexivity | exact Hp].
Qed.

(** ** Equality constraints *)

(** The equality stores replaced as a whole, everything else kept. *)
Definition with_eq_store (Cv : list float) (rowv : list nat) (colv : list Z)
    (dv : list float) (cnt : nat) (s : DiscreteInterpolator) : DiscreteInterpolator :=
  set_eq_const_c_ cnt
    (set_eq_const_d dv (set_eq_const_row rowv (set_eq_const_col colv
       (set_eq_const_C Cv s)))).

(** What [add_equality_constraints] does on node indices of the support and
    values of the same length, [cols] being the columns it appends. *)
Lemma add_equality_constraints_run (node_idx : list nat) (values : list float)
    (w : World) (sel : list nat) :
  region_ok (self w) sel ->
  Forall (fun i => i < n_nodes (support (self w))) node_idx ->
  length values = length node_idx ->
  let s := self w in
  let retained :=
    List.filter (fun iv => bool_decide (iv.1 ∈ sel)) (zip node_idx values) in
  let k := length retained in
  exists cols : list Z,
    Forall2 (fun iv cj => exists p, cj = Z.of_nat p /\ sel !! p = Some iv.1)
      retained cols
    /\ add_equality_constraints node_idx values w =
         (Ok tt,
          mkWorld
            (with_eq_store
               (eq_const_C s ++ repeat 1%float k)
               (eq_const_row s ++ seq 0 k)
               (eq_const_col s ++ cols)
               (eq_const_d s ++ map snd retained)
               (eq_const_c_ s + k) s)
            (logs w)).
Proof.
  intros (Hsel & Hnd & Hnx) Hidx Hlen s retained k. subst s.
  pose proof (region_indices_lt _ _ _ Hsel) as Hlt.
  set (gi := scatter (repeat (-1)%Z (n_nodes (support (self w)))) sel
               (map Z.of_nat (seq 0 (length sel)))).
  assert (Hgilen : length gi = n_nodes (support (self w))).
  { unfold gi. rewrite length_scatter, repeat_length. reflexivity. }
  destruct (np_getitem_Forall2 gi node_idx) as (idc & Hget & HF).
  { rewrite Hgilen. exact Hidx. }
  destruct (select_retained sel gi node_idx idc
              (fun i y => gi_lookup sel _ i y Hnd Hlt) HF values Hlen)
    as [Hvals Hcols].
  exists (select idc (map (fun x => negb (x =? -1)%Z) idc)).
  split; [exact Hcols |].
  assert (Hk : length (select idc (map (fun x => negb (x =? -1)%Z) idc)) = k).
  { symmetry. eapply Forall2_length. exact Hcols. }
  unfold add_equality_constraints, bind, get_self, lift, modify. simpl.
  rewrite repeat_length, Hsel.
  unfold np_setitem. rewrite repeat_length.
  rewrite (proj2 (forallb_ltb_Forall _ _) Hlt).
  rewrite length_map, length_seq, Hnx, Nat.eqb_refl.
  fold gi. rewrite Hget.
  unfold bool_index. rewrite length_map.
  rewrite <- (Forall2_length _ _ _ HF), Hlen, Nat.eqb_refl.
  rewrite Hvals, Hk. reflexivity.
Qed.

(** C4: [add_equality_constraints(node_idx, values)] keeps exactly the pairs
    whose node lies in the active region, in the order given.  For each kept
    pair [(i, v)] it appends the coefficient 1, a column that is the position
    of [i] in the region, and the target [v]; the appended rows are
    [0, 1, ..., k-1] and [eq_const_c_] grows by [k], the number of kept pairs.
    Pairs whose node is outside the region add nothing: a supplied node
    outside the region is not among the kept pairs, and every appended column
    is a region-local index below [nx].  Nothing else of the object changes
    and nothing is logged. *)
Theorem add_equality_constraints_spec (node_idx : list nat) (values : list float)
    (w : World) (sel : list nat) :
  region_ok (self w) sel ->
  Forall (fun i => i < n_nodes (support (self w))) node_idx ->
  length values = length node_idx ->
  let s := self w in
  let retained :=
    List.filter (fun iv => bool_decide (iv.1 ∈ sel)) (zip node_idx values) in
  let k := length retained in
  exists cols : list Z,
    Forall2 (fun iv cj => exists p, cj = Z.of_nat p /\ sel !! p = Some iv.1)
      retained cols
    /\ Forall (fun cj => (0 <= cj < Z.of_nat (nx s))%Z) cols
    /\ (forall iv, iv ∈ zip node_idx values -> iv.1 ∉ sel -> iv ∉ retained)
    /\ add_equality_constraints node_idx values w =
         (Ok tt,
          mkWorld
            (with_eq_store
               (eq_const_C s ++ repeat 1%float k)
               (eq_const_row s ++ seq 0 k)
               (eq_const_col s ++ cols)
               (eq_const_d s ++ map snd retained)
               (eq_const_c_ s + k) s)
            (logs w)).
Proof.
  intros Hreg Hidx Hlen s retained k.
  destruct (add_equality_constraints_run node_idx values w sel Hreg Hidx Hlen)
    as (cols & Hcols & Hrun).
  exists cols. split; [exact Hcols |]. split; [| split; [| exact Hrun]].
  - destruct Hreg as (_ & _ & Hnx). subst s. rewrite Hnx.
    eapply Forall2_Forall_r; [exact Hcols |].
    apply Forall_forall. intros iv _ cj (p & -> & Hp).
    apply lookup_lt_Some in Hp. lia.
  - intros iv _ Hout Hin. unfold retained in Hin.
    apply list_elem_of_In, filter_In in Hin as [_ Hin].
    apply bool_decide_eq_true in Hin. contradiction.
Qed.


(** ** Soft constraints *)

Lemma nth_concat_repeat_seq (nr reps i j : nat) :
  i < reps -> j < nr ->
  nth (i * nr + j) (concat (repeat (seq 0 nr) reps)) 0 = j.
Proof.
  revert i. induction reps as [|reps IH]; intros i Hi Hj; [lia |].
  simpl. destruct i as [|i].
  - simpl. rewrite app_nth1 by (rewrite length_seq; exact Hj).
    rewrite seq_nth by exact Hj. reflexivity.
  - rewrite app_nth2 by (rewrite length_seq; simpl; lia).
    rewrite length_seq.
    replace (S i * nr + j - nr) with (i * nr + j) by (simpl; lia).
    apply IH; [lia | exact Hj].
Qed.

Lemma map_seq_const {X : Type} (f : nat -> X) (v : X) (len start : nat) :
  (forall p, start <= p < start + len -> f p = v) ->
  map f (seq start len) = repeat v len.
Proof.
  revert start. induction len as [|len IH]; intros start H; simpl; [reflexivity |].
  rewrite H by lia. f_equal. apply IH. intros p Hp. apply H. lia.
Qed.

Lemma map_flat_map_seq {X Y : Type} (f : nat -> list X) (g : X -> Y)
    (h : nat -> list Y) (n a : nat) :
  (forall j, a <= j < a + n -> map g (f j) = h j) ->
  map g (flat_map f (seq a n)) = flat_map h (seq a n).
Proof.
  revert a. induction n as [|n IH]; intros a H; simpl; [reflexivity |].
  rewrite map_app, H by lia. f_equal. apply IH. intros j Hj. apply H. lia.
Qed.

Lemma flat_map_repeat_div (c0 ncol nr : nat) :
  flat_map (fun j => repeat (c0 + j) ncol) (seq 0 nr) =
  map (fun p => c0 + p / ncol) (seq 0 (nr * ncol)).
Proof.
  induction nr as [|nr IH]; [reflexivity |].
  rewrite seq_S, flat_map_app, IH. simpl flat_map. rewrite app_nil_r.
  replace (S nr * ncol) with (nr * ncol + ncol) by (simpl; lia).
  rewrite seq_app, map_app. f_equal. simpl.
  symmetry. apply map_seq_const. intros p Hp. f_equal.
  symmetry. apply Nat.div_unique with (p - nr * ncol); lia.
Qed.

(** The row numbers the code builds with [arange], [tile], [.T] and [+=],
    once flattened: entry [p] of the flattened batch lies in row [p / ncol]
    of the batch, counted from [c0]. *)
Lemma rows_pipeline (nr ncol c0 : nat) :
  flatten (np_iadd (np_T (np_tile_rows (np_arange nr) ncol)) c0) =
  map (fun p => c0 + p / ncol) (seq 0 (nr * ncol)).
Proof.
  unfold flatten, np_iadd, np_T, np_tile_rows, np_arange. simpl.
  rewrite length_seq, <- flat_map_repeat_div.
  apply map_flat_map_seq. intros j Hj.
  rewrite map_map. apply map_seq_const. intros i Hi.
  rewrite nth_concat_repeat_seq by lia. lia.
Qed.

(** Selecting from the three flattened arrays by the mask of the nonzero
    coefficients selects the triplets with a nonzero coefficient. *)
Lemma select_triplets (Af : list float) (R : list nat) (I : list Index) :
  length R = length Af -> length I = length Af ->
  let keep := map negb (map (fun a => PrimFloat.eqb a 0%float) Af) in
  let kept := List.filter (fun e => negb (PrimFloat.eqb e.1.1 0%float))
                (zip (zip Af R) I) in
  select Af keep = map (fun e => e.1.1) kept
  /\ select R keep = map (fun e => e.1.2) kept
  /\ select I keep = map snd kept.
Proof.
  revert R I. induction Af as [|a Af IH]; intros [|r R] [|i I] HR HI;
    try discriminate; simpl.
  - repeat split.
  - injection HR as HR. injection HI as HI.
    destruct (IH R I HR HI) as (H1 & H2 & H3).
    destruct (PrimFloat.eqb a 0); simpl.
    + repeat split; assumption.
    + rewrite H1, H2, H3. repeat split.
Qed.

Lemma existsb_false_not {X : Type} (f : X -> bool) (l : list X) :
  (forall x, x ∈ l -> f x = false) -> existsb f l = false.
Proof.
  intros H. destruct (existsb f l) eqn:E; [| reflexivity].
  apply existsb_exists in E as (x & Hx & Hf).
  rewrite H in Hf by (apply list_elem_of_In, Hx). discriminate.
Qed.

Lemma np_any_isnan_false (a : ndarray float) :
  ~ contains_nan a -> np_any_isnan a = false.
Proof.
  intros H. apply existsb_false_not. intros x Hx.
  destruct (PrimFloat.is_nan x) eqn:E; [| reflexivity].
  exfalso. apply H. exists x. split; assumption.
Qed.

Lemma np_any_isnan_index_false (a : ndarray Index) :
  ~ contains_nan_index a -> np_any_isnan_index a = false.
Proof.
  intros H. apply existsb_false_not. intros [z |] Hx; [reflexivity |].
  exfalso. apply H, Hx.
Qed.

Lemma nd_size_app (dims : list nat) (n : nat) :
  nd_size (dims ++ [n]) = nd_size dims * n.
Proof.
  unfold nd_size. induction dims as [|d dims IH]; simpl; [lia |].
  rewrite IH. lia.
Qed.

(** The soft-constraint stores replaced as a whole, everything else kept. *)
Definition with_soft_store (Av : list float) (rowv : list nat) (colv : list Index)
    (Bv : list float) (cnt : nat) (s : DiscreteInterpolator) : DiscreteInterpolator :=
  set_B Bv (set_col colv (set_row rowv (set_A Av (set_c_ cnt s)))).

(** The triplets a batch contributes when the running row counter is [c0]:
    the flattened coefficients, each with the row [c0 + p / ncol] of its
    flattened position [p] and with its column index, those with a zero
    coefficient left out. *)
Definition batch_triplets (c0 ncol : nat) (A0 : ndarray float) (idc : ndarray Index)
  : list (float * nat * Index) :=
  let rows := map (fun p => c0 + p / ncol) (seq 0 (length (nd_data A0))) in
  List.filter (fun e => negb (PrimFloat.eqb e.1.1 0%float))
    (zip (zip (nd_data A0) rows) (nd_data idc)).

Lemma batch_triplets_nonzero (c0 ncol : nat) (A0 : ndarray float) (idc : ndarray Index) :
  Forall (fun e => PrimFloat.eqb e.1.1 0%float = false) (batch_triplets c0 ncol A0 idc).
Proof.
  apply Forall_forall. intros e He. apply list_elem_of_In, filter_In in He.
  destruct He as [_ He]. apply negb_true_iff, He.
Qed.

Lemma elem_of_zip_l_r {X Y : Type} (xs : list X) (ys : list Y) (e : X * Y) :
  e ∈ zip xs ys -> e.1 ∈ xs /\ e.2 ∈ ys.
Proof.
  revert ys. induction xs as [|x xs IH]; intros [|y ys]; simpl; try (intros H; inversion H; fail).
  intros [-> | H]%elem_of_cons.
  - split; apply list_elem_of_here.
  - destruct (IH ys H). split; apply list_elem_of_further; assumption.
Qed.

Lemma batch_triplets_rows (c0 ncol nr : nat) (A0 : ndarray float) (idc : ndarray Index) :
  length (nd_data A0) = nr * ncol ->
  Forall (fun e => c0 <= e.1.2 < c0 + nr) (batch_triplets c0 ncol A0 idc).
Proof.
  intros Hsize. apply Forall_forall. intros e He.
  apply list_elem_of_In, filter_In in He as [He _]. apply list_elem_of_In in He.
  apply elem_of_zip_l_r in He as [He _]. apply elem_of_zip_l_r in He as [_ He].
  apply list_elem_of_fmap in He as (p & -> & Hp).
  apply elem_of_seq in Hp. rewrite Hsize in Hp.
  assert (p / ncol < nr).
  { apply Nat.Div0.div_lt_upper_bound. lia. }
  lia.
Qed.

Lemma batch_triplets_cols (c0 ncol : nat) (A0 : ndarray float) (idc : ndarray Index)
    (e : float * nat * Index) :
  e ∈ batch_triplets c0 ncol A0 idc -> e.2 ∈ nd_data idc.
Proof.
  intros He. apply list_elem_of_In, filter_In in He as [He _].
  apply list_elem_of_In in He. apply elem_of_zip_l_r in He as [_ He]. exact He.
Qed.

(** What [add_constraints_to_least_squares] does with a NaN-free batch of two
    or three dimensions on a rectangular-shape interpolator. *)
Lemma add_constraints_run (A0 B0 : ndarray float) (idc : ndarray Index)
    (w : World) (dims : list nat) (ncol : nat) :
  shape (self w) = "rectangular" ->
  ~ contains_nan A0 -> ~ contains_nan B0 -> ~ contains_nan_index idc ->
  nd_wf A0 ->
  nd_shape A0 = dims ++ [ncol] ->
  length dims = 1 \/ length dims = 2 ->
  length (nd_data idc) = length (nd_data A0) ->
  let s := self w in
  let kept := batch_triplets (c_ s) ncol A0 idc in
  add_constraints_to_least_squares A0 B0 idc w =
    (Ok tt,
     mkWorld
       (with_soft_store
          (A s ++ map (fun e => e.1.1) kept)
          (row s ++ map (fun e => e.1.2) kept)
          (col s ++ map snd kept)
          (B s ++ nd_data B0)
          (c_ s + nd_size dims) s)
       (logs w)).
Proof.
  intros Hshape HA HB HI Hwf Hsh Hdims Hlen s kept. subst s kept.
  unfold batch_triplets.
  assert (Hsize : length (nd_data A0) = nd_size dims * ncol).
  { rewrite Hwf, Hsh. apply nd_size_app. }
  unfold add_constraints_to_least_squares.
  rewrite (np_any_isnan_false _ HA), (np_any_isnan_false _ HB),
    (np_any_isnan_index_false _ HI).
  destruct A0 as [sh dataA]. simpl in Hsh, Hsize, Hlen. subst sh.
  change (false || false || false) with false. cbv iota.
  assert (Hnr1 : nd_size dims * ncol = length dataA) by (symmetry; exact Hsize).
  pose proof (select_triplets dataA
                (map (fun p => c_ (self w) + p / ncol) (seq 0 (length dataA)))
                (nd_data idc)) as Hsel.
  rewrite length_map, length_seq in Hsel.
  destruct (Hsel eq_refl Hlen) as (H1 & H2 & H3). clear Hsel.
  assert (Hcases : (exists d0, dims = [d0]) \/ (exists d0 d1, dims = [d0; d1])).
  { destruct Hdims as [H | H].
    - destruct dims as [|d0 [|]]; try discriminate. left. exists d0. reflexivity.
    - destruct dims as [|d0 [|d1 [|]]]; try discriminate. right. exists d0, d1.
      reflexivity. }
  destruct Hcases as [(d0 & ->) | (d0 & d1 & ->)];
    unfold nd_size in *; cbn [fold_right] in *; rewrite Nat.mul_1_r in *;
    unfold bind, lift, ret, get_self, modify, shape_at, shape_last;
    cbn [nd_shape app length lookup list_lookup last Nat.ltb Nat.leb];
    rewrite Hshape; cbn [String.eqb Ascii.eqb Bool.eqb];
    rewrite rows_pipeline, Hnr1; unfold bool_index, flatten; cbn [nd_data];
    rewrite !length_map, length_seq, Hlen, Nat.eqb_refl;
    rewrite H1, H2, H3; reflexivity.
Qed.

(** C3: on a rectangular-shape interpolator, a NaN-free batch whose
    coefficient array has one or two leading dimensions [dims] and a last
    dimension [ncol] is stored as follows.  The flattened coefficients,
    paired with their row number and their column index, are filtered: a
    triplet is appended exactly when its coefficient differs from zero, so a
    zero coefficient leaves no value, row or column entry.  The row number of
    the flattened entry [p] is [c_ + p / ncol]: the rows of the batch are
    numbered consecutively from the running counter and stay below the new
    counter.  The whole flattened right-hand side is appended to [B], whatever
    the coefficients are, and [c_] grows by the number of rows of the batch. *)
Theorem add_constraints_stores_nonzero (A0 B0 : ndarray float) (idc : ndarray Index)
    (w : World) (dims : list nat) (ncol : nat) :
  shape (self w) = "rectangular" ->
  ~ contains_nan A0 -> ~ contains_nan B0 -> ~ contains_nan_index idc ->
  nd_wf A0 ->
  nd_shape A0 = dims ++ [ncol] ->
  length dims = 1 \/ length dims = 2 ->
  length (nd_data idc) = length (nd_data A0) ->
  let s := self w in
  let nr := nd_size dims in
  let rows := map (fun p => c_ s + p / ncol) (seq 0 (length (nd_data A0))) in
  let entries := zip (zip (nd_data A0) rows) (nd_data idc) in
  let kept := List.filter (fun e => negb (PrimFloat.eqb e.1.1 0%float)) entries in
  add_constraints_to_least_squares A0 B0 idc w =
    (Ok tt,
     mkWorld
       (with_soft_store
          (A s ++ map (fun e => e.1.1) kept)
          (row s ++ map (fun e => e.1.2) kept)
          (col s ++ map snd kept)
          (B s ++ nd_data B0)
          (c_ s + nr) s)
       (logs w))
  /\ Forall (fun e => PrimFloat.eqb e.1.1 0%float = false) kept
  /\ Forall (fun e => c_ s <= e.1.2 < c_ s + nr) kept.
Proof.
  intros Hshape HA HB HI Hwf Hsh Hdims Hlen s nr rows entries kept.
  split; [| split].
  - exact (add_constraints_run A0 B0 idc w dims ncol Hshape HA HB HI Hwf Hsh
             Hdims Hlen).
  - exact (batch_triplets_nonzero (c_ s) ncol A0 idc).
  - apply (batch_triplets_rows (c_ s) ncol nr A0 idc).
    rewrite Hwf, Hsh. apply nd_size_app.
Qed.

(** ** Assembly *)

(** The invariant of the soft-constraint stores: the three triplet lists run
    in parallel, every row is below the running counter and every column is
    a region-local index. *)
Definition soft_wf (s : DiscreteInterpolator) : Prop :=
  length (row s) = length (A s)
  /\ length (col s) = length (A s)
  /\ Forall (fun r => r < c_ s) (row s)
  /\ Forall (fun cj => (0 <= index_cast cj < Z.of_nat (nx s))%Z) (col s).

(** The invariant of the equality stores. *)
Definition eq_wf (s : DiscreteInterpolator) : Prop :=
  length (eq_const_row s) = length (eq_const_C s)
  /\ length (eq_const_col s) = length (eq_const_C s)
  /\ Forall (fun r => r < eq_const_c_ s) (eq_const_row s)
  /\ Forall (fun cj => (0 <= cj < Z.of_nat (nx s))%Z) (eq_const_col s)
  /\ length (eq_const_d s) = eq_const_c_ s.

(** The accumulated system: both stores are well formed and there is one
    right-hand side per soft row. *)
Definition system_wf (s : DiscreteInterpolator) : Prop :=
  soft_wf s /\ eq_wf s /\ length (B s) = c_ s.

Lemma coo_check_true (data : list float) (rowv : list nat) (colv : list Z)
    (m n : nat) :
  length rowv = length data -> length colv = length data ->
  Forall (fun r => r < m) rowv ->
  Forall (fun cj => (0 <= cj < Z.of_nat n)%Z) colv ->
  coo_check data rowv colv (m, n) = true.
Proof.
  intros Hr Hc Hrow Hcol. unfold coo_check. simpl.
  rewrite Hr, Hc, Nat.eqb_refl. simpl.
  rewrite (proj2 (forallb_ltb_Forall _ _) Hrow). simpl.
  apply forallb_forall. intros cj Hin.
  rewrite Forall_forall in Hcol. specialize (Hcol cj (proj2 (list_elem_of_In _ _) Hin)).
  apply andb_true_iff. split; [apply Z.leb_le | apply Z.ltb_lt]; lia.
Qed.

(** The triplets of the two stores as [coo_matrix] receives them. *)
Definition soft_triplets (s : DiscreteInterpolator) : list (float * nat * Z) :=
  zip (zip (A s) (row s)) (map index_cast (col s)).

Definition eq_triplets (s : DiscreteInterpolator) : list (float * nat * Z) :=
  zip (zip (eq_const_C s) (eq_const_row s)) (eq_const_col s).

Lemma coo_matrix_soft (s : DiscreteInterpolator) :
  soft_wf s ->
  coo_matrix (A s) (row s) (map index_cast (col s)) (c_ s, nx s) =
  Ok (mkSp (c_ s, nx s) (coo_entry (soft_triplets s))).
Proof.
  intros (Hr & Hc & Hrow & Hcol). unfold coo_matrix.
  rewrite coo_check_true; try assumption; [reflexivity | | ].
  - rewrite length_map. exact Hc.
  - apply Forall_map. exact Hcol.
Qed.

Lemma coo_matrix_eq (s : DiscreteInterpolator) :
  eq_wf s ->
  coo_matrix (eq_const_C s) (eq_const_row s) (eq_const_col s) (eq_const_c_ s, nx s) =
  Ok (mkSp (eq_const_c_ s, nx s) (coo_entry (eq_triplets s))).
Proof.
  intros (Hr & Hc & Hrow & Hcol & _). unfold coo_matrix.
  rewrite coo_check_true; try assumption. reflexivity.
Qed.

Definition log_matrix_size (s : DiscreteInterpolator) : LogRecord :=
  mkLog ModuleLogger INFO "Interpolation matrix is %i x %i"
    [ArgInt (Z.of_nat (c_ s)); ArgInt (Z.of_nat (nx s))].

Definition log_rectangular : LogRecord :=
  mkLog ModuleLogger INFO
    "Using rectangular matrix, equality constraints are not used" [].

Definition log_equality_size (s : DiscreteInterpolator) : LogRecord :=
  mkLog ModuleLogger INFO "Equality block is %i x %i"
    [ArgInt (Z.of_nat (eq_const_c_ s)); ArgInt (Z.of_nat (nx s))].

Definition log_damping : LogRecord :=
  mkLog ModuleLogger INFO "Adding eps to matrix diagonal" [].

(** C5: with [square=False], [build_matrix] returns the [c_] by [nx] sparse
    matrix of the soft-constraint triplets and the accumulated [B], for either
    value of [damp].  It logs the matrix size and that equality constraints
    are not used, raises nothing, leaves the object as it is, and returns
    the same system whatever the equality stores hold. *)
Theorem build_matrix_rectangular (damp : bool) (w : World) :
  soft_wf (self w) ->
  let s := self w in
  let Am := mkSp (c_ s, nx s) (coo_entry (soft_triplets s)) in
  build_matrix false damp w =
    (Ok (Am, B s), mkWorld s (logs w ++ [log_matrix_size s] ++ [log_rectangular]))
  /\ forall Cv rowv colv dv cnt,
       (build_matrix false damp
          (mkWorld (with_eq_store Cv rowv colv dv cnt s) (logs w))).1 =
       Ok (Am, B s).
Proof.
  intros Hwf s Am. split.
  - unfold build_matrix, bind, get_self, logger, log_to, lift, ret. simpl.
    fold s. rewrite (coo_matrix_soft s Hwf). simpl.
    rewrite <- app_assoc. reflexivity.
  - intros Cv rowv colv dv cnt.
    unfold build_matrix, bind, get_self, logger, log_to, lift, ret. simpl.
    fold s. rewrite (coo_matrix_soft s Hwf). reflexivity.
Qed.

(** The rectangular matrix [A] and the equality block [C] of an interpolator. *)
Definition soft_matrix (s : DiscreteInterpolator) : spmatrix :=
  mkSp (c_ s, nx s) (coo_entry (soft_triplets s)).

Definition eq_matrix (s : DiscreteInterpolator) : spmatrix :=
  mkSp (eq_const_c_ s, nx s) (coo_entry (eq_triplets s)).

(** [A.T.dot(A)] and [A.T.dot(B)], entry by entry. *)
Definition AtA_entry (s : DiscreteInterpolator) (i j : nat) : option float :=
  sp_dot_entry (sp_T (soft_matrix s)) (soft_matrix s) i j.

Definition AtB (s : DiscreteInterpolator) : list float :=
  map (fun i =>
         fold_left
           (fun acc k =>
              match sp_entry (soft_matrix s) k i, B s !! k with
              | Some a, Some b => PrimFloat.add acc (PrimFloat.mul a b)
              | _, _ => acc
              end)
           (seq 0 (c_ s)) 0%float)
      (seq 0 (nx s)).

Lemma build_matrix_normal_equations (w : World) :
  system_wf (self w) ->
  let s := self w in
  sp_dot (sp_T (soft_matrix s)) (soft_matrix s) = Ok (mkSp (nx s, nx s) (AtA_entry s))
  /\ sp_dot_vec (sp_T (soft_matrix s)) (B s) = Ok (AtB s).
Proof.
  intros (_ & _ & HB) s. subst s. unfold sp_dot, sp_dot_vec. simpl.
  rewrite Nat.eqb_refl, HB, Nat.eqb_refl. split; reflexivity.
Qed.

(** C1: for an accumulated system with [k = eq_const_c_ > 0] equality rows,
    [build_matrix(square=True, damp)] returns a matrix of shape
    [(nx + k, nx + k)] and a right-hand side of length [nx + k], which is
    [A.T.dot(B)] followed by the equality targets [d].  Without damping the
    leading [nx] by [nx] block is [A.T.dot(A)] entry for entry, the block to
    its right is the transpose of the equality block [C], the block below it
    is [C], and the lower right [k] by [k] block is structurally zero. *)
Theorem build_matrix_square_equality (damp : bool) (w : World) :
  system_wf (self w) ->
  0 < eq_const_c_ (self w) ->
  let s := self w in
  let k := eq_const_c_ s in
  exists Mx : spmatrix,
    build_matrix true damp w =
      (Ok (Mx, AtB s ++ eq_const_d s),
       mkWorld s (logs w ++ [log_matrix_size s; log_equality_size s]
                         ++ (if damp then [log_damping] else [])))
    /\ sp_shape Mx = (nx s + k, nx s + k)
    /\ length (AtB s) = nx s /\ length (eq_const_d s) = k
    /\ (damp = false ->
        (forall i j, i < nx s -> j < nx s -> sp_entry Mx i j = AtA_entry s i j)
        /\ (forall i j, i < nx s -> j < k ->
              sp_entry Mx i (nx s + j) = sp_entry (eq_matrix s) j i)
        /\ (forall i j, i < k -> j < nx s ->
              sp_entry Mx (nx s + i) j = sp_entry (eq_matrix s) i j)
        /\ (forall i j, i < k -> j < k ->
              sp_entry Mx (nx s + i) (nx s + j) = None)).
Proof.
  intros Hwf Hk s k.
  destruct (build_matrix_normal_equations w Hwf) as [HAtA HAtB].
  destruct Hwf as (Hsoft & Heq & HB). fold s in HAtA, HAtB, Hsoft, Heq, HB.
  pose proof (coo_matrix_soft s Hsoft) as HA.
  pose proof (coo_matrix_eq s Heq) as HC.
  fold (soft_matrix s) in HA. fold (eq_matrix s) in HC.
  assert (Hlen : length (AtB s) = nx s).
  { unfold AtB. rewrite length_map, length_seq. reflexivity. }
  assert (Hd : length (eq_const_d s) = k)
    by exact (proj2 (proj2 (proj2 (proj2 Heq)))).
  destruct damp.
  - eexists. split; [| split; [| split; [exact Hlen | split; [exact Hd |]]]].
    + unfold build_matrix, bind, get_self, logger, log_to, lift, ret. simpl.
      fold s. rewrite HA. simpl. rewrite HAtA, HAtB.
      rewrite (proj2 (Nat.ltb_lt 0 (eq_const_c_ s)) Hk).
      rewrite HC. unfold bmat, sp_add. simpl. rewrite !Nat.eqb_refl. simpl.
      rewrite !Nat.eqb_refl. simpl.
      rewrite <- !app_assoc. reflexivity.
    + reflexivity.
    + discriminate.
  - eexists. split; [| split; [| split; [exact Hlen | split; [exact Hd |]]]].
    + unfold build_matrix, bind, get_self, logger, log_to, lift, ret. simpl.
      fold s. rewrite HA. simpl. rewrite HAtA, HAtB.
      rewrite (proj2 (Nat.ltb_lt 0 (eq_const_c_ s)) Hk).
      rewrite HC. unfold bmat. simpl. rewrite !Nat.eqb_refl. simpl.
      rewrite <- !app_assoc. reflexivity.
    + reflexivity.
    + intros _. split; [| split; [| split]]; intros i j Hi Hj; simpl.
      * rewrite (proj2 (Nat.ltb_lt i (nx s)) Hi), (proj2 (Nat.ltb_lt j (nx s)) Hj).
        reflexivity.
      * rewrite (proj2 (Nat.ltb_lt i (nx s)) Hi).
        rewrite (proj2 (Nat.ltb_ge (nx s + j) (nx s))) by lia.
        replace (nx s + j - nx s) with j by lia. reflexivity.
      * rewrite (proj2 (Nat.ltb_ge (nx s + i) (nx s))) by lia.
        rewrite (proj2 (Nat.ltb_lt j (nx s)) Hj).
        replace (nx s + i - nx s) with i by lia. reflexivity.
      * rewrite (proj2 (Nat.ltb_ge (nx s + i) (nx s))) by lia.
        rewrite (proj2 (Nat.ltb_ge (nx s + j) (nx s))) by lia.
        reflexivity.
Qed.

(** ** Running the solver and publishing the field *)

Lemma run_bind {X Y : Type} (m : M X) (f : X -> M Y) (w w' : World) (x : X) :
  m w = (Ok x, w') -> bind m f w = f x w'.
Proof. intros H. unfold bind. rewrite H. reflexivity. Qed.

Lemma bind_ret_l {X Y : Type} (x : X) (f : X -> M Y) : bind (ret x) f = f x.
Proof. reflexivity. Qed.

(** Closes a goal [exists l, _ = (_, mkWorld _ (l0 ++ l))] once both sides
    are computed. *)
Ltac close_logs :=
  first [ exists []; rewrite app_nil_r; reflexivity
        | eexists; rewrite <- ?app_assoc; reflexivity ].

(** [build_matrix] reads the constraint stores only: it leaves the object
    alone, appends to the log, and does not look at [self.c]. *)
Lemma build_matrix_frame (square damp : bool) (s : DiscreteInterpolator)
    (l : list LogRecord) (v : option (list float)) :
  exists l',
    build_matrix square damp (mkWorld (set_c v s) l) =
    ((build_matrix square damp (mkWorld s l)).1, mkWorld (set_c v s) (l ++ l')).
Proof.
  unfold build_matrix, bind, get_self, logger, log_to, lift, ret. simpl.
  destruct (coo_matrix (A s) (row s) (map index_cast (col s)) (c_ s, nx s));
    [| close_logs].
  destruct square; simpl; [| close_logs].
  destruct (sp_dot _ _); [| close_logs].
  destruct (sp_dot_vec _ _); [| close_logs].
  destruct (0 <? eq_const_c_ s); simpl.
  - destruct (coo_matrix (eq_const_C s) _ _ _); [| close_logs].
    destruct (bmat _ _ _); [| close_logs].
    destruct damp; simpl; [| close_logs].
    destruct (sp_add _ _); close_logs.
  - destruct damp; simpl; [| close_logs].
    destruct (sp_add _ _); close_logs.
Qed.

(** The preconditioner and the arguments [_solve_cg] hands to scipy. *)
Definition cg_preconditioner (kw : Kwargs) (Am : spmatrix) : result (option PyObject) :=
  match kw_precon kw with
  | Some precon => result_bind (precon Am) (fun m => Ok (Some m))
  | None => Ok None
  end.

Definition cg_args (kw : Kwargs) (pre : option PyObject) : CgArgs :=
  mkCgArgs (default tol_default (kw_tol kw)) (kw_maxiter kw) (kw_x0 kw)
    (kw_atol kw) (kw_callback kw) pre.

Definition lsqr_args (kw : Kwargs) : LsqrArgs :=
  mkLsqrArgs (kw_iter_lim kw) (kw_damp kw) (kw_atol kw) (kw_btol kw)
    (kw_show kw) (kw_conlim kw).

(** [backend_returns env kw Am Bv name x]: for the solver [name], the library
    behind it is available and returns the vector [x] on the system
    [(Am, Bv)].  For pyamg this is also the case when pyamg is missing and the
    conjugate gradient called in its place returns [x]. *)
Inductive backend_returns (env : Backends) (kw : Kwargs) (Am : spmatrix)
    (Bv : list float) : string -> list float -> Prop :=
| returns_cg pre x :
    cg_preconditioner kw Am = Ok pre ->
    sla_cg env Am Bv (cg_args kw pre) = Ok x ->
    backend_returns env kw Am Bv "cg" x
| returns_chol cholesky x :
    sksparse_cholesky env = Some cholesky ->
    cholesky Am Bv = Ok x ->
    backend_returns env kw Am Bv "chol" x
| returns_lu x :
    sla_splu_solve env Am Bv = Ok x ->
    backend_returns env kw Am Bv "lu" x
| returns_pyamg solve x :
    pyamg_solve env = Some solve ->
    solve Am Bv = Ok x ->
    backend_returns env kw Am Bv "pyamg" x
| returns_pyamg_fallback x :
    pyamg_solve env = None
    \/ (exists solve, pyamg_solve env = Some solve /\ solve Am Bv = Raise ImportError) ->
    sla_cg env Am Bv (cg_args no_kwargs None) = Ok x ->
    backend_returns env kw Am Bv "pyamg" x
| returns_lsqr x :
    sla_lsqr env Am Bv (lsqr_args kw) = Ok x ->
    backend_returns env kw Am Bv "lsqr" x
| returns_external ext x :
    kw_external kw = Some ext ->
    ext Am Bv = Ok x ->
    backend_returns env kw Am Bv "external" x.

Lemma solve_cg_run (env : Backends) (Am : spmatrix) (Bv : list float) (kw : Kwargs)
    (s : DiscreteInterpolator) (l : list LogRecord) (pre : option PyObject)
    (x : list float) :
  cg_preconditioner kw Am = Ok pre ->
  sla_cg env Am Bv (cg_args kw pre) = Ok x ->
  exists l',
    _solve_cg env Am Bv kw (mkWorld s l) = (Ok (take (nx s) x), mkWorld s (l ++ l')).
Proof.
  unfold cg_preconditioner, cg_args, _solve_cg. intros Hpre Hcg.
  unfold bind, get_self, logger, log_to, lift, ret.
  destruct (kw_maxiter kw), (kw_x0 kw), (kw_tol kw), (kw_atol kw); simpl in *;
    (destruct (kw_precon kw) as [precon |];
     [ destruct (precon Am) as [m | e]; simpl in Hpre; [| discriminate] |];
     injection Hpre as <-; simpl; rewrite Hcg; close_logs).
Qed.

Lemma solve_lsqr_run (env : Backends) (Am : spmatrix) (Bv : list float) (kw : Kwargs)
    (s : DiscreteInterpolator) (l : list LogRecord) :
  exists l',
    _solve_lsqr env Am Bv kw (mkWorld s l) =
    (sla_lsqr env Am Bv (lsqr_args kw), mkWorld s (l ++ l')).
Proof.
  unfold _solve_lsqr, lsqr_args, bind, get_self, logger, log_to, lift, ret.
  destruct (kw_iter_lim kw), (kw_damp kw), (kw_atol kw), (kw_btol kw); simpl;
    close_logs.
Qed.

(** [self.c[self.region] = x] once the array, the region and the lengths
    match. *)
Lemma assign_c_region_run (s : DiscreteInterpolator)
    (l : list LogRecord) (cv : list float) (sel : list nat) (x : list float) :
  c s = Some cv ->
  region_indices (region s) (length cv) = Ok sel ->
  length x = length sel ->
  assign_c_region (SolVector x) (mkWorld s l) =
  (Ok tt, mkWorld (set_c (Some (scatter cv sel x)) s) l).
Proof.
  intros Hc Hsel Hlen.
  unfold assign_c_region, bind, get_self, lift, modify. simpl.
  rewrite Hc, Hsel. unfold np_setitem.
  rewrite (proj2 (forallb_ltb_Forall _ _) (region_indices_lt _ _ _ Hsel)).
  rewrite Hlen, Nat.eqb_refl. reflexivity.
Qed.

Lemma run_solver_returns (env : Backends) (kw : Kwargs) (Am : spmatrix)
    (Bv : list float) (name : string) (x : list float)
    (s : DiscreteInterpolator) (l : list LogRecord) (cv : list float)
    (sel : list nat) :
  c s = Some cv ->
  region_indices (region s) (length cv) = Ok sel ->
  nx s = length sel ->
  backend_returns env kw Am Bv name x ->
  nx s <= length x ->
  (name = "lsqr" -> length x = nx s) ->
  exists l',
    run_solver env name kw Am Bv (mkWorld s l) =
    (Ok tt, mkWorld (set_c (Some (scatter cv sel (take (nx s) x))) s) (l ++ l')).
Proof.
  intros Hc Hsel Hnx Hret Hlen Hlsqr.
  assert (Htake : length (take (nx s) x) = length sel).
  { rewrite length_take. lia. }
  destruct Hret as [pre x Hpre Hcg | chol x Hchol Hx | x Hx | solve x Hamg Hx
                   | x Hamg Hcg | x Hx | ext x Hext Hx];
    unfold run_solver, when; simpl String.eqb; cbv iota.
  - destruct (solve_cg_run env Am Bv kw s (l ++ [mkLog ModuleLogger INFO "Solving using conjugate gradient" []]) pre x Hpre Hcg) as [l' Hrun].
    unfold bind at 1 2 3. unfold logger at 1, log_to at 1. cbn [self logs].
    rewrite Hrun.
    rewrite (assign_c_region_run _ _ _ _ _ Hc Hsel Htake).
    unfold bind, ret. close_logs.
  - unfold _solve_chol, try_except_ImportError.
    unfold bind, ret, get_self, lift.
    cbn [self logs]. rewrite Hchol, Hx.
    rewrite (assign_c_region_run _ _ _ _ _ Hc Hsel Htake). close_logs.
  - unfold _solve_lu. unfold bind, ret, get_self, lift, logger, log_to.
    cbn [self logs]. rewrite Hx.
    rewrite (assign_c_region_run _ _ _ _ _ Hc Hsel Htake). close_logs.
  - unfold _solve_pyamg, try_except_ImportError.
    unfold bind, ret, get_self, lift, logger, log_to.
    cbn [self logs]. rewrite Hamg, Hx.
    rewrite (assign_c_region_run _ _ _ _ _ Hc Hsel Htake). close_logs.
  - rewrite !bind_ret_l.
    destruct (solve_cg_run env Am Bv no_kwargs s
                ((l ++ [mkLog ModuleLogger INFO "Solving with pyamg solve" []])
                 ++ [mkLog ModuleLogger WARNING "Pyamg not installed using cg instead" []])
                None x eq_refl Hcg) as [l' Hrun].
    assert (Hfail : _solve_pyamg env Am Bv
                      (mkWorld s (l ++ [mkLog ModuleLogger INFO "Solving with pyamg solve" []])) =
                    (Raise ImportError,
                     mkWorld s (l ++ [mkLog ModuleLogger INFO "Solving with pyamg solve" []]))).
    { unfold _solve_pyamg, bind, get_self, lift. cbn [self logs].
      destruct Hamg as [-> | (solve & -> & ->)]; reflexivity. }
    unfold bind at 1. unfold try_except_ImportError.
    unfold bind at 1 2. unfold logger at 1, log_to at 1. cbn [self logs].
    rewrite Hfail.
    unfold bind at 1 2. unfold logger at 1, log_to at 1. cbn [self logs].
    rewrite Hrun.
    rewrite (assign_c_region_run _ _ _ _ _ Hc Hsel Htake).
    unfold bind, ret. close_logs.
  - rewrite !bind_ret_l.
    destruct (solve_lsqr_run env Am Bv kw s l) as [l' Hrun].
    specialize (Hlsqr eq_refl).
    rewrite (take_ge x (nx s)) in * by lia.
    unfold bind at 1 2.
    rewrite Hrun, Hx.
    rewrite (assign_c_region_run _ _ _ _ _ Hc Hsel Htake).
    unfold ret. close_logs.
  - unfold bind, ret, get_self, lift, logger, log_to.
    cbn [self logs]. rewrite Hext, Hx.
    rewrite (assign_c_region_run _ _ _ _ _ Hc Hsel Htake). close_logs.
Qed.

(** The object after [array] was stored on the support under the property
    name. *)
Definition publish (cv : list float) (s : DiscreteInterpolator) : DiscreteInterpolator :=
  set_support
    (mkSupport (n_nodes (support s)) (nodes (support s))
       (<[propertyname s := cv]> (properties (support s)))) s.

Lemma publish_solution_run (s : DiscreteInterpolator) (l : list LogRecord)
    (cv : list float) (sel : list nat) :
  c s = Some cv ->
  region_indices (region s) (length cv) = Ok sel ->
  exists l', publish_solution (mkWorld s l) = (Ok tt, mkWorld (publish cv s) (l ++ l')).
Proof.
  intros Hc Hsel.
  destruct (np_getitem_Forall2 cv sel (region_indices_lt _ _ _ Hsel)) as (creg & Hget & _).
  unfold publish_solution, bind, get_self, lift, modify, when, logger, log_to, ret.
  cbn [self logs]. rewrite Hc, Hsel, Hget.
  destruct (forallb (fun x => PrimFloat.eqb x nan) cv),
    (forallb (fun x => PrimFloat.eqb x 0%float) creg); cbn [self logs]; close_logs.
Qed.

(** The system [_solve] assembles for a solver: rectangular for lsqr, square
    (damped as the keyword arguments say) for every other name. *)
Definition solve_system (name : string) (kw : Kwargs) (w : World)
  : result (spmatrix * list float) :=
  if String.eqb name "lsqr"
  then (build_matrix false true w).1
  else (build_matrix true (damp_flag kw) w).1.

(** The array [_solve] starts from: NaN at every node of the support. *)
Definition nan_field (s : DiscreteInterpolator) : list float :=
  repeat nan (n_nodes (support s)).

(** [_solve] when the system can be assembled and the back end returns [x]:
    the call returns, and array [c], NaN everywhere but at the nodes of the
    region, where it holds the first [nx] entries of [x], is stored on the
    object and published on the support. *)
Lemma solve_run (env : Backends) (name : string) (kw : Kwargs) (w : World)
    (sel : list nat) (Am : spmatrix) (Bv x : list float) :
  region_ok (self w) sel ->
  solve_system name kw w = Ok (Am, Bv) ->
  backend_returns env kw Am Bv name x ->
  nx (self w) <= length x ->
  (name = "lsqr" -> length x = nx (self w)) ->
  let s := self w in
  let cv := scatter (nan_field s) sel (take (nx s) x) in
  exists l,
    _solve env name kw w =
    (Ok tt, mkWorld (publish cv (set_c (Some cv) s)) (logs w ++ l)).
Proof.
  intros (Hsel & Hnd & Hnx) Hsys Hret Hlen Hlsqr s cv. subst s.
  destruct w as [s l]. cbn [self logs] in *.
  unfold _solve. unfold bind at 1 2. unfold get_self at 1, modify at 1.
  cbn [self logs].
  set (s0 := set_c (Some (nan_field s)) s).
  assert (Hbuild : exists l',
            (if String.eqb name "lsqr" then build_matrix false true
             else build_matrix true (damp_flag kw)) (mkWorld s0 l) =
            (Ok (Am, Bv), mkWorld s0 (l ++ l'))).
  { unfold solve_system in Hsys. subst s0.
    destruct (String.eqb name "lsqr").
    - destruct (build_matrix_frame false true s l (Some (nan_field s))) as [l' ->].
      rewrite Hsys. exists l'. reflexivity.
    - destruct (build_matrix_frame true (damp_flag kw) s l (Some (nan_field s)))
        as [l' ->].
      rewrite Hsys. exists l'. reflexivity. }
  destruct Hbuild as [l1 Hbuild].
  fold (nan_field s). fold s0.
  rewrite (run_bind _ _ _ _ _ Hbuild). cbn [fst snd].
  assert (Hc0 : c s0 = Some (nan_field s)) by reflexivity.
  assert (Hsel0 : region_indices (region s0) (length (nan_field s)) = Ok sel).
  { unfold nan_field. rewrite repeat_length. exact Hsel. }
  destruct (run_solver_returns env kw Am Bv name x s0 (l ++ l1) _ sel
              Hc0 Hsel0 Hnx Hret Hlen Hlsqr) as [l2 Hrun].
  rewrite (run_bind _ _ _ _ _ Hrun).
  change (nx s0) with (nx s).
  set (cv1 := scatter (nan_field s) sel (take (nx s) x)).
  destruct (publish_solution_run (set_c (Some cv1) s0) ((l ++ l1) ++ l2) cv1 sel
              eq_refl) as [l3 Hpub].
  { unfold cv1. rewrite length_scatter. exact Hsel0. }
  rewrite Hpub. exists (l1 ++ l2 ++ l3). rewrite !app_assoc. reflexivity.
Qed.

Lemma nan_field_scatter_length (s : DiscreteInterpolator) (sel : list nat)
    (x : list float) :
  length (scatter (nan_field s) sel x) = n_nodes (support s).
Proof. unfold nan_field. rewrite length_scatter, repeat_length. reflexivity. Qed.

Lemma nan_field_scatter_outside (s : DiscreteInterpolator) (sel : list nat)
    (x : list float) (i : nat) :
  i < n_nodes (support s) -> i ∉ sel ->
  scatter (nan_field s) sel x !! i = Some nan.
Proof.
  intros Hi Hni. rewrite scatter_lookup_notin by assumption.
  unfold nan_field.
  destruct (lookup_lt_is_Some_2 (repeat nan (n_nodes (support s))) i) as [y Hy].
  - rewrite repeat_length. exact Hi.
  - rewrite Hy. f_equal. eapply lookup_repeat. exact Hy.
Qed.

Lemma nan_field_scatter_inside (s : DiscreteInterpolator) (sel : list nat)
    (x : list float) (p i : nat) (n : nat) :
  region_ok s sel -> n = length sel -> n <= length x ->
  sel !! p = Some i ->
  scatter (nan_field s) sel (take n x) !! i = x !! p.
Proof.
  intros (Hsel & Hnd & _) -> Hlen Hp.
  assert (Hpl : p < length sel) by (eapply lookup_lt_Some; exact Hp).
  destruct (lookup_lt_is_Some_2 x p) as [v Hv]; [lia |].
  rewrite Hv. eapply scatter_lookup_in; [exact Hnd | exact Hp | |].
  - rewrite lookup_take_lt by exact Hpl. exact Hv.
  - unfold nan_field. rewrite repeat_length.
    pose proof (region_indices_lt _ _ _ Hsel) as Hlt.
    rewrite Forall_forall in Hlt. apply Hlt.
    eapply list_elem_of_lookup_2. exact Hp.
Qed.

(** C7: a call of [_solve] whose system is assembled and whose back end
    returns a vector [x] of at least [nx] entries returns normally.  The array
    it stores as [self.c] and publishes on the support under the property name
    has one entry per support node; at the [p]-th node of the region it holds
    [x[p]], the first [nx] entries of the solver output (the Lagrange
    multipliers behind them are dropped), and at every node outside the
    region it is still NaN.  (lsqr's output is assigned unsliced, so it has to
    have [nx] entries.) *)
Theorem solve_scatters_and_publishes (env : Backends) (name : string) (kw : Kwargs)
    (w : World) (sel : list nat) (Am : spmatrix) (Bv x : list float) :
  region_ok (self w) sel ->
  solve_system name kw w = Ok (Am, Bv) ->
  backend_returns env kw Am Bv name x ->
  nx (self w) <= length x ->
  (name = "lsqr" -> length x = nx (self w)) ->
  exists (w' : World) (cv : list float),
    _solve env name kw w = (Ok tt, w')
    /\ c (self w') = Some cv
    /\ properties (support (self w')) !! propertyname (self w) = Some cv
    /\ length cv = n_nodes (support (self w))
    /\ (forall p i, sel !! p = Some i -> cv !! i = x !! p)
    /\ (forall i, i < n_nodes (support (self w)) -> i ∉ sel -> cv !! i = Some nan).
Proof.
  intros Hreg Hsys Hret Hlen Hlsqr.
  destruct (solve_run env name kw w sel Am Bv x Hreg Hsys Hret Hlen Hlsqr) as [l Hrun].
  eexists. eexists. split; [exact Hrun |].
  cbn [self logs]. split; [reflexivity |]. split.
  - unfold publish. cbn. apply lookup_insert_eq.
  - split; [apply nan_field_scatter_length |]. split.
    + intros p i Hp.
      apply nan_field_scatter_inside; try assumption. apply Hreg.
    + intros i Hi Hni. apply nan_field_scatter_outside; assumption.
Qed.

(** A well-formed accumulated system can always be assembled. *)
Lemma build_matrix_ok (square damp : bool) (w : World) :
  system_wf (self w) ->
  exists sys, (build_matrix square damp w).1 = Ok sys.
Proof.
  intros Hwf.
  destruct (build_matrix_normal_equations w Hwf) as [HAtA HAtB].
  destruct Hwf as (Hsoft & Heq & HB).
  pose proof (coo_matrix_soft _ Hsoft) as HA.
  pose proof (coo_matrix_eq _ Heq) as HC.
  fold (soft_matrix (self w)) in HA.
  unfold build_matrix, bind, get_self, logger, log_to, lift, ret.
  cbn [self logs]. rewrite HA.
  destruct square; cbn [negb]; [| eexists; reflexivity].
  rewrite HAtA, HAtB.
  destruct (0 <? eq_const_c_ (self w)).
  - rewrite HC. unfold bmat. cbn [sp_shape sp_T fst snd].
    rewrite !Nat.eqb_refl. cbn [andb].
    destruct damp; [| eexists; reflexivity].
    unfold sp_add. cbn [sp_shape eye sp_scale fst snd].
    rewrite !Nat.eqb_refl. eexists. reflexivity.
  - destruct damp; [| eexists; reflexivity].
    unfold sp_add. cbn [sp_shape eye sp_scale fst snd].
    rewrite !Nat.eqb_refl. eexists. reflexivity.
Qed.

(** ** Solver names outside the supported set *)

Definition supported_solvers : list string :=
  ["cg"; "chol"; "lu"; "lsqr"; "pyamg"; "external"].

Lemma run_solver_unknown (env : Backends) (name : string) (kw : Kwargs)
    (Am : spmatrix) (Bv : list float) :
  name ∉ supported_solvers ->
  run_solver env name kw Am Bv = ret tt.
Proof.
  intros Hn. unfold run_solver.
  assert (H : forall n', n' ∈ supported_solvers -> String.eqb name n' = false).
  { intros n' Hin. apply String.eqb_neq. intros ->. contradiction. }
  unfold supported_solvers in H.
  rewrite !H by (repeat first [apply list_elem_of_here | apply list_elem_of_further]).
  reflexivity.
Qed.

(** C9 (as the code has it): a solver name outside the supported set raises
    no error.  For a well-formed accumulated system and a valid region, the
    square system is assembled, no back end is run, and the call returns
    normally after storing and publishing the array that is NaN at every
    node. *)
Theorem solve_unknown_solver_returns (env : Backends) (name : string) (kw : Kwargs)
    (w : World) (sel : list nat) :
  name ∉ supported_solvers ->
  region_ok (self w) sel ->
  system_wf (self w) ->
  let s := self w in
  exists l,
    _solve env name kw w =
    (Ok tt,
     mkWorld (publish (nan_field s) (set_c (Some (nan_field s)) s)) (logs w ++ l)).
Proof.
  intros Hn (Hsel & _ & _) Hwf s. subst s.
  assert (Hlsqr : String.eqb name "lsqr" = false).
  { apply String.eqb_neq. intros ->. apply Hn.
    unfold supported_solvers.
    repeat first [apply list_elem_of_here | apply list_elem_of_further]. }
  destruct (build_matrix_ok true (damp_flag kw) w Hwf) as [sys Hsys].
  destruct w as [s l]. cbn [self logs] in *.
  unfold _solve. unfold bind at 1 2. unfold get_self at 1, modify at 1.
  cbn [self logs]. rewrite Hlsqr.
  destruct (build_matrix_frame true (damp_flag kw) s l (Some (nan_field s)))
    as [l1 Hbuild].
  rewrite Hsys in Hbuild. fold (nan_field s).
  rewrite (run_bind _ _ _ _ _ Hbuild).
  rewrite (run_solver_unknown env name kw _ _ Hn), bind_ret_l.
  destruct (publish_solution_run (set_c (Some (nan_field s)) s) (l ++ l1)
              (nan_field s) sel eq_refl) as [l2 Hpub].
  { unfold nan_field. rewrite repeat_length. exact Hsel. }
  rewrite Hpub. exists (l1 ++ l2). rewrite app_assoc. reflexivity.
Qed.

(** ** Cholesky without scikit-sparse *)

Lemma scatter_repeat_lookup {X : Type} (sel : list nat) (a : list X) (v : X)
    (n i : nat) :
  i ∈ sel -> i < length a -> length sel <= n ->
  scatter a sel (repeat v n) !! i = Some v.
Proof.
  unfold scatter. revert a n.
  induction sel as [|j sel IH]; intros a n Hin Hlt Hn; [inversion Hin |].
  destruct n as [|n]; [simpl in Hn; lia |].
  cbn [repeat zip zip_with fold_left fst snd].
  destruct (decide (i ∈ sel)) as [Hin' | Hni].
  - apply IH; [exact Hin' | rewrite length_insert; exact Hlt | simpl in Hn; lia].
  - apply elem_of_cons in Hin as [-> | Hin]; [| contradiction].
    change (scatter (<[j:=v]> a) sel (repeat v n) !! j = Some v).
    rewrite scatter_lookup_notin by exact Hni.
    apply list_lookup_insert_eq. exact Hlt.
Qed.

Definition log_chol_missing : LogRecord :=
  mkLog ModuleLogger WARNING "Scikit Sparse not installed try using cg instead" [].

Lemma run_solver_chol_unavailable (env : Backends) (kw : Kwargs) (Am : spmatrix)
    (Bv : list float) (s : DiscreteInterpolator) (l : list LogRecord)
    (cv : list float) (sel : list nat) :
  sksparse_cholesky env = None ->
  c s = Some cv ->
  region_indices (region s) (length cv) = Ok sel ->
  run_solver env "chol" kw Am Bv (mkWorld s l) =
  (Ok tt,
   mkWorld (set_c (Some (scatter cv sel (repeat 0%float (length sel)))) s)
     (l ++ [log_chol_missing])).
Proof.
  intros Hchol Hc Hsel.
  unfold run_solver, when; simpl String.eqb; cbv iota.
  rewrite !bind_ret_l.
  unfold _solve_chol, try_except_ImportError.
  unfold bind, ret, get_self, lift, logger, log_to. cbn [self logs].
  rewrite Hchol. cbn [self logs].
  unfold assign_c_region, bind, get_self, lift, modify. cbn [self logs].
  rewrite Hc, Hsel. unfold np_setitem_scalar.
  rewrite (proj2 (forallb_ltb_Forall _ _) (region_indices_lt _ _ _ Hsel)).
  reflexivity.
Qed.

(** C6 (what the code does): when scikit-sparse is missing, [_solve("chol")]
    returns normally, logs the warning of [_solve_chol], and stores the
    [False] that [_solve_chol] returned into the region: the published field
    is 0.0 at every node of the region.  The conjugate-gradient back end is
    never consulted, so the field does not depend on it. *)
Theorem solve_chol_unavailable_zero_field (env : Backends) (kw : Kwargs)
    (w : World) (sel : list nat) :
  sksparse_cholesky env = None ->
  region_ok (self w) sel ->
  system_wf (self w) ->
  exists (w' : World) (cv : list float),
    _solve env "chol" kw w = (Ok tt, w')
    /\ properties (support (self w')) !! propertyname (self w) = Some cv
    /\ (forall i, i ∈ sel -> cv !! i = Some 0%float)
    /\ log_chol_missing ∈ logs w'.
Proof.
  intros Hchol (Hsel & _ & _) Hwf.
  destruct (build_matrix_ok true (damp_flag kw) w Hwf) as [sys Hsys].
  destruct w as [s l]. cbn [self logs] in *.
  unfold _solve. unfold bind at 1 2. unfold get_self at 1, modify at 1.
  cbn [self logs]. simpl String.eqb. cbv iota.
  destruct (build_matrix_frame true (damp_flag kw) s l (Some (nan_field s)))
    as [l1 Hbuild].
  rewrite Hsys in Hbuild. fold (nan_field s).
  rewrite (run_bind _ _ _ _ _ Hbuild).
  assert (Hsel0 : region_indices (region (set_c (Some (nan_field s)) s))
                    (length (nan_field s)) = Ok sel).
  { unfold nan_field. rewrite repeat_length. exact Hsel. }
  rewrite (run_bind _ _ _ _ _
             (run_solver_chol_unavailable env kw sys.1 sys.2
                (set_c (Some (nan_field s)) s) (l ++ l1) (nan_field s) sel
                Hchol eq_refl Hsel0)).
  set (cv := scatter (nan_field s) sel (repeat 0%float (length sel))).
  destruct (publish_solution_run
              (set_c (Some cv) (set_c (Some (nan_field s)) s))
              ((l ++ l1) ++ [log_chol_missing]) cv sel eq_refl) as [l2 Hpub].
  { unfold cv. rewrite length_scatter. exact Hsel0. }
  rewrite Hpub. eexists. exists cv. split; [reflexivity |].
  cbn [self logs]. split; [| split].
  - unfold publish. cbn. apply lookup_insert_eq.
  - intros i Hi. apply scatter_repeat_lookup; [exact Hi | | lia].
    unfold nan_field. rewrite repeat_length.
    pose proof (region_indices_lt _ _ _ Hsel) as Hlt.
    rewrite Forall_forall in Hlt. apply Hlt, Hi.
  - apply elem_of_app. left. apply elem_of_app. right. apply list_elem_of_here.
Qed.

(** ** Solving with no constraints *)

(** The accumulator as [__init__] and [reset] leave it on a rectangular-shape
    interpolator: no soft rows, no equality rows. *)
Definition empty_accumulator (s : DiscreteInterpolator) : Prop :=
  A s = [] /\ row s = [] /\ col s = [] /\ B s = [] /\ c_ s = 0
  /\ eq_const_C s = [] /\ eq_const_row s = [] /\ eq_const_col s = []
  /\ eq_const_d s = [] /\ eq_const_c_ s = 0.

Lemma empty_accumulator_wf (s : DiscreteInterpolator) :
  empty_accumulator s -> system_wf s.
Proof.
  intros (HA & Hr & Hc & HB & Hn & HC & Her & Hec & Hd & Hk).
  unfold system_wf, soft_wf, eq_wf.
  rewrite HA, Hr, Hc, HB, Hn, HC, Her, Hec, Hd, Hk.
  repeat split; apply Forall_nil_2.
Qed.

Lemma empty_system (name : string) (kw : Kwargs) (w : World) :
  empty_accumulator (self w) ->
  let s := self w in
  let square := negb (String.eqb name "lsqr") in
  exists Am Bv,
    solve_system name kw w = Ok (Am, Bv)
    /\ sp_shape Am = (if square then nx s else 0, nx s)
    /\ Bv = (if square then repeat 0%float (nx s) else [])
    /\ (forall i j,
          sp_entry Am i j =
          if square && damp_flag kw && (i =? j) then Some eps else None).
Proof.
  intros Hempty s square. subst s square.
  destruct w as [s l]. cbn [self] in *.
  destruct s. unfold empty_accumulator in Hempty. cbn in Hempty.
  destruct Hempty as (-> & -> & -> & -> & -> & -> & -> & -> & -> & ->).
  unfold solve_system, build_matrix, bind, get_self, logger, log_to, lift, ret.
  cbn [self logs A row col B c_ nx eq_const_C eq_const_row eq_const_col
       eq_const_d eq_const_c_ map].
  destruct (String.eqb name "lsqr"); cbn [negb andb].
  - eexists. eexists. split; [reflexivity |]. repeat split.
  - unfold sp_dot, sp_dot_vec, coo_matrix. cbn.
    assert (Hz : map (fun _ : nat => 0%float) (seq 0 nx0) = repeat 0%float nx0).
    { apply map_seq_const. reflexivity. }
    destruct (damp_flag kw); cbn.
    + unfold sp_add. cbn. rewrite !Nat.eqb_refl. cbn.
      eexists. eexists. split; [reflexivity |].
      split; [reflexivity |]. split; [exact Hz |].
      intros i j. cbn. destruct (i =? j); reflexivity.
    + eexists. eexists. split; [reflexivity |].
      split; [reflexivity |]. split; [exact Hz |].
      intros i j. reflexivity.
Qed.

(** C8 (as the code has it): on an interpolator with a valid region whose
    accumulator is empty (no triplet in [A], [row], [col], an empty
    right-hand side [B], [c_ = 0], empty equality stores and
    [eq_const_c_ = 0]: the state [reset] leaves), [_solve] still assembles a
    system and runs the selected back end on it.  The system stores nothing
    but [eps] on the diagonal when damped; it is [nx] by [nx] with an all-zero
    right-hand side of length [nx] (for lsqr: 0 by [nx] with an empty
    right-hand side).  When the back end returns a vector [x] of at least [nx]
    entries (exactly [nx] for lsqr) the call does not raise, and the published
    field holds [x[p]] at the [p]-th node of the region; NaN remains only
    outside the region. *)
Theorem solve_empty_accumulator (env : Backends) (name : string) (kw : Kwargs)
    (w : World) (sel : list nat) :
  empty_accumulator (self w) ->
  region_ok (self w) sel ->
  let s := self w in
  let square := negb (String.eqb name "lsqr") in
  exists Am Bv,
    solve_system name kw w = Ok (Am, Bv)
    /\ sp_shape Am = (if square then nx s else 0, nx s)
    /\ Bv = (if square then repeat 0%float (nx s) else [])
    /\ (forall i j,
          sp_entry Am i j =
          if square && damp_flag kw && (i =? j) then Some eps else None)
    /\ (forall x,
          backend_returns env kw Am Bv name x ->
          nx s <= length x ->
          (name = "lsqr" -> length x = nx s) ->
          exists (w' : World) (cv : list float),
            _solve env name kw w = (Ok tt, w')
            /\ properties (support (self w')) !! propertyname s = Some cv
            /\ (forall p i, sel !! p = Some i -> cv !! i = x !! p)
            /\ (forall i, i < n_nodes (support s) -> i ∉ sel -> cv !! i = Some nan)).
Proof.
  intros Hempty Hreg s square.
  destruct (empty_system name kw w Hempty) as (Am & Bv & Hsys & Hshape & HBv & Hentry).
  exists Am, Bv. repeat (split; [assumption |]).
  intros x Hret Hlen Hlsqr.
  destruct (solve_run env name kw w sel Am Bv x Hreg Hsys Hret Hlen Hlsqr) as [l Hrun].
  eexists. eexists. split; [exact Hrun |].
  cbn [self logs]. split; [| split].
  - unfold publish. cbn. apply lookup_insert_eq.
  - intros p i Hp. apply nan_field_scatter_inside; try assumption. apply Hreg.
  - intros i Hi Hni. apply nan_field_scatter_outside; assumption.
Qed.

(** ** Damping and the pyamg fallback *)

(** With [damp=True] the square system is the undamped one with [eps] added
    on the whole diagonal, the rows of the Lagrange multipliers included; the
    right-hand side is the same. *)
Lemma build_matrix_damped (w : World) :
  system_wf (self w) ->
  exists (Mu Md : spmatrix) (rhs : list float),
    (build_matrix true false w).1 = Ok (Mu, rhs)
    /\ (build_matrix true true w).1 = Ok (Md, rhs)
    /\ sp_shape Md = sp_shape Mu
    /\ (forall i j,
          sp_entry Md i j =
          if i =? j
          then Some (match sp_entry Mu i j with
                     | Some a => PrimFloat.add a eps
                     | None => eps
                     end)
          else sp_entry Mu i j).
Proof.
  intros Hwf.
  destruct (build_matrix_normal_equations w Hwf) as [HAtA HAtB].
  destruct Hwf as (Hsoft & Heq & HB).
  pose proof (coo_matrix_soft _ Hsoft) as HA.
  pose proof (coo_matrix_eq _ Heq) as HC.
  fold (soft_matrix (self w)) in HA.
  unfold build_matrix, bind, get_self, logger, log_to, lift, ret.
  cbn [self logs negb]. rewrite HA, HAtA, HAtB.
  destruct (0 <? eq_const_c_ (self w)).
  - rewrite HC. unfold bmat. cbn [sp_shape sp_T fst snd].
    rewrite !Nat.eqb_refl. cbn [andb].
    unfold sp_add. cbn [sp_shape eye sp_scale fst snd].
    rewrite !Nat.eqb_refl. cbn [andb].
    eexists. eexists. eexists. split; [reflexivity |]. split; [reflexivity |].
    split; [reflexivity |].
    intros i j. cbn [sp_entry sp_scale eye fst snd].
    destruct (i =? j); cbn [fmap option_fmap option_map];
      match goal with |- context [match ?e with _ => _ end] => destruct e end;
      reflexivity.
  - unfold sp_add. cbn [sp_shape eye sp_scale fst snd].
    rewrite !Nat.eqb_refl. cbn [andb].
    eexists. eexists. eexists. split; [reflexivity |]. split; [reflexivity |].
    split; [reflexivity |].
    intros i j. cbn [sp_entry sp_scale eye fst snd].
    destruct (i =? j); cbn [fmap option_fmap option_map];
      match goal with |- context [match ?e with _ => _ end] => destruct e end;
      reflexivity.
Qed.

(** When pyamg is not installed, [_solve("pyamg")] falls back to conjugate
    gradient with its default arguments: the published field holds the first
    [nx] entries of its solution at the nodes of the region. *)
Lemma solve_pyamg_unavailable_falls_back (env : Backends) (kw : Kwargs) (w : World)
    (sel : list nat) (Am : spmatrix) (Bv x : list float) :
  pyamg_solve env = None ->
  region_ok (self w) sel ->
  solve_system "pyamg" kw w = Ok (Am, Bv) ->
  sla_cg env Am Bv (cg_args no_kwargs None) = Ok x ->
  nx (self w) <= length x ->
  exists w',
    _solve env "pyamg" kw w = (Ok tt, w')
    /\ properties (support (self w')) !! propertyname (self w) =
       Some (scatter (nan_field (self w)) sel (take (nx (self w)) x)).
Proof.
  intros Hamg Hreg Hsys Hcg Hlen.
  assert (Hret : backend_returns env kw Am Bv "pyamg" x).
  { apply returns_pyamg_fallback; [left; exact Hamg | exact Hcg]. }
  destruct (solve_run env "pyamg" kw w sel Am Bv x Hreg Hsys Hret Hlen)
    as [l Hrun]; [discriminate |].
  eexists. split; [exact Hrun |].
  cbn [self logs]. unfold publish. cbn. apply lookup_insert_eq.
Qed.

(** ** The invariants along the interface

    The hypotheses of the theorems above hold in every state the interface
    reaches: [__init__] and [reset] leave an empty accumulator, [__init__] and
    [set_region] a valid region, and the two [add_] methods keep the
    accumulated system well formed. *)

Lemma forallb_ltb_seq (n : nat) : forallb (fun i => i <? n) (seq 0 n) = true.
Proof.
  apply forallb_ltb_Forall, Forall_forall. intros i Hi.
  apply elem_of_seq in Hi. lia.
Qed.

(** [__init__] with a shape other than "square" leaves an empty accumulator
    and a region that selects every node of the support once, so that [nx]
    is [n_nodes]. *)
Lemma init_state (sh pn : string) (utd : bool) (sup : Support)
    (s : DiscreteInterpolator) :
  sh <> "square" ->
  init sh pn utd sup = Ok s ->
  empty_accumulator s /\ region_ok s (seq 0 (n_nodes sup)) /\ support s = sup.
Proof.
  intros Hsh. unfold init. cbn [region_indices].
  destruct (forallb _ (seq 0 (n_nodes sup))); [| discriminate].
  cbn [result_bind]. rewrite (proj2 (String.eqb_neq sh "square") Hsh).
  intros [= <-]. split; [repeat split |]. split; [| reflexivity].
  unfold region_ok. cbn [region support nx region_indices].
  rewrite forallb_ltb_seq.
  split; [reflexivity |]. split; [apply NoDup_seq | reflexivity].
Qed.

Definition log_reset : LogRecord :=
  mkLog ModuleLogger DEBUG "Resetting interpolation constraints" [].

(** The attributes [reset] does not assign. *)
Definition non_constraint_state (s : DiscreteInterpolator) :=
  ((shape s, propertyname s, up_to_date s, solver s),
   (region_function s, region s, region_map s, nx s),
   support s, c s).

(** [reset] always returns; it empties both constraint stores, the
    right-hand side and the two row counters, and logs one debug record.
    The region, the region map and [nx] are what they were (so a valid
    region stays valid), and so are the solver, the up-to-date flag, the
    support with its published properties, and the solution [c]. *)
Lemma reset_run (w : World) :
  exists w',
    reset w = (Ok tt, w')
    /\ empty_accumulator (self w')
    /\ logs w' = logs w ++ [log_reset]
    /\ non_constraint_state (self w') = non_constraint_state (self w)
    /\ (forall sel, region_ok (self w) sel -> region_ok (self w') sel).
Proof.
  eexists. split; [reflexivity |]. split; [repeat split |].
  split; [reflexivity |]. split; [reflexivity |].
  intros sel H. exact H.
Qed.

(** [set_region] with a region function that returns a boolean mask over the
    nodes returns; afterwards the region selects the masked nodes, each once,
    and [nx] is the number of [True] entries of the mask. *)
Lemma set_region_mask (f : list point -> Region) (mask : list bool) (w : World) :
  f (nodes (support (self w))) = BoolMask mask ->
  length mask = n_nodes (support (self w)) ->
  length (nodes (support (self w))) = n_nodes (support (self w)) ->
  exists w',
    set_region f w = (Ok tt, w')
    /\ region_ok (self w') (mask_indices mask)
    /\ nx (self w') = length (List.filter id mask).
Proof.
  intros Hf Hlen Hnodes.
  assert (Hsel : region_indices (BoolMask mask) (n_nodes (support (self w))) =
                 Ok (mask_indices mask)).
  { cbn. rewrite Hlen, Nat.eqb_refl. reflexivity. }
  pose proof (region_indices_lt _ _ _ Hsel) as Hlt.
  unfold set_region, bind, get_self, modify, lift. cbn [self logs].
  rewrite Hf, repeat_length, Hsel.
  unfold np_setitem. rewrite repeat_length.
  rewrite (proj2 (forallb_ltb_Forall _ _) Hlt), length_seq, Nat.eqb_refl.
  rewrite Hnodes, Hsel.
  eexists. split; [reflexivity |]. cbn [self logs].
  split.
  - unfold region_ok. cbn [region support nx n_nodes set_nx set_region_map
                           set_region_attr set_region_function].
    rewrite Hsel.
    split; [reflexivity |]. split; [apply select_seq_NoDup | reflexivity].
  - cbn. unfold mask_indices. clear. generalize 0.
    induction mask as [|b mask IH]; intros a; [reflexivity |].
    cbn. destruct b; cbn; rewrite IH; reflexivity.
Qed.

Lemma with_soft_store_eq_wf (Av : list float) (rowv : list nat) (colv : list Index)
    (Bv : list float) (cnt : nat) (s : DiscreteInterpolator) :
  eq_wf s -> eq_wf (with_soft_store Av rowv colv Bv cnt s).
Proof. intros H. exact H. Qed.

(** A well-shaped batch whose column indices are region-local keeps the
    accumulated system well formed. *)
Lemma add_constraints_preserves_wf (A0 B0 : ndarray float) (idc : ndarray Index)
    (w : World) (dims : list nat) (ncol : nat) :
  shape (self w) = "rectangular" ->
  ~ contains_nan A0 -> ~ contains_nan B0 -> ~ contains_nan_index idc ->
  nd_wf A0 ->
  nd_shape A0 = dims ++ [ncol] ->
  length dims = 1 \/ length dims = 2 ->
  length (nd_data idc) = length (nd_data A0) ->
  length (nd_data B0) = nd_size dims ->
  Forall (fun cj => (0 <= index_cast cj < Z.of_nat (nx (self w)))%Z) (nd_data idc) ->
  system_wf (self w) ->
  exists w',
    add_constraints_to_least_squares A0 B0 idc w = (Ok tt, w')
    /\ system_wf (self w')
    /\ (forall sel, region_ok (self w) sel -> region_ok (self w') sel).
Proof.
  intros Hshape HA HB HI Hwf Hsh Hdims Hlen HlenB Hcols (Hsoft & Heq & HBw).
  eexists. split.
  { exact (add_constraints_run A0 B0 idc w dims ncol Hshape HA HB HI Hwf Hsh
             Hdims Hlen). }
  cbn [self]. split; [| intros sel H; exact H].
  set (kept := batch_triplets (c_ (self w)) ncol A0 idc).
  destruct Hsoft as (Hr & Hc & Hrow & Hcol).
  split; [| split; [apply with_soft_store_eq_wf, Heq |]].
  - unfold soft_wf. cbn.
    rewrite !length_app, !length_map, Hr, Hc.
    split; [reflexivity |]. split; [reflexivity |]. split.
    + apply Forall_app. split.
      * eapply Forall_impl; [exact Hrow |]. cbn. intros r Hlt. lia.
      * apply Forall_fmap.
        eapply Forall_impl;
          [apply (batch_triplets_rows (c_ (self w)) ncol (nd_size dims) A0 idc) |].
        -- rewrite Hwf, Hsh. apply nd_size_app.
        -- cbn. intros e He. lia.
    + apply Forall_app. split; [exact Hcol |].
      apply Forall_fmap, Forall_forall. intros e He.
      rewrite Forall_forall in Hcols. apply Hcols.
      eapply batch_triplets_cols. exact He.
  - cbn. rewrite length_app, HBw, HlenB. reflexivity.
Qed.

(** Equality constraints on nodes of the support keep the accumulated system
    well formed. *)
Lemma add_equality_constraints_preserves_wf (node_idx : list nat)
    (values : list float) (w : World) (sel : list nat) :
  region_ok (self w) sel ->
  Forall (fun i => i < n_nodes (support (self w))) node_idx ->
  length values = length node_idx ->
  system_wf (self w) ->
  exists w',
    add_equality_constraints node_idx values w = (Ok tt, w')
    /\ system_wf (self w')
    /\ region_ok (self w') sel.
Proof.
  intros Hreg Hidx Hlen (Hsoft & Heq & HBw).
  destruct (add_equality_constraints_run node_idx values w sel Hreg Hidx Hlen)
    as (cols & Hcols & Hrun).
  eexists. split; [exact Hrun |]. cbn [self]. split; [| exact Hreg].
  set (retained := List.filter (fun iv => bool_decide (iv.1 ∈ sel))
                     (zip node_idx values)) in *.
  destruct Heq as (Hr & Hc & Hrow & Hcol & Hd).
  split; [exact Hsoft |]. split; [| exact HBw].
  unfold eq_wf. cbn.
  rewrite !length_app, !length_map, !repeat_length, !length_seq, Hr, Hc, Hd.
  rewrite <- (Forall2_length _ _ _ Hcols).
  split; [reflexivity |]. split; [reflexivity |]. split; [| split; [| reflexivity]].
  - apply Forall_app. split.
    + eapply Forall_impl; [exact Hrow |]. cbn. intros r Hlt. lia.
    + apply Forall_forall. intros r Hin. apply elem_of_seq in Hin. lia.
  - apply Forall_app. split; [exact Hcol |].
    destruct Hreg as (_ & _ & Hnx). rewrite Hnx.
    eapply Forall2_Forall_r; [exact Hcols |].
    apply Forall_forall. intros iv _ cj (p & -> & Hp).
    apply lookup_lt_Some in Hp. lia.
Qed.

(** * Worked instances

    A support of four nodes on a line, of which a boolean mask selects the
    first three as the region; one batch of three soft constraints whose
    coefficient array is the identity; one equality constraint. *)

Definition example_support : Support :=
  mkSupport 4 [(0, 0, 0); (1, 0, 0); (2, 0, 0); (3, 0, 0)]%float ∅.

Definition example_mask (_ : list point) : Region :=
  BoolMask [true; true; true; false].

(** The interpolator as [__init__] leaves it: every node in the region. *)
Definition initial_interpolator : DiscreteInterpolator :=
  mkDI "rectangular" "val" false [] example_support None
    (IndexArray [0; 1; 2; 3]) [0; 0; 0; 0] 4
    0 [] [] [] None [] [] [] [] 0 None.

(** The interpolator after [set_region]: nothing accumulated yet. *)
Definition example_interpolator : DiscreteInterpolator :=
  mkDI "rectangular" "val" false [] example_support (Some example_mask)
    (BoolMask [true; true; true; false]) [0; 1; 2; 0] 3
    0 [] [] [] None [] [] [] [] 0 None.

Definition example_world : World := mkWorld example_interpolator [].

Example example_interpolator_reached :
  init "rectangular" "val" false example_support = Ok initial_interpolator
  /\ set_region example_mask (mkWorld initial_interpolator []) =
     (Ok tt, example_world).
Proof. split; reflexivity. Qed.

Definition identity_A : ndarray float :=
  mkArray [3; 3] [1; 0; 0; 0; 1; 0; 0; 0; 1]%float.
Definition identity_B : ndarray float := mkArray [3] [1; 2; 3]%float.
Definition identity_idc : ndarray Index :=
  mkArray [3; 3] [Idx 0; Idx 1; Idx 2; Idx 0; Idx 1; Idx 2; Idx 0; Idx 1; Idx 2].

(** The interpolator after the identity batch was added. *)
Definition identity_interpolator : DiscreteInterpolator :=
  with_soft_store [1; 1; 1]%float [0; 1; 2] [Idx 0; Idx 1; Idx 2]
    [1; 2; 3]%float 3 example_interpolator.

Definition identity_world : World := mkWorld identity_interpolator [].

(** The interpolator after node 1 was pinned to 5 (node 3, outside the
    region, was given too). *)
Definition pinned_interpolator : DiscreteInterpolator :=
  with_eq_store [1%float] [0] [1%Z] [5%float] 1 identity_interpolator.

Definition pinned_world : World := mkWorld pinned_interpolator [].

(** A stand-in for the linear solvers that returns the right-hand side: the
    exact solution of the systems used below, whose matrix is the identity or
    whose right-hand side is zero.  scikit-sparse and pyamg are not
    installed. *)
Definition example_env : Backends :=
  mkBackends (fun _ Bv _ => Ok Bv) (fun _ Bv => Ok Bv) (fun _ Bv _ => Ok Bv)
    None None (ret tt).

Definition undamped : Kwargs :=
  mkKwargs (Some (PyBool false)) None None None None None None None None None
    None None.

Lemma not_contains_nan (a : ndarray float) :
  np_any_isnan a = false -> ~ contains_nan a.
Proof.
  intros H Hc. rewrite (np_any_isnan_true a Hc) in H. discriminate.
Qed.

Lemma not_contains_nan_index (a : ndarray Index) :
  np_any_isnan_index a = false -> ~ contains_nan_index a.
Proof.
  intros H Hc. rewrite (np_any_isnan_index_true a Hc) in H. discriminate.
Qed.

Lemma example_region_ok : region_ok example_interpolator [0; 1; 2].
Proof.
  split; [reflexivity |]. split; [| reflexivity].
  apply (region_indices_mask_NoDup [true; true; true; false] 4). reflexivity.
Qed.

Lemma identity_system_wf : system_wf identity_interpolator.
Proof.
  unfold system_wf, soft_wf, eq_wf. cbn.
  repeat split; repeat (apply Forall_cons_2; [cbn; lia |]); apply Forall_nil_2.
Qed.

Lemma pinned_system_wf : system_wf pinned_interpolator.
Proof.
  unfold system_wf, soft_wf, eq_wf. cbn.
  repeat split; repeat (apply Forall_cons_2; [cbn; lia |]); apply Forall_nil_2.
Qed.

Lemma add_constraints_nan_rejected_witness :
  add_constraints_to_least_squares
    (mkArray [1; 2] [1%float; nan]) (mkArray [1] [3%float])
    (mkArray [1; 2] [Idx 0; Idx 1]) example_world =
  (Ok tt,
   mkWorld example_interpolator
     [mkLog ModuleLogger WARNING "Constraints contain nan not adding constraints" []]).
Proof.
  refine (proj1 (add_constraints_nan_rejected _ _ _ example_world _)).
  left. exists nan. split; [| reflexivity].
  apply list_elem_of_further, list_elem_of_here.
Defined.

Lemma update_without_solver_witness :
  solver example_interpolator = None
  /\ update example_env example_world =
     (Ok (Some false),
      mkWorld example_interpolator
        [mkLog RootLogger DEBUG "Cannot rerun interpolator" []]).
Proof.
  split; [reflexivity |].
  exact (update_without_solver example_env example_world eq_refl).
Defined.

Lemma add_constraints_stores_nonzero_witness :
  add_constraints_to_least_squares identity_A identity_B identity_idc example_world =
  (Ok tt, identity_world).
Proof.
  refine (proj1 (add_constraints_stores_nonzero identity_A identity_B identity_idc
                   example_world [3] 3 eq_refl _ _ _ eq_refl eq_refl _ eq_refl)).
  - apply not_contains_nan. reflexivity.
  - apply not_contains_nan. reflexivity.
  - apply not_contains_nan_index. reflexivity.
  - left. reflexivity.
Defined.

Lemma identity_region_ok : region_ok identity_interpolator [0; 1; 2].
Proof. exact example_region_ok. Qed.

Lemma pinned_region_ok : region_ok pinned_interpolator [0; 1; 2].
Proof. exact example_region_ok. Qed.

Lemma add_equality_constraints_spec_witness :
  exists cols : list Z,
    add_equality_constraints [1; 3] [5; 7]%float identity_world =
    (Ok tt,
     mkWorld (with_eq_store [1%float] [0] cols [5%float] 1 identity_interpolator) []).
Proof.
  destruct (add_equality_constraints_spec [1; 3] [5; 7]%float identity_world
              [0; 1; 2] identity_region_ok) as (cols & _ & _ & _ & Hrun).
  - repeat (apply Forall_cons_2; [cbn; lia |]). apply Forall_nil_2.
  - reflexivity.
  - exists cols. exact Hrun.
Defined.

Example add_equality_constraints_example :
  add_equality_constraints [1; 3] [5; 7]%float identity_world = (Ok tt, pinned_world).
Proof. reflexivity. Qed.

Example chol_versus_cg_example :
  properties (support (self (_solve example_env "chol" undamped identity_world).2))
    !! "val" = Some [0; 0; 0; nan]%float
  /\ properties (support (self (_solve example_env "cg" undamped identity_world).2))
       !! "val" = Some [1; 2; 3; nan]%float.
Proof. split; vm_compute; reflexivity. Qed.

Lemma build_matrix_rectangular_witness :
  soft_wf pinned_interpolator
  /\ build_matrix false true pinned_world =
     (Ok (soft_matrix pinned_interpolator, [1; 2; 3]%float),
      mkWorld pinned_interpolator
        [log_matrix_size pinned_interpolator; log_rectangular]).
Proof.
  split; [exact (proj1 pinned_system_wf) |].
  exact (proj1 (build_matrix_rectangular true pinned_world (proj1 pinned_system_wf))).
Defined.

Lemma build_matrix_square_equality_witness :
  exists Mx : spmatrix,
    (build_matrix true false pinned_world).1 = Ok (Mx, [1; 2; 3; 5]%float)
    /\ sp_shape Mx = (4, 4)
    /\ sp_entry Mx 1 1 = Some 1%float
    /\ sp_entry Mx 1 3 = Some 1%float
    /\ sp_entry Mx 3 1 = Some 1%float
    /\ sp_entry Mx 3 3 = None.
Proof.
  destruct (build_matrix_square_equality false pinned_world pinned_system_wf)
    as (Mx & Hrun & Hshape & _ & _ & Hblocks).
  - cbn. lia.
  - destruct (Hblocks eq_refl) as (H11 & H12 & H21 & H22).
    exists Mx. split; [rewrite Hrun; reflexivity |].
    split; [exact Hshape |].
    split; [refine (eq_trans (H11 1 1 _ _) _); [cbn; lia | cbn; lia | reflexivity] |].
    split; [refine (eq_trans (H12 1 0 _ _) _); [cbn; lia | cbn; lia | reflexivity] |].
    split; [refine (eq_trans (H21 0 1 _ _) _); [cbn; lia | cbn; lia | reflexivity] |].
    refine (H22 0 0 _ _); cbn; lia.
Defined.

(** The normal equations of the identity batch: the identity matrix and the
    right-hand side [1, 2, 3]. *)
Definition identity_system : spmatrix * list float :=
  (mkSp (3, 3) (AtA_entry identity_interpolator), AtB identity_interpolator).

Lemma identity_system_cg :
  backend_returns example_env undamped identity_system.1 identity_system.2 "cg"
    [1; 2; 3]%float.
Proof. apply (returns_cg _ _ _ _ None); reflexivity. Qed.

Lemma solve_scatters_and_publishes_witness :
  exists (w' : World) (cv : list float),
    _solve example_env "cg" undamped identity_world = (Ok tt, w')
    /\ properties (support (self w')) !! "val" = Some cv
    /\ length cv = 4
    /\ cv !! 0 = Some 1%float /\ cv !! 1 = Some 2%float /\ cv !! 2 = Some 3%float
    /\ cv !! 3 = Some nan.
Proof.
  destruct (solve_scatters_and_publishes example_env "cg" undamped identity_world
              [0; 1; 2] identity_system.1 identity_system.2 [1; 2; 3]%float
              identity_region_ok eq_refl identity_system_cg)
    as (w' & cv & Hrun & _ & Hpub & Hlen & Hin & Hout).
  - cbn. lia.
  - discriminate.
  - exists w', cv. split; [exact Hrun |]. split; [exact Hpub |].
    split; [exact Hlen |].
    split; [exact (Hin 0 0 eq_refl) |].
    split; [exact (Hin 1 1 eq_refl) |].
    split; [exact (Hin 2 2 eq_refl) |].
    apply Hout; [cbn; lia |].
    intros H. repeat (apply elem_of_cons in H as [H | H]; [discriminate |]).
    inversion H.
Defined.

Lemma solve_chol_unavailable_zero_field_witness :
  exists (w' : World) (cv : list float),
    _solve example_env "chol" undamped identity_world = (Ok tt, w')
    /\ properties (support (self w')) !! "val" = Some cv
    /\ cv !! 0 = Some 0%float /\ cv !! 1 = Some 0%float /\ cv !! 2 = Some 0%float
    /\ log_chol_missing ∈ logs w'.
Proof.
  destruct (solve_chol_unavailable_zero_field example_env undamped identity_world
              [0; 1; 2] eq_refl identity_region_ok identity_system_wf)
    as (w' & cv & Hrun & Hpub & Hzero & Hlog).
  exists w', cv. split; [exact Hrun |]. split; [exact Hpub |].
  split; [apply Hzero, list_elem_of_here |].
  split; [apply Hzero, list_elem_of_further, list_elem_of_here |].
  split; [apply Hzero; do 2 apply list_elem_of_further; apply list_elem_of_here |].
  exact Hlog.
Defined.

Lemma example_empty_accumulator : empty_accumulator example_interpolator.
Proof. repeat split. Qed.

Lemma solve_empty_accumulator_witness :
  exists (Am : spmatrix) (w' : World) (cv : list float),
    solve_system "cg" no_kwargs example_world = Ok (Am, [0; 0; 0]%float)
    /\ sp_entry Am 1 1 = Some eps /\ sp_entry Am 1 2 = None
    /\ _solve example_env "cg" no_kwargs example_world = (Ok tt, w')
    /\ properties (support (self w')) !! "val" = Some cv
    /\ cv !! 0 = Some 0%float /\ cv !! 1 = Some 0%float /\ cv !! 2 = Some 0%float
    /\ cv !! 3 = Some nan.
Proof.
  destruct (solve_empty_accumulator example_env "cg" no_kwargs example_world
              [0; 1; 2] example_empty_accumulator example_region_ok)
    as (Am & Bv & Hsys & _ & HBv & Hentry & Hsolve).
  cbn in HBv. subst Bv.
  destruct (Hsolve [0; 0; 0]%float) as (w' & cv & Hrun & Hpub & Hin & Hout).
  - apply (returns_cg _ _ _ _ None); reflexivity.
  - cbn. lia.
  - discriminate.
  - exists Am, w', cv. split; [exact Hsys |].
    split; [rewrite Hentry; reflexivity |].
    split; [rewrite Hentry; reflexivity |].
    split; [exact Hrun |]. split; [exact Hpub |].
    split; [exact (Hin 0 0 eq_refl) |].
    split; [exact (Hin 1 1 eq_refl) |].
    split; [exact (Hin 2 2 eq_refl) |].
    apply Hout; [cbn; lia |].
    intros H. repeat (apply elem_of_cons in H as [H | H]; [discriminate |]).
    inversion H.
Defined.

(** Counterexample to C8 as stated: on the interpolator with nothing
    accumulated, [_solve] with the default solver publishes 0.0, not NaN, at
    the three nodes of the region. *)
Lemma solve_empty_publishes_zeros :
  empty_accumulator example_interpolator
  /\ (_solve example_env "cg" no_kwargs example_world).1 = Ok tt
  /\ properties (support (self (_solve example_env "cg" no_kwargs example_world).2))
       !! "val" = Some [0; 0; 0; nan]%float
  /\ PrimFloat.is_nan 0%float = false.
Proof.
  split; [exact example_empty_accumulator |].
  split; [vm_compute; reflexivity |].
  split; [vm_compute; reflexivity | reflexivity].
Qed.

Lemma newton_not_supported : "newton" ∉ supported_solvers.
Proof.
  intros H. unfold supported_solvers in H.
  repeat (apply elem_of_cons in H as [H | H]; [discriminate |]).
  inversion H.
Qed.

Lemma solve_unknown_solver_returns_witness :
  exists l,
    _solve example_env "newton" no_kwargs identity_world =
    (Ok tt,
     mkWorld
       (publish (nan_field identity_interpolator)
          (set_c (Some (nan_field identity_interpolator)) identity_interpolator))
       l).
Proof.
  destruct (solve_unknown_solver_returns example_env "newton" no_kwargs
              identity_world [0; 1; 2] newton_not_supported identity_region_ok
              identity_system_wf) as [l Hrun].
  exists ([] ++ l). exact Hrun.
Defined.

(** Counterexample to C9 as stated: [_solve] with the unknown solver name
    "newton" returns normally, having published the all-NaN field. *)
Lemma solve_unknown_solver_no_error :
  ("newton" ∉ supported_solvers)
  /\ (_solve example_env "newton" no_kwargs identity_world).1 = Ok tt
  /\ properties (support (self (_solve example_env "newton" no_kwargs identity_world).2))
       !! "val" = Some [nan; nan; nan; nan].
Proof.
  split; [exact newton_not_supported |].
  split; vm_compute; reflexivity.
Qed.

Lemma build_matrix_damped_witness :
  exists (Mu Md : spmatrix),
    (build_matrix true false pinned_world).1 = Ok (Mu, [1; 2; 3; 5]%float)
    /\ (build_matrix true true pinned_world).1 = Ok (Md, [1; 2; 3; 5]%float)
    /\ sp_entry Mu 3 3 = None /\ sp_entry Md 3 3 = Some eps
    /\ sp_entry Md 1 3 = sp_entry Mu 1 3.
Proof.
  destruct (build_matrix_damped pinned_world pinned_system_wf)
    as (Mu & Md & rhs & Hu & Hd & _ & Hentry).
  assert (H33 : sp_entry Mu 3 3 = None).
  { cbv in Hu. injection Hu as <- _. reflexivity. }
  assert (Hrhs : rhs = [1; 2; 3; 5]%float).
  { cbv in Hu. congruence. }
  subst rhs.
  exists Mu, Md. split; [exact Hu |]. split; [exact Hd |].
  split; [exact H33 |].
  split; [rewrite (Hentry 3 3), H33; reflexivity |].
  exact (Hentry 1 3).
Defined.

Lemma solve_pyamg_unavailable_falls_back_witness :
  exists w',
    _solve example_env "pyamg" undamped identity_world = (Ok tt, w')
    /\ properties (support (self w')) !! "val" = Some [1; 2; 3; nan]%float.
Proof.
  exact (solve_pyamg_unavailable_falls_back example_env undamped identity_world
           [0; 1; 2] identity_system.1 identity_system.2 [1; 2; 3]%float
           eq_refl identity_region_ok eq_refl eq_refl (le_n 3)).
Defined.

Lemma init_state_witness :
  empty_accumulator initial_interpolator
  /\ region_ok initial_interpolator [0; 1; 2; 3]
  /\ support initial_interpolator = example_support.
Proof.
  refine (init_state "rectangular" "val" false example_support
            initial_interpolator _ eq_refl).
  discriminate.
Defined.

Lemma set_region_mask_witness :
  exists w',
    set_region example_mask (mkWorld initial_interpolator []) = (Ok tt, w')
    /\ region_ok (self w') [0; 1; 2]
    /\ nx (self w') = 3.
Proof.
  exact (set_region_mask example_mask [true; true; true; false]
           (mkWorld initial_interpolator []) eq_refl eq_refl eq_refl).
Defined.

Lemma add_constraints_preserves_wf_witness :
  exists w',
    add_constraints_to_least_squares identity_A identity_B identity_idc
      example_world = (Ok tt, w')
    /\ system_wf (self w').
Proof.
  destruct (add_constraints_preserves_wf identity_A identity_B identity_idc
              example_world [3] 3 eq_refl
              (not_contains_nan identity_A eq_refl)
              (not_contains_nan identity_B eq_refl)
              (not_contains_nan_index identity_idc eq_refl) eq_refl eq_refl
              (or_introl eq_refl) eq_refl eq_refl)
    as (w' & Hrun & Hwf & _).
  - repeat (apply Forall_cons_2; [cbn; lia |]). apply Forall_nil_2.
  - apply empty_accumulator_wf, example_empty_accumulator.
  - exists w'. split; [exact Hrun | exact Hwf].
Defined.

Lemma add_equality_constraints_preserves_wf_witness :
  exists w',
    add_equality_constraints [1; 3] [5; 7]%float identity_world = (Ok tt, w')
    /\ system_wf (self w')
    /\ region_ok (self w') [0; 1; 2].
Proof.
  apply (add_equality_constraints_preserves_wf [1; 3] [5; 7]%float identity_world
           [0; 1; 2] identity_region_ok).
  - repeat (apply Forall_cons_2; [cbn; lia |]). apply Forall_nil_2.
  - reflexivity.
  - exact identity_system_wf.
Defined.

(** An interpolator that was solved with conjugate gradient and is up to
    date. *)
Definition solved_world : World :=
  mkWorld (mkDI "rectangular" "val" true [] example_support None
             (IndexArray [0; 1; 2; 3]) [0; 0; 0; 0] 4
             0 [] [] [] (Some "cg") [] [] [] [] 0 None) [].

Lemma update_up_to_date_witness :
  update example_env solved_world = (Ok None, solved_world).
Proof.
  exact (update_up_to_date example_env solved_world "cg" eq_refl eq_refl).
Defined.

(** * Frames: what the methods never change *)

(** [preserves f m]: whatever [m] does, returning or raising, the part [f] of
    the object is afterwards what it was before. *)
Definition preserves {F X : Type} (f : DiscreteInterpolator -> F) (m : M X) : Prop :=
  forall w, f (self (m w).2) = f (self w).

Section Preserves.

Context {F : Type} (f : DiscreteInterpolator -> F).

Lemma preserves_ret {X : Type} (x : X) : preserves f (ret x).
Proof. intros w. reflexivity. Qed.

Lemma preserves_lift {X : Type} (r : result X) : preserves f (lift r).
Proof. intros w. reflexivity. Qed.

Lemma preserves_get_self : preserves f get_self.
Proof. intros w. reflexivity. Qed.

Lemma preserves_log_to (lg : logger_id) (lv : level) (msg : string)
    (args : list fmtarg) :
  preserves f (log_to lg lv msg args).
Proof. intros w. reflexivity. Qed.

Lemma preserves_modify (g : DiscreteInterpolator -> DiscreteInterpolator) :
  (forall s, f (g s) = f s) -> preserves f (modify g).
Proof. intros H w. apply H. Qed.

Lemma preserves_bind {X Y : Type} (m : M X) (k : X -> M Y) :
  preserves f m -> (forall x, preserves f (k x)) -> preserves f (bind m k).
Proof.
  intros Hm Hk w. unfold bind. specialize (Hm w).
  destruct (m w) as [[x | e] w1]; cbn [snd] in *.
  - rewrite (Hk x w1). exact Hm.
  - exact Hm.
Qed.

Lemma preserves_try {X : Type} (body handler : M X) :
  preserves f body -> preserves f handler ->
  preserves f (try_except_ImportError body handler).
Proof.
  intros Hb Hh w. unfold try_except_ImportError. specialize (Hb w).
  destruct (body w) as [[x | e] w1]; cbn [snd] in *; [exact Hb |].
  destruct e; try exact Hb. rewrite (Hh w1). exact Hb.
Qed.

Lemma preserves_when (b : bool) (m : M unit) :
  preserves f m -> preserves f (when b m).
Proof. intros H. destruct b; [exact H | apply preserves_ret]. Qed.

Lemma preserves_if {X : Type} (b : bool) (m1 m2 : M X) :
  preserves f m1 -> preserves f m2 -> preserves f (if b then m1 else m2).
Proof. intros H1 H2. destruct b; assumption. Qed.

End Preserves.

(** Proves [preserves f m] for a method body built from the combinators,
    given that each of its [modify] steps keeps [f]. *)
Ltac frame :=
  repeat first
    [ apply preserves_ret | apply preserves_lift | apply preserves_get_self
    | apply preserves_log_to
    | apply preserves_modify; intros; reflexivity
    | apply preserves_try | apply preserves_when | apply preserves_if
    | apply preserves_bind
    | match goal with |- preserves _ (match ?x with _ => _ end) => destruct x end
    | intro ].

(** The object without the solution array and without the property the
    interpolator publishes: what [_solve] must not touch. *)
Definition outside_solution (s : DiscreteInterpolator) : DiscreteInterpolator :=
  set_c None
    (set_support
       (mkSupport (n_nodes (support s)) (nodes (support s))
          (delete (propertyname s) (properties (support s)))) s).

Lemma build_matrix_preserves {F : Type} (f : DiscreteInterpolator -> F)
    (square damp : bool) :
  preserves f (build_matrix square damp).
Proof. unfold build_matrix, logger. frame. Qed.

Lemma assign_c_region_preserves (v : Solution) :
  preserves outside_solution (assign_c_region v).
Proof. unfold assign_c_region. frame. Qed.

Lemma publish_solution_preserves : preserves outside_solution publish_solution.
Proof.
  intros [s l].
  unfold publish_solution, bind, get_self, lift, modify, when, logger, log_to, ret.
  cbn [self logs].
  assert (H : outside_solution
                (set_support
                   (mkSupport (n_nodes (support s)) (nodes (support s))
                      (<[propertyname s := default [] (c s)]> (properties (support s))))
                   s) = outside_solution s).
  { unfold outside_solution. cbn. rewrite delete_insert_eq. reflexivity. }
  destruct (c s) as [cv |]; [| reflexivity]. cbn [default] in H.
  destruct (forallb _ cv); cbn [self logs snd];
    (destruct (region_indices _ _); cbn [self logs snd]; [| exact H];
     destruct (np_getitem _ _); cbn [self logs snd]; [| exact H];
     destruct (forallb _ _); exact H).
Qed.

Lemma run_solver_preserves (env : Backends) (name : string) (kw : Kwargs)
    (Am : spmatrix) (Bv : list float) :
  preserves outside_solution (run_solver env name kw Am Bv).
Proof.
  pose proof assign_c_region_preserves as Ha.
  unfold run_solver, _solve_cg, _solve_chol, _solve_lu, _solve_pyamg,
    _solve_lsqr, logger.
  repeat first
    [ apply Ha
    | apply preserves_ret | apply preserves_lift | apply preserves_get_self
    | apply preserves_log_to
    | apply preserves_try | apply preserves_when | apply preserves_if
    | apply preserves_bind
    | match goal with |- preserves _ (match ?x with _ => _ end) => destruct x end
    | intro ].
Qed.

Lemma solve_preserves (env : Backends) (name : string) (kw : Kwargs) :
  preserves outside_solution (_solve env name kw).
Proof.
  unfold _solve.
  apply preserves_bind; [apply preserves_get_self | intros s].
  apply preserves_bind; [apply preserves_modify; intros; reflexivity | intros _].
  apply preserves_bind;
    [apply preserves_if; apply build_matrix_preserves | intros sys].
  apply preserves_bind; [apply run_solver_preserves | intros _].
  apply publish_solution_preserves.
Qed.

(** Every stored attribute of the interpolator that a call of [_solve] can
    leave changed is among [self.c] and the property it publishes. *)
Definition constraint_state (s : DiscreteInterpolator) :=
  (A s, row s, col s, B s, c_ s,
   (eq_const_C s, eq_const_row s, eq_const_col s, eq_const_d s, eq_const_c_ s),
   (region s, region_map s, nx s), (solver s, up_to_date s, shape s, propertyname s),
   (n_nodes (support s), nodes (support s))).

(** Whatever the solver name, the keyword arguments and the back ends, and
    whether [_solve] returns or raises, the constraint stores, both counters,
    the region, [nx], [solver], [up_to_date] and the nodes of the support are
    afterwards what they were, and so is every property of the support other
    than the one the interpolator publishes. *)
Theorem solve_keeps_constraints (env : Backends) (name : string) (kw : Kwargs)
    (w : World) :
  let s := self w in
  let s' := self (_solve env name kw w).2 in
  constraint_state s' = constraint_state s
  /\ (forall key, key <> propertyname s ->
        properties (support s') !! key = properties (support s) !! key).
Proof.
  intros s s'. pose proof (solve_preserves env name kw w) as H.
  fold s s' in H. split.
  - exact (f_equal constraint_state H).
  - intros key Hkey.
    pose proof (f_equal (fun t => properties (support t) !! key) H) as Hp.
    pose proof (f_equal propertyname H) as Hn.
    unfold outside_solution in Hp, Hn. cbn in Hp, Hn.
    rewrite Hn in Hp. rewrite !lookup_delete_ne in Hp by congruence. exact Hp.
Qed.

(** [_solve] does not record the solver it ran: on an interpolator whose
    [solver] attribute is [None], [update] called after any [_solve], whether
    that call returned or raised, still returns [False] and solves nothing. *)
Theorem solve_does_not_enable_update (env : Backends) (name : string) (kw : Kwargs)
    (w : World) :
  solver (self w) = None ->
  let w1 := (_solve env name kw w).2 in
  update env w1 =
    (Ok (Some false),
     mkWorld (self w1)
       (logs w1 ++ [mkLog RootLogger DEBUG "Cannot rerun interpolator" []])).
Proof.
  intros Hs w1.
  assert (H1 : solver (self w1) = None).
  { rewrite <- Hs. exact (f_equal solver (solve_preserves env name kw w)). }
  unfold update, bind, get_self. cbn [self logs]. rewrite H1. reflexivity.
Qed.

(** ** A back end that raises *)

(** [backend_raises env kw Am Bv name e]: running the solver [name] on the
    system [(Am, Bv)] raises [e] before anything is assigned.  For "chol" and
    "pyamg" an ImportError of the library is not such a failure: it is caught. *)
Inductive backend_raises (env : Backends) (kw : Kwargs) (Am : spmatrix)
    (Bv : list float) : string -> exn -> Prop :=
| raises_cg_precon e :
    cg_preconditioner kw Am = Raise e ->
    backend_raises env kw Am Bv "cg" e
| raises_cg pre e :
    cg_preconditioner kw Am = Ok pre ->
    sla_cg env Am Bv (cg_args kw pre) = Raise e ->
    backend_raises env kw Am Bv "cg" e
| raises_chol cholesky e :
    sksparse_cholesky env = Some cholesky ->
    cholesky Am Bv = Raise e ->
    e <> ImportError ->
    backend_raises env kw Am Bv "chol" e
| raises_lu e :
    sla_splu_solve env Am Bv = Raise e ->
    backend_raises env kw Am Bv "lu" e
| raises_pyamg solve e :
    pyamg_solve env = Some solve ->
    solve Am Bv = Raise e ->
    e <> ImportError ->
    backend_raises env kw Am Bv "pyamg" e
| raises_pyamg_fallback e :
    pyamg_solve env = None
    \/ (exists solve, pyamg_solve env = Some solve /\ solve Am Bv = Raise ImportError) ->
    sla_cg env Am Bv (cg_args no_kwargs None) = Raise e ->
    backend_raises env kw Am Bv "pyamg" e
| raises_lsqr e :
    sla_lsqr env Am Bv (lsqr_args kw) = Raise e ->
    backend_raises env kw Am Bv "lsqr" e
| raises_external_missing :
    kw_external kw = None ->
    backend_raises env kw Am Bv "external" KeyError
| raises_external ext e :
    kw_external kw = Some ext ->
    ext Am Bv = Raise e ->
    backend_raises env kw Am Bv "external" e.

Lemma solve_cg_raises (env : Backends) (Am : spmatrix) (Bv : list float) (kw : Kwargs)
    (s : DiscreteInterpolator) (l : list LogRecord) (e : exn) :
  cg_preconditioner kw Am = Raise e
  \/ (exists pre, cg_preconditioner kw Am = Ok pre
                  /\ sla_cg env Am Bv (cg_args kw pre) = Raise e) ->
  exists l', _solve_cg env Am Bv kw (mkWorld s l) = (Raise e, mkWorld s (l ++ l')).
Proof.
  unfold cg_preconditioner, cg_args, _solve_cg. intros H.
  unfold bind, get_self, logger, log_to, lift, ret.
  destruct (kw_maxiter kw), (kw_x0 kw), (kw_tol kw), (kw_atol kw); simpl in *;
    (destruct (kw_precon kw) as [precon |];
     [ destruct (precon Am) as [m | e']; simpl in H |];
     destruct H as [H | (pre & Hpre & Hcg)];
     try discriminate;
     try (injection H as <-; close_logs);
     try (injection Hpre as <-; simpl; rewrite Hcg; close_logs)).
Qed.

Lemma run_solver_raises (env : Backends) (kw : Kwargs) (Am : spmatrix)
    (Bv : list float) (name : string) (e : exn)
    (s : DiscreteInterpolator) (l : list LogRecord) :
  backend_raises env kw Am Bv name e ->
  exists l', run_solver env name kw Am Bv (mkWorld s l) = (Raise e, mkWorld s (l ++ l')).
Proof.
  intros Hr.
  destruct Hr as [e Hpre | pre e Hpre Hcg | chol e Hchol Hx Hne | e Hx
                 | solve e Hamg Hx Hne | e Hamg Hcg | e Hx | Hext | ext e Hext Hx];
    unfold run_solver, when; simpl String.eqb; cbv iota; rewrite ?bind_ret_l.
  - destruct (solve_cg_raises env Am Bv kw s
                (l ++ [mkLog ModuleLogger INFO "Solving using conjugate gradient" []])
                e (or_introl Hpre)) as [l' Hrun].
    unfold bind at 1 2 3. unfold logger at 1, log_to at 1. cbn [self logs].
    rewrite Hrun. close_logs.
  - destruct (solve_cg_raises env Am Bv kw s
                (l ++ [mkLog ModuleLogger INFO "Solving using conjugate gradient" []])
                e (or_intror (ex_intro _ pre (conj Hpre Hcg)))) as [l' Hrun].
    unfold bind at 1 2 3. unfold logger at 1, log_to at 1. cbn [self logs].
    rewrite Hrun. close_logs.
  - unfold _solve_chol, try_except_ImportError.
    unfold bind, ret, get_self, lift. cbn [self logs]. rewrite Hchol, Hx.
    destruct e; try contradiction; close_logs.
  - unfold _solve_lu. unfold bind, ret, get_self, lift, logger, log_to.
    cbn [self logs]. rewrite Hx. close_logs.
  - unfold _solve_pyamg, try_except_ImportError.
    unfold bind, ret, get_self, lift, logger, log_to.
    cbn [self logs]. rewrite Hamg, Hx.
    destruct e; try contradiction; close_logs.
  - destruct (solve_cg_raises env Am Bv no_kwargs s
                ((l ++ [mkLog ModuleLogger INFO "Solving with pyamg solve" []])
                 ++ [mkLog ModuleLogger WARNING "Pyamg not installed using cg instead" []])
                e (or_intror (ex_intro _ None (conj eq_refl Hcg)))) as [l' Hrun].
    assert (Hfail : _solve_pyamg env Am Bv
                      (mkWorld s (l ++ [mkLog ModuleLogger INFO "Solving with pyamg solve" []])) =
                    (Raise ImportError,
                     mkWorld s (l ++ [mkLog ModuleLogger INFO "Solving with pyamg solve" []]))).
    { unfold _solve_pyamg, bind, get_self, lift. cbn [self logs].
      destruct Hamg as [-> | (solve & -> & ->)]; reflexivity. }
    unfold bind at 1. unfold try_except_ImportError.
    unfold bind at 1 2. unfold logger at 1, log_to at 1. cbn [self logs].
    rewrite Hfail.
    unfold bind at 1 2. unfold logger at 1, log_to at 1. cbn [self logs].
    rewrite Hrun. close_logs.
  - destruct (solve_lsqr_run env Am Bv kw s l) as [l' Hrun].
    unfold bind at 1 2. rewrite Hrun, Hx. close_logs.
  - unfold bind, ret, get_self, lift, logger, log_to.
    cbn [self logs]. rewrite Hext. close_logs.
  - unfold bind, ret, get_self, lift, logger, log_to.
    cbn [self logs]. rewrite Hext, Hx. close_logs.
Qed.

(** When the system is assembled and the selected back end raises (this
    includes ["external"] without a callable under [kwargs['external']], a
    KeyError), [_solve] raises the same exception.  Nothing is published: the
    support is as before, and [self.c] is left as the all-NaN array. *)
Theorem solve_backend_raises (env : Backends) (name : string) (kw : Kwargs)
    (w : World) (Am : spmatrix) (Bv : list float) (e : exn) :
  solve_system name kw w = Ok (Am, Bv) ->
  backend_raises env kw Am Bv name e ->
  let s := self w in
  exists l,
    _solve env name kw w =
    (Raise e, mkWorld (set_c (Some (nan_field s)) s) (logs w ++ l)).
Proof.
  intros Hsys Hr s. subst s.
  destruct w as [s l]. cbn [self logs] in *.
  unfold _solve. unfold bind at 1 2. unfold get_self at 1, modify at 1.
  cbn [self logs].
  set (s0 := set_c (Some (nan_field s)) s).
  assert (Hbuild : exists l',
            (if String.eqb name "lsqr" then build_matrix false true
             else build_matrix true (damp_flag kw)) (mkWorld s0 l) =
            (Ok (Am, Bv), mkWorld s0 (l ++ l'))).
  { unfold solve_system in Hsys. subst s0.
    destruct (String.eqb name "lsqr").
    - destruct (build_matrix_frame false true s l (Some (nan_field s))) as [l' ->].
      rewrite Hsys. exists l'. reflexivity.
    - destruct (build_matrix_frame true (damp_flag kw) s l (Some (nan_field s)))
        as [l' ->].
      rewrite Hsys. exists l'. reflexivity. }
  destruct Hbuild as [l1 Hbuild].
  fold (nan_field s). fold s0.
  rewrite (run_bind _ _ _ _ _ Hbuild). cbn [fst snd].
  destruct (run_solver_raises env kw Am Bv name e s0 (l ++ l1) Hr) as [l2 Hrun].
  unfold bind. rewrite Hrun.
  exists (l1 ++ l2). rewrite app_assoc. reflexivity.
Qed.

(** ** Frames of the accumulating methods *)

(** The object with the soft-constraint stores blanked: what
    [add_constraints_to_least_squares] must not touch. *)
Definition outside_soft_store (s : DiscreteInterpolator) : DiscreteInterpolator :=
  with_soft_store [] [] [] [] 0 s.

(** The object with the equality stores blanked: what
    [add_equality_constraints] must not touch. *)
Definition outside_eq_store (s : DiscreteInterpolator) : DiscreteInterpolator :=
  with_eq_store [] [] [] [] 0 s.

Lemma add_constraints_preserves (A0 B0 : ndarray float) (idc : ndarray Index) :
  preserves outside_soft_store (add_constraints_to_least_squares A0 B0 idc).
Proof. unfold add_constraints_to_least_squares, logger. frame. Qed.

Lemma add_equality_constraints_preserves (node_idx : list nat) (values : list float) :
  preserves outside_eq_store (add_equality_constraints node_idx values).
Proof. unfold add_equality_constraints. frame. Qed.

(** The attributes other than the soft-constraint stores. *)
Definition non_soft_state (s : DiscreteInterpolator) :=
  ((eq_const_C s, eq_const_row s, eq_const_col s, eq_const_d s, eq_const_c_ s),
   (region s, region_map s, nx s),
   (solver s, up_to_date s, shape s, propertyname s),
   support s, c s).

(** The attributes other than the equality stores. *)
Definition non_equality_state (s : DiscreteInterpolator) :=
  ((A s, row s, col s, B s, c_ s),
   (region s, region_map s, nx s),
   (solver s, up_to_date s, shape s, propertyname s),
   support s, c s).

(** Whatever batch it is given, and whether it returns or raises,
    [add_constraints_to_least_squares] changes nothing but the soft-constraint
    stores [A], [row], [col], [B] and [c_]: the equality constraints, the
    region, the support and the solution stay as they were. *)
Theorem add_constraints_touches_soft_store_only (A0 B0 : ndarray float)
    (idc : ndarray Index) (w : World) :
  non_soft_state (self (add_constraints_to_least_squares A0 B0 idc w).2) =
  non_soft_state (self w).
Proof.
  pose proof (add_constraints_preserves A0 B0 idc w) as H.
  unfold outside_soft_store in H.
  exact (f_equal non_soft_state H).
Qed.

(** Whatever it is given, and whether it returns or raises,
    [add_equality_constraints] changes nothing but the five equality stores,
    and logs nothing. *)
Theorem add_equality_constraints_touches_eq_store_only (node_idx : list nat)
    (values : list float) (w : World) :
  non_equality_state (self (add_equality_constraints node_idx values w).2) =
  non_equality_state (self w)
  /\ logs (add_equality_constraints node_idx values w).2 = logs w.
Proof.
  split.
  - exact (f_equal non_equality_state
             (add_equality_constraints_preserves node_idx values w)).
  - destruct w as [s l].
    unfold add_equality_constraints, bind, get_self, lift, modify. cbn [self logs].
    repeat match goal with
           | |- context [match ?x with _ => _ end] => destruct x; cbn [self logs snd]
           end; reflexivity.
Qed.

(** ** Batches the code accepts only in part *)

Lemma select_map_filter {X : Type} (f : X -> bool) (xs : list X) :
  select xs (map f xs) = List.filter f xs.
Proof.
  induction xs as [|x xs IH]; simpl; [reflexivity |].
  destruct (f x); rewrite IH; reflexivity.
Qed.

Lemma length_select_same {X Y : Type} (xs : list X) (ys : list Y) (mask : list bool) :
  length xs = length mask -> length ys = length mask ->
  length (select xs mask) = length (select ys mask).
Proof.
  revert xs ys. induction mask as [|b mask IH]; intros [|x xs] [|y ys] Hx Hy;
    try discriminate; [reflexivity |].
  injection Hx as Hx. injection Hy as Hy. simpl.
  destruct b; simpl; rewrite (IH xs ys Hx Hy); reflexivity.
Qed.

(** The nonzero coefficients of a batch, in flattened order. *)
Definition nonzero_coefficients (A0 : ndarray float) : list float :=
  List.filter (fun a => negb (PrimFloat.eqb a 0%float)) (nd_data A0).

(** The index array is not validated against the coefficient array.  When it
    has another number of entries, on a rectangular-shape interpolator and a
    NaN-free two- or three-dimensional batch, the call raises IndexError only
    after it has advanced [c_] by the rows of the batch and appended the
    nonzero coefficients to [A] and as many row numbers to [row]; [col] and
    [B] get nothing, so the three triplet lists no longer run in parallel. *)
Theorem add_constraints_index_size_mismatch (A0 B0 : ndarray float)
    (idc : ndarray Index) (w : World) (dims : list nat) (ncol : nat) :
  shape (self w) = "rectangular" ->
  ~ contains_nan A0 -> ~ contains_nan B0 -> ~ contains_nan_index idc ->
  nd_wf A0 ->
  nd_shape A0 = dims ++ [ncol] ->
  length dims = 1 \/ length dims = 2 ->
  length (nd_data idc) <> length (nd_data A0) ->
  let s := self w in
  exists rv : list nat,
    length rv = length (nonzero_coefficients A0)
    /\ add_constraints_to_least_squares A0 B0 idc w =
       (Raise IndexError,
        mkWorld
          (set_row (row s ++ rv)
             (set_A (A s ++ nonzero_coefficients A0)
                (set_c_ (c_ s + nd_size dims) s)))
          (logs w)).
Proof.
  intros Hshape HA HB HI Hwf Hsh Hdims Hlen s. subst s.
  assert (Hsize : length (nd_data A0) = nd_size dims * ncol).
  { rewrite Hwf, Hsh. apply nd_size_app. }
  unfold add_constraints_to_least_squares, nonzero_coefficients.
  rewrite (np_any_isnan_false _ HA), (np_any_isnan_false _ HB),
    (np_any_isnan_index_false _ HI).
  destruct A0 as [sh dataA]. simpl in Hsh, Hsize, Hlen. subst sh.
  change (false || false || false) with false. cbv iota. cbn [nd_data].
  assert (Hnr1 : nd_size dims * ncol = length dataA) by (symmetry; exact Hsize).
  set (keep := map negb (map (fun a => PrimFloat.eqb a 0%float) dataA)).
  set (rows := map (fun p => c_ (self w) + p / ncol) (seq 0 (length dataA))).
  exists (select rows keep).
  assert (Hkeep : length keep = length dataA).
  { unfold keep. rewrite !length_map. reflexivity. }
  assert (Hrows : length rows = length dataA).
  { unfold rows. rewrite length_map, length_seq. reflexivity. }
  assert (Hav : select dataA keep =
                List.filter (fun a => negb (PrimFloat.eqb a 0%float)) dataA).
  { unfold keep. rewrite map_map. apply select_map_filter. }
  split.
  { rewrite <- Hav. apply length_select_same; congruence. }
  assert (Hne : (length (nd_data idc) =? length keep) = false).
  { apply Nat.eqb_neq. congruence. }
  assert (Hcases : (exists d0, dims = [d0]) \/ (exists d0 d1, dims = [d0; d1])).
  { destruct Hdims as [H | H].
    - destruct dims as [|d0 [|]]; try discriminate. left. exists d0. reflexivity.
    - destruct dims as [|d0 [|d1 [|]]]; try discriminate. right. exists d0, d1.
      reflexivity. }
  destruct Hcases as [(d0 & ->) | (d0 & d1 & ->)];
    unfold nd_size in *; cbn [fold_right] in *; rewrite Nat.mul_1_r in *;
    unfold bind, lift, ret, get_self, modify, shape_at, shape_last;
    cbn [nd_shape app length lookup list_lookup last Nat.ltb Nat.leb];
    rewrite Hshape; cbn [String.eqb Ascii.eqb Bool.eqb];
    rewrite rows_pipeline, Hnr1; unfold bool_index, flatten; cbn [nd_data];
    fold keep; fold rows;
    rewrite Hkeep, Hrows, Nat.eqb_refl, Hav; cbn [self logs];
    rewrite <- Hkeep, Hne; reflexivity.
Qed.

(** On an interpolator whose shape is not "rectangular" a NaN-free two- or
    three-dimensional batch is counted but not stored: the call returns, [c_]
    grows by the rows of the batch, and no triplet and no right-hand side is
    recorded. *)
Theorem add_constraints_other_shape_counts_only (A0 B0 : ndarray float)
    (idc : ndarray Index) (w : World) (dims : list nat) (ncol : nat) :
  shape (self w) <> "rectangular" ->
  ~ contains_nan A0 -> ~ contains_nan B0 -> ~ contains_nan_index idc ->
  nd_shape A0 = dims ++ [ncol] ->
  length dims = 1 \/ length dims = 2 ->
  add_constraints_to_least_squares A0 B0 idc w =
    (Ok tt, mkWorld (set_c_ (c_ (self w) + nd_size dims) (self w)) (logs w)).
Proof.
  intros Hshape HA HB HI Hsh Hdims.
  unfold add_constraints_to_least_squares.
  rewrite (np_any_isnan_false _ HA), (np_any_isnan_false _ HB),
    (np_any_isnan_index_false _ HI).
  destruct A0 as [sh dataA]. simpl in Hsh. subst sh.
  change (false || false || false) with false. cbv iota.
  apply String.eqb_neq in Hshape.
  assert (Hcases : (exists d0, dims = [d0]) \/ (exists d0 d1, dims = [d0; d1])).
  { destruct Hdims as [H | H].
    - destruct dims as [|d0 [|]]; try discriminate. left. exists d0. reflexivity.
    - destruct dims as [|d0 [|d1 [|]]]; try discriminate. right. exists d0, d1.
      reflexivity. }
  destruct Hcases as [(d0 & ->) | (d0 & d1 & ->)];
    unfold nd_size; cbn [fold_right]; rewrite Nat.mul_1_r;
    unfold bind, lift, ret, get_self, modify, shape_at, shape_last;
    cbn [nd_shape app length lookup list_lookup last Nat.ltb Nat.leb self logs];
    cbn [set_c_ shape]; rewrite Hshape; reflexivity.
Qed.

(** A one-dimensional coefficient array of two or more entries is not a batch
    the code can store: the row numbers it builds form a square array, so on
    a rectangular-shape interpolator the call raises IndexError, after [c_]
    was advanced by the length of the array and its nonzero entries were
    appended to [A]. *)
Theorem add_constraints_one_dimensional (A0 B0 : ndarray float)
    (idc : ndarray Index) (w : World) (n : nat) :
  shape (self w) = "rectangular" ->
  ~ contains_nan A0 -> ~ contains_nan B0 -> ~ contains_nan_index idc ->
  nd_wf A0 ->
  nd_shape A0 = [n] ->
  2 <= n ->
  let s := self w in
  add_constraints_to_least_squares A0 B0 idc w =
    (Raise IndexError,
     mkWorld (set_A (A s ++ nonzero_coefficients A0) (set_c_ (c_ s + n) s))
       (logs w)).
Proof.
  intros Hshape HA HB HI Hwf Hsh Hn s. subst s.
  assert (Hsize : length (nd_data A0) = n).
  { rewrite Hwf, Hsh. unfold nd_size. simpl. lia. }
  unfold add_constraints_to_least_squares, nonzero_coefficients.
  rewrite (np_any_isnan_false _ HA), (np_any_isnan_false _ HB),
    (np_any_isnan_index_false _ HI).
  destruct A0 as [sh dataA]. simpl in Hsh, Hsize. subst sh.
  change (false || false || false) with false. cbv iota. cbn [nd_data].
  set (keep := map negb (map (fun a => PrimFloat.eqb a 0%float) dataA)).
  assert (Hkeep : length keep = n).
  { unfold keep. rewrite !length_map. exact Hsize. }
  assert (Hav : select dataA keep =
                List.filter (fun a => negb (PrimFloat.eqb a 0%float)) dataA).
  { unfold keep. rewrite map_map. apply select_map_filter. }
  unfold bind, lift, ret, get_self, modify, shape_at, shape_last.
  cbn [nd_shape app length lookup list_lookup last Nat.ltb Nat.leb].
  rewrite Hshape. cbn [String.eqb Ascii.eqb Bool.eqb].
  rewrite rows_pipeline. unfold bool_index, flatten. cbn [nd_data].
  fold keep. rewrite Hkeep, Hsize, Nat.eqb_refl, Hav. cbn [self logs].
  rewrite length_map, length_seq.
  assert (Hne : (n * n =? n) = false) by (apply Nat.eqb_neq; nia).
  rewrite Hne. reflexivity.
Qed.

(** ** Equality constraints the code rejects *)

Lemma np_getitem_out_of_range {X : Type} (a : list X) (idx : list nat) :
  (exists i, i ∈ idx /\ length a <= i) -> np_getitem a idx = Raise IndexError.
Proof.
  intros (i & Hin & Hi).
  induction idx as [|j idx IH]; [inversion Hin |].
  simpl. destruct (a !! j) as [x |] eqn:Hj; [| reflexivity].
  apply elem_of_cons in Hin as [-> | Hin].
  - apply lookup_lt_Some in Hj. lia.
  - rewrite (IH Hin). reflexivity.
Qed.

(** A node index that is not a node of the support makes
    [add_equality_constraints] raise IndexError before it has stored
    anything: the object and the log are untouched, also for the valid
    indices given with it. *)
Theorem add_equality_constraints_node_out_of_range (node_idx : list nat)
    (values : list float) (w : World) (sel : list nat) :
  region_ok (self w) sel ->
  (exists i, i ∈ node_idx /\ n_nodes (support (self w)) <= i) ->
  add_equality_constraints node_idx values w = (Raise IndexError, w).
Proof.
  intros (Hsel & _ & Hnx) Hout.
  pose proof (region_indices_lt _ _ _ Hsel) as Hlt.
  unfold add_equality_constraints, bind, get_self, lift.
  rewrite repeat_length, Hsel.
  unfold np_setitem. rewrite repeat_length.
  rewrite (proj2 (forallb_ltb_Forall _ _) Hlt).
  rewrite length_map, length_seq, Hnx, Nat.eqb_refl.
  rewrite np_getitem_out_of_range; [reflexivity |].
  rewrite length_scatter, repeat_length. exact Hout.
Qed.

Lemma length_select_in_region (sel : list nat) (gi : list Z) (node_idx : list nat)
    (idc : list Z) :
  (forall i y, gi !! i = Some y ->
     (y = (-1)%Z /\ i ∉ sel) \/ (exists p, y = Z.of_nat p /\ sel !! p = Some i)) ->
  Forall2 (fun i y => gi !! i = Some y) node_idx idc ->
  length (select idc (map (fun x => negb (x =? -1)%Z) idc)) =
  length (List.filter (fun i => bool_decide (i ∈ sel)) node_idx).
Proof.
  intros Hgi HF. induction HF as [|i y node_idx idc Hy HF IH]; [reflexivity |].
  simpl. destruct (Hgi i y Hy) as [[-> Hni] | (p & -> & Hp)].
  - simpl. rewrite bool_decide_eq_false_2 by assumption. exact IH.
  - assert (Hne : (Z.of_nat p =? -1)%Z = false) by (apply Z.eqb_neq; lia).
    rewrite Hne. simpl.
    rewrite bool_decide_eq_true_2 by (eapply list_elem_of_lookup_2; exact Hp).
    simpl. f_equal. exact IH.
Qed.

(** The values are not validated against the node indices.  When there are
    more or fewer values than indices (all of them nodes of the support), the
    call raises IndexError only after it has appended, for the [k] indices in
    the region, [k] unit coefficients, [k] columns and the rows [0..k-1];
    the targets [eq_const_d] and the counter [eq_const_c_] are left as they
    were. *)
Theorem add_equality_constraints_values_mismatch (node_idx : list nat)
    (values : list float) (w : World) (sel : list nat) :
  region_ok (self w) sel ->
  Forall (fun i => i < n_nodes (support (self w))) node_idx ->
  length values <> length node_idx ->
  let s := self w in
  let k := length (List.filter (fun i => bool_decide (i ∈ sel)) node_idx) in
  exists cols : list Z,
    length cols = k
    /\ add_equality_constraints node_idx values w =
       (Raise IndexError,
        mkWorld
          (set_eq_const_row (eq_const_row s ++ seq 0 k)
             (set_eq_const_col (eq_const_col s ++ cols)
                (set_eq_const_C (eq_const_C s ++ repeat 1%float k) s)))
          (logs w)).
Proof.
  intros (Hsel & Hnd & Hnx) Hidx Hlen s k. subst s.
  pose proof (region_indices_lt _ _ _ Hsel) as Hlt.
  set (gi := scatter (repeat (-1)%Z (n_nodes (support (self w)))) sel
               (map Z.of_nat (seq 0 (length sel)))).
  assert (Hgilen : length gi = n_nodes (support (self w))).
  { unfold gi. rewrite length_scatter, repeat_length. reflexivity. }
  destruct (np_getitem_Forall2 gi node_idx) as (idc & Hget & HF).
  { rewrite Hgilen. exact Hidx. }
  pose proof (length_select_in_region sel gi node_idx idc
                (fun i y => gi_lookup sel _ i y Hnd Hlt) HF) as Hk.
  fold k in Hk.
  exists (select idc (map (fun x => negb (x =? -1)%Z) idc)).
  split; [exact Hk |].
  unfold add_equality_constraints, bind, get_self, lift, modify. simpl.
  rewrite repeat_length, Hsel.
  unfold np_setitem. rewrite repeat_length.
  rewrite (proj2 (forallb_ltb_Forall _ _) Hlt).
  rewrite length_map, length_seq, Hnx, Nat.eqb_refl.
  fold gi. rewrite Hget.
  unfold bool_index. rewrite length_map.
  rewrite <- (Forall2_length _ _ _ HF).
  rewrite (proj2 (Nat.eqb_neq _ _) Hlen), Hk. reflexivity.
Qed.

(** ** Equality constraints added in more than one call *)

Lemma coo_entry_acc (trip : list (float * nat * Z)) (i j : nat) (acc : option float) :
  Forall (fun t => t.1.2 <> i) trip ->
  fold_left
    (fun acc t =>
       if (t.1.2 =? i) && (t.2 =? Z.of_nat j)%Z then sp_acc acc t.1.1 else acc)
    trip acc = acc.
Proof.
  revert acc. induction trip as [|t trip IH]; intros acc H; [reflexivity |].
  apply Forall_cons in H as [Ht H]. simpl.
  rewrite (proj2 (Nat.eqb_neq _ _) Ht). simpl. apply IH, H.
Qed.

(** A row no triplet names is structurally empty. *)
Lemma coo_entry_no_row (trip : list (float * nat * Z)) (i j : nat) :
  Forall (fun t => t.1.2 <> i) trip -> coo_entry trip i j = None.
Proof. apply coo_entry_acc. Qed.

Lemma zip_rows_bound (Cv : list float) (rowv : list nat) (colv : list Z) (m : nat) :
  Forall (fun r => r < m) rowv ->
  Forall (fun t : float * nat * Z => t.1.2 < m) (zip (zip Cv rowv) colv).
Proof.
  intros H. apply Forall_forall. intros t Ht.
  apply elem_of_zip_l_r in Ht as [Ht _].
  apply elem_of_zip_l_r in Ht as [_ Ht].
  rewrite Forall_forall in H. apply H, Ht.
Qed.

(** The number of pairs [add_equality_constraints] keeps. *)
Definition kept_pairs (sel : list nat) (node_idx : list nat) (values : list float)
  : nat :=
  length (List.filter (fun iv => bool_decide (iv.1 ∈ sel)) (zip node_idx values)).

(** Each call numbers its rows from 0, whatever is stored already.  So when
    equality constraints are added to an empty store in two calls that keep
    [k1] and [k2] pairs, the store holds the rows [0..k1-1] followed by
    [0..k2-1] while [eq_const_c_] is [k1 + k2]: the store stays well formed,
    so [build_matrix] assembles it, but the rows of the second call land on
    those of the first, and every row of the equality block from
    [max k1 k2] on is structurally empty, although it has a target in
    [eq_const_d]. *)
Theorem add_equality_constraints_twice (idx1 idx2 : list nat)
    (values1 values2 : list float) (w : World) (sel : list nat) :
  region_ok (self w) sel ->
  eq_const_C (self w) = [] -> eq_const_row (self w) = [] ->
  eq_const_col (self w) = [] -> eq_const_d (self w) = [] ->
  eq_const_c_ (self w) = 0 ->
  Forall (fun i => i < n_nodes (support (self w))) idx1 ->
  Forall (fun i => i < n_nodes (support (self w))) idx2 ->
  length values1 = length idx1 ->
  length values2 = length idx2 ->
  let k1 := kept_pairs sel idx1 values1 in
  let k2 := kept_pairs sel idx2 values2 in
  exists w',
    (do_ add_equality_constraints idx1 values1;
     add_equality_constraints idx2 values2) w = (Ok tt, w')
    /\ eq_const_row (self w') = seq 0 k1 ++ seq 0 k2
    /\ eq_const_c_ (self w') = k1 + k2
    /\ length (eq_const_d (self w')) = k1 + k2
    /\ eq_wf (self w')
    /\ (forall i j, Nat.max k1 k2 <= i -> sp_entry (eq_matrix (self w')) i j = None).
Proof.
  intros Hreg HC Hrow Hcol Hd Hc Hidx1 Hidx2 Hlen1 Hlen2 k1 k2.
  destruct (add_equality_constraints_run idx1 values1 w sel Hreg Hidx1 Hlen1)
    as (cols1 & Hcols1 & Hrun1).
  fold (kept_pairs sel idx1 values1) in Hrun1. fold k1 in Hrun1.
  rewrite HC, Hrow, Hcol, Hd, Hc in Hrun1. cbn [app Nat.add] in Hrun1.
  set (s1 := with_eq_store (repeat 1%float k1) (seq 0 k1) cols1
               (map snd (List.filter (fun iv => bool_decide (iv.1 ∈ sel))
                           (zip idx1 values1))) k1 (self w)) in *.
  assert (Hreg1 : region_ok s1 sel) by exact Hreg.
  destruct (add_equality_constraints_run idx2 values2 (mkWorld s1 (logs w)) sel
              Hreg1 Hidx2 Hlen2) as (cols2 & Hcols2 & Hrun2).
  fold (kept_pairs sel idx2 values2) in Hrun2. fold k2 in Hrun2.
  cbn [self logs] in Hrun2.
  assert (Hl1 : length cols1 = k1).
  { rewrite <- (Forall2_length _ _ _ Hcols1). reflexivity. }
  assert (Hl2 : length cols2 = k2).
  { rewrite <- (Forall2_length _ _ _ Hcols2). reflexivity. }
  assert (Hb : forall (cols : list Z) (retained : list (nat * float)),
             Forall2 (fun iv cj => exists p, cj = Z.of_nat p /\ sel !! p = Some iv.1)
               retained cols ->
             Forall (fun cj => (0 <= cj < Z.of_nat (nx (self w)))%Z) cols).
  { intros cols retained HF. destruct Hreg as (_ & _ & Hnx). rewrite Hnx.
    eapply Forall2_Forall_r; [exact HF |].
    apply Forall_forall. intros iv _ cj (p & -> & Hp).
    apply lookup_lt_Some in Hp. lia. }
  eexists. split.
  { unfold bind. rewrite Hrun1. exact Hrun2. }
  cbn [self]. subst s1.
  split; [reflexivity |]. split; [reflexivity |].
  split.
  { cbn. rewrite length_app, !length_map. reflexivity. }
  split.
  { unfold eq_wf. cbn.
    rewrite !length_app, !repeat_length, !length_seq, !length_map, Hl1, Hl2.
    split; [reflexivity |]. split; [reflexivity |].
    split; [| split; [| reflexivity]].
    - apply Forall_app. split; apply Forall_forall; intros r Hr;
        apply elem_of_seq in Hr; lia.
    - apply Forall_app. split; [exact (Hb _ _ Hcols1) | exact (Hb _ _ Hcols2)]. }
  intros i j Hi. unfold eq_matrix. cbn [sp_entry].
  apply coo_entry_no_row.
  eapply Forall_impl.
  - apply (zip_rows_bound _ _ _ (Nat.max k1 k2)). cbn.
    apply Forall_app. split; apply Forall_forall; intros r Hr;
      apply elem_of_seq in Hr; lia.
  - cbn. intros t Ht. lia.
Qed.

(** ** Columns outside the matrix *)

Lemma coo_check_column_out_of_range (data : list float) (rowv : list nat)
    (colv : list Z) (m n : nat) :
  (exists cj, cj ∈ colv /\ ~ (0 <= cj < Z.of_nat n)%Z) ->
  coo_check data rowv colv (m, n) = false.
Proof.
  intros (cj & Hin & Hout). unfold coo_check.
  apply andb_false_iff. right.
  apply not_true_is_false. intros Hall.
  rewrite forallb_forall in Hall.
  specialize (Hall cj (proj1 (list_elem_of_In _ _) Hin)). cbn in Hall.
  apply andb_true_iff in Hall as [H1 H2].
  apply Z.leb_le in H1. apply Z.ltb_lt in H2. apply Hout. lia.
Qed.

(** The column indices a batch brings are stored as they are; they are
    checked only when the matrix is assembled.  A stored column that is
    negative or not below [nx] makes [build_matrix] raise ValueError, for
    either layout and with or without damping, after it has logged the matrix
    size; the object is not changed. *)
Theorem build_matrix_column_out_of_range (square damp : bool) (w : World) :
  (exists cj, cj ∈ col (self w)
              /\ ~ (0 <= index_cast cj < Z.of_nat (nx (self w)))%Z) ->
  build_matrix square damp w =
    (Raise ValueError, mkWorld (self w) (logs w ++ [log_matrix_size (self w)])).
Proof.
  intros (cj & Hin & Hout).
  unfold build_matrix, bind, get_self, logger, log_to, lift.
  cbn [self logs fst snd].
  unfold coo_matrix.
  rewrite coo_check_column_out_of_range; [reflexivity |].
  exists (index_cast cj). split; [| exact Hout].
  apply list_elem_of_fmap. exists cj. split; [reflexivity | exact Hin].
Qed.

(** ** The region map *)

Lemma select_seq_lookup (mask : list bool) (a i : nat) :
  mask !! i = Some true ->
  select (seq a (length mask)) mask !! length (List.filter id (take i mask)) =
  Some (a + i).
Proof.
  revert a i. induction mask as [|b mask IH]; intros a [|i] H; try discriminate.
  - injection H as ->. simpl. f_equal. lia.
  - simpl in H. specialize (IH (S a) i H).
    replace (a + S i) with (S a + i) by lia.
    destruct b; simpl; exact IH.
Qed.

Lemma select_seq_notin (mask : list bool) (a i : nat) :
  mask !! i = Some false -> a + i ∉ select (seq a (length mask)) mask.
Proof.
  revert a i. induction mask as [|b mask IH]; intros a [|i] H; try discriminate.
  - injection H as ->. simpl. intros Hin.
    apply (select_seq_bounds mask (S a)) in Hin. lia.
  - simpl in H. specialize (IH (S a) i H).
    replace (a + S i) with (S a + i) by lia.
    destruct b; simpl; [| exact IH].
    apply not_elem_of_cons. split; [lia | exact IH].
Qed.

Lemma lookup_repeat_lt {X : Type} (x : X) (n i : nat) :
  i < n -> repeat x n !! i = Some x.
Proof.
  revert i. induction n as [|n IH]; intros [|i] H; simpl; try lia; [reflexivity |].
  apply IH. lia.
Qed.

(** The constraints accumulated so far and the solution. *)
Definition accumulated_state (s : DiscreteInterpolator) :=
  ((A s, row s, col s, B s, c_ s),
   (eq_const_C s, eq_const_row s, eq_const_col s, eq_const_d s, eq_const_c_ s),
   (solver s, up_to_date s, shape s, propertyname s),
   support s, c s).

(** After [set_region] with a region function that returns a boolean mask
    over the nodes, [region_map] has one entry per node: a node inside the
    region is mapped to its rank among the nodes inside (the number of nodes
    inside before it), a node outside to 0, which is also the rank of the
    first node inside.  The constraints accumulated before the call are kept
    as they are: their columns are not renumbered for the new region, and the
    interpolator is not marked out of date. *)
Theorem set_region_ranks_nodes (f : list point -> Region) (mask : list bool) (w : World) :
  f (nodes (support (self w))) = BoolMask mask ->
  length mask = n_nodes (support (self w)) ->
  length (nodes (support (self w))) = n_nodes (support (self w)) ->
  let s' := self (set_region f w).2 in
  length (region_map s') = n_nodes (support (self w))
  /\ (forall i, mask !! i = Some true ->
        region_map s' !! i = Some (length (List.filter id (take i mask))))
  /\ (forall i, mask !! i = Some false -> region_map s' !! i = Some 0)
  /\ accumulated_state s' = accumulated_state (self w).
Proof.
  intros Hf Hlen Hnodes.
  assert (Hsel : region_indices (BoolMask mask) (n_nodes (support (self w))) =
                 Ok (mask_indices mask)).
  { cbn. rewrite Hlen, Nat.eqb_refl. reflexivity. }
  pose proof (region_indices_lt _ _ _ Hsel) as Hlt.
  unfold set_region, bind, get_self, modify, lift. cbn [self logs].
  rewrite Hf, repeat_length, Hsel.
  unfold np_setitem. rewrite repeat_length.
  rewrite (proj2 (forallb_ltb_Forall _ _) Hlt), length_seq, Nat.eqb_refl.
  rewrite Hnodes, Hsel.
  cbn [self snd region_map set_nx set_region_map set_region_attr
       set_region_function].
  split; [rewrite length_scatter; apply repeat_length |].
  split; [| split; [| reflexivity]].
  - intros i Hi.
    pose proof (select_seq_lookup mask 0 i Hi) as Hp. fold (mask_indices mask) in Hp.
    eapply scatter_lookup_in; [apply select_seq_NoDup | exact Hp | |].
    + apply lookup_seq_lt. eapply lookup_lt_Some. exact Hp.
    + rewrite repeat_length, <- Hlen. eapply lookup_lt_Some. exact Hi.
  - intros i Hi.
    rewrite scatter_lookup_notin by exact (select_seq_notin mask 0 i Hi).
    apply lookup_repeat_lt. rewrite <- Hlen. eapply lookup_lt_Some. exact Hi.
Qed.

(** * Evaluating the interpolant *)

(** The two methods hand the points to the support, whose [evaluate_value]
    and [evaluate_gradient] are given per mesh type: here they are variables,
    functions of the support, the points and the property name that return an
    array or raise. *)

Definition point_coords (p : point) : list float := [p.1.1; p.1.2; p.2].

(** [np.any(evaluation_points == np.nan, axis=1)] *)
Definition np_any_eq_nan (evaluation_points : list point) : list bool :=
  map (fun p => existsb (fun x => PrimFloat.eqb x nan) (point_coords p))
    evaluation_points.

(** [a[mask] = vals] with a boolean mask: IndexError when the mask has
    another length than [a], ValueError when [vals] has neither one entry per
    selected position nor a single entry. *)
Definition np_setitem_mask {X : Type} (a : list X) (mask : list bool) (vals : list X)
  : result (list X) :=
  if length mask =? length a then np_setitem a (mask_indices mask) vals
  else Raise IndexError.

Section Evaluate.

Variable support_evaluate_value : Support -> list point -> string -> result (list float).
Variable support_evaluate_gradient : Support -> list point -> string -> result (list point).

Definition evaluate_value (evaluation_points : list point) : M (list float) :=
  do s <- get_self;
  let evaluated := repeat 0%float (length evaluation_points) in
  let mask := np_any_eq_nan evaluation_points in
  let keep := map negb mask in
  do pts <- lift (bool_index evaluation_points keep);
  if 0 <? length pts then
    do pts' <- lift (bool_index evaluation_points keep);
    do vals <- lift (support_evaluate_value (support s) pts' (propertyname s));
    lift (np_setitem_mask evaluated keep vals)
  else ret evaluated.

Definition evaluate_gradient (evaluation_points : list point) : M (list point) :=
  do s <- get_self;
  if 0 <? length evaluation_points then
    lift (support_evaluate_gradient (support s) evaluation_points (propertyname s))
  else ret [].

Lemma eqb_nan_false (x : float) : PrimFloat.eqb x nan = false.
Proof.
  rewrite FloatAxioms.eqb_spec.
  change (FloatOps.Prim2SF nan) with SpecFloat.S754_nan.
  unfold SpecFloat.SFeqb, SpecFloat.SFcompare.
  destruct (FloatOps.Prim2SF x) as [[|] | [|] | | [|] m e]; reflexivity.
Qed.

(** The comparison with [np.nan] holds for no number, NaN included: the mask
    is never set. *)
Lemma np_any_eq_nan_false (evaluation_points : list point) :
  np_any_eq_nan evaluation_points = repeat false (length evaluation_points).
Proof.
  induction evaluation_points as [|p pts IH]; [reflexivity |].
  simpl. rewrite !eqb_nan_false, IH. reflexivity.
Qed.

Lemma select_all {X : Type} (a : list X) :
  select a (repeat true (length a)) = a.
Proof. induction a as [|x a IH]; [reflexivity |]. simpl. rewrite IH. reflexivity. Qed.

Lemma map_negb_repeat_false (n : nat) :
  map negb (repeat false n) = repeat true n.
Proof. induction n as [|n IH]; [reflexivity |]. simpl. rewrite IH. reflexivity. Qed.

Lemma mask_indices_all (n : nat) : mask_indices (repeat true n) = seq 0 n.
Proof.
  unfold mask_indices. rewrite repeat_length.
  generalize 0. induction n as [|n IH]; intros a; [reflexivity |].
  simpl. rewrite IH. reflexivity.
Qed.

Lemma scatter_seq_all {X : Type} (vals a : list X) (pre : list X) :
  length a = length vals ->
  scatter (pre ++ a) (seq (length pre) (length vals)) vals = pre ++ vals.
Proof.
  revert a pre. induction vals as [|v vals IH]; intros a pre Hlen.
  - destruct a; [reflexivity | discriminate].
  - destruct a as [|x a]; [discriminate |]. injection Hlen as Hlen.
    unfold scatter in *. simpl.
    rewrite insert_app_r_alt by lia. rewrite Nat.sub_diag. simpl.
    specialize (IH a (pre ++ [v]) Hlen).
    rewrite length_app in IH. simpl in IH. rewrite Nat.add_1_r in IH.
    rewrite <- !app_assoc in IH. exact IH.
Qed.

(** [evaluate_value] filters nothing.  A point with a NaN coordinate is
    handed to the support like every other point, and when the support
    returns one value per point the result is exactly what it returned; the
    object and the log are untouched.  (For no points at all the support is
    not called and the result is empty.) *)
Theorem evaluate_value_keeps_nan_points (evaluation_points : list point)
    (vals : list float) (w : World) :
  (evaluation_points <> [] ->
   support_evaluate_value (support (self w)) evaluation_points
     (propertyname (self w)) = Ok vals) ->
  length vals = length evaluation_points ->
  evaluate_value evaluation_points w = (Ok vals, w).
Proof.
  intros Hsup Hlen.
  unfold evaluate_value, bind, get_self, lift, ret, bool_index.
  rewrite np_any_eq_nan_false, map_negb_repeat_false, repeat_length, Nat.eqb_refl.
  rewrite select_all.
  destruct evaluation_points as [|p pts].
  - destruct vals; [reflexivity | discriminate].
  - cbn [length Nat.ltb Nat.leb].
    rewrite Hsup by discriminate.
    unfold np_setitem_mask, np_setitem.
    rewrite !repeat_length, Nat.eqb_refl, mask_indices_all, length_seq.
    rewrite (proj2 (forallb_ltb_Forall _ _)).
    2:{ apply Forall_forall. intros i Hi. apply elem_of_seq in Hi. lia. }
    rewrite Hlen, Nat.eqb_refl.
    pose proof (scatter_seq_all vals (repeat 0%float (length (p :: pts))) []) as H.
    rewrite repeat_length in H. specialize (H (eq_sym Hlen)).
    cbn [app length] in H. rewrite Hlen in H. cbn [length] in H.
    rewrite H. reflexivity.
Qed.

End Evaluate.

(** * Interpolation weights *)

Definition set_up_to_date (v : bool) (s : DiscreteInterpolator) :=
  mkDI (shape s) (propertyname s) v (B s) (support s) (region_function s)
    (region s) (region_map s) (nx s) (c_ s) (A s) (col s) (row s) (solver s)
    (eq_const_C s) (eq_const_row s) (eq_const_col s) (eq_const_d s) (eq_const_c_ s) (c s).

Definition set_solver (v : option string) (s : DiscreteInterpolator) :=
  mkDI (shape s) (propertyname s) (up_to_date s) (B s) (support s) (region_function s)
    (region s) (region_map s) (nx s) (c_ s) (A s) (col s) (row s) v
    (eq_const_C s) (eq_const_row s) (eq_const_col s) (eq_const_d s) (eq_const_c_ s) (c s).

(** [set_interpolation_weights(weights)].  The dictionary
    [self.interpolation_weights] is created by the base class; it is passed
    in and returned here.  The loop visits every key of [weights] once; the
    order does not show in the result. *)
Definition set_interpolation_weights (weights : gmap string float)
    (interpolation_weights : gmap string float) : M (gmap string float) :=
  map_fold
    (fun key v (loop : M (gmap string float)) =>
       do iw <- loop;
       do_ modify (set_up_to_date false);
       ret (<[key := v]> iw))
    (ret interpolation_weights) weights.

Lemma set_interpolation_weights_run (weights iw : gmap string float) (w : World) :
  set_interpolation_weights weights iw w =
    (Ok (weights ∪ iw),
     if decide (weights = ∅) then w
     else mkWorld (set_up_to_date false (self w)) (logs w)).
Proof.
  unfold set_interpolation_weights. revert w.
  refine (map_fold_weak_ind
            (fun (r : M (gmap string float)) (m : gmap string float) =>
               forall w, r w =
                 (Ok (m ∪ iw),
                  if decide (m = ∅) then w
                  else mkWorld (set_up_to_date false (self w)) (logs w)))
            _ _ _ _ weights).
  - intros w. rewrite (left_id_L ∅ (∪)). reflexivity.
  - intros key v m r Hkey IH w.
    unfold bind. rewrite IH. unfold modify, ret. cbn [fst snd].
    rewrite insert_union_l.
    destruct (decide (<[key:=v]> m = ∅)) as [He | _].
    { exfalso. exact (insert_non_empty m key v He). }
    destruct (decide (m = ∅)); reflexivity.
Qed.

(** [set_interpolation_weights] merges the given weights into the stored
    ones: a key it is given gets the new weight, every other key keeps the
    weight it had.  The interpolator is marked out of date as soon as one
    weight is given, also when the weight given is the one already stored;
    an empty dictionary changes nothing.  No other attribute changes and
    nothing is logged. *)
Theorem set_interpolation_weights_merges (weights iw : gmap string float)
    (w : World) :
  let r := set_interpolation_weights weights iw w in
  exists iw',
    r.1 = Ok iw'
    /\ (forall key v, weights !! key = Some v -> iw' !! key = Some v)
    /\ (forall key, weights !! key = None -> iw' !! key = iw !! key)
    /\ up_to_date (self r.2) =
       (if decide (weights = ∅) then up_to_date (self w) else false)
    /\ set_up_to_date true (self r.2) = set_up_to_date true (self w)
    /\ logs r.2 = logs w.
Proof.
  intros r. subst r. rewrite set_interpolation_weights_run. cbn [fst snd].
  exists (weights ∪ iw). split; [reflexivity |].
  split; [intros key v H; apply lookup_union_Some_l, H |].
  split; [intros key H; apply lookup_union_r, H |].
  destruct (decide (weights = ∅)); repeat split.
Qed.

Lemma solve_attr_some (env : Backends) (name : string) (kw : Kwargs) (w : World) :
  solver (self w) = Some name ->
  _solve_attr env kw w = _solve env name kw w.
Proof.
  intros Hs. unfold _solve_attr.
  unfold bind at 1. unfold get_self at 1. cbn [fst snd self]. rewrite Hs.
  reflexivity.
Qed.

(** When no solver is recorded, [self._solve(self.solver)] does what [_solve]
    does for any name it does not know. *)
Lemma solve_attr_none (env : Backends) (name : string) (kw : Kwargs) (w : World) :
  solver (self w) = None ->
  name ∉ supported_solvers ->
  _solve_attr env kw w = _solve env name kw w.
Proof.
  intros Hs Hn. unfold _solve_attr, _solve.
  unfold bind at 1. unfold get_self at 1. cbn [fst snd self]. rewrite Hs.
  assert (Hl : String.eqb name "lsqr" = false).
  { apply String.eqb_neq. intros ->. apply Hn.
    unfold supported_solvers.
    repeat first [apply list_elem_of_here | apply list_elem_of_further]. }
  rewrite Hl. unfold bind, modify, get_self. cbn [fst snd self logs].
  destruct (build_matrix true (damp_flag kw) _) as [[sys | e] w2]; [| reflexivity].
  rewrite (run_solver_unknown env name kw sys.1 sys.2 Hn). reflexivity.
Qed.

(** Giving a weight makes the next [update] solve again.  On an interpolator
    that has a solver recorded, [update] called after
    [set_interpolation_weights] with at least one weight runs
    [setup_interpolator] on the object marked out of date, even when it was
    up to date before, and then [self._solve(self.solver)], the attribute
    being read after the setup.  So when [setup_interpolator] returns with
    the solver [name'] recorded, which need not be the solver recorded
    before, what runs is [_solve name'] without keyword arguments; when it
    raises, [update] raises the same and nothing is solved. *)
Theorem new_weights_rerun_on_update (env : Backends) (weights iw : gmap string float)
    (w : World) (name : string) :
  weights <> ∅ ->
  solver (self w) = Some name ->
  let w0 := mkWorld (set_up_to_date false (self w)) (logs w) in
  let run := (do_ set_interpolation_weights weights iw; update env) w in
  run = (do_ setup_interpolator env; do_ _solve_attr env no_kwargs; ret None) w0
  /\ (forall w1 name',
        setup_interpolator env w0 = (Ok tt, w1) ->
        solver (self w1) = Some name' ->
        run = (do_ _solve env name' no_kwargs; ret None) w1)
  /\ (forall w1 e,
        setup_interpolator env w0 = (Raise e, w1) -> run = (Raise e, w1)).
Proof.
  intros Hne Hs w0 run.
  assert (Hrun : run =
            (do_ setup_interpolator env; do_ _solve_attr env no_kwargs; ret None) w0).
  { subst run w0. unfold bind at 1. rewrite set_interpolation_weights_run.
    destruct (decide (weights = ∅)) as [He | _]; [contradiction |].
    cbn [fst snd]. unfold update.
    unfold bind at 1. unfold get_self at 1. cbn [fst snd self].
    cbn [solver up_to_date set_up_to_date]. rewrite Hs. reflexivity. }
  split; [exact Hrun |]. split.
  - intros w1 name' Hsetup Hname. rewrite Hrun.
    unfold bind at 1. rewrite Hsetup. cbn [fst snd].
    unfold bind. rewrite (solve_attr_some env name' no_kwargs w1 Hname).
    reflexivity.
  - intros w1 e Hsetup. rewrite Hrun.
    unfold bind at 1. rewrite Hsetup. reflexivity.
Qed.

(** * From a batch to the assembled matrix *)

Lemma fold_no_match {X : Type} (m : X -> bool) (val : X -> float) (l : list X)
    (acc : option float) :
  Forall (fun e => m e = false) l ->
  fold_left (fun acc e => if m e then sp_acc acc (val e) else acc) l acc = acc.
Proof.
  revert acc. induction l as [|e l IH]; intros acc H; [reflexivity |].
  apply Forall_cons in H as [He H]. simpl. rewrite He. apply IH, H.
Qed.

(** One matching element: the fold yields its value. *)
Lemma fold_unique_match {X : Type} (m : X -> bool) (val : X -> float) (l : list X)
    (p : nat) (e : X) :
  l !! p = Some e ->
  (forall q e', q <> p -> l !! q = Some e' -> m e' = false) ->
  fold_left (fun acc e => if m e then sp_acc acc (val e) else acc) l None =
  if m e then Some (val e) else None.
Proof.
  intros Hp Hother.
  rewrite <- (take_drop_middle l p e Hp), fold_left_app.
  assert (Hlt : p < length l) by (eapply lookup_lt_Some; exact Hp).
  rewrite (fold_no_match m val (take p l)).
  2:{ apply Forall_forall. intros e' He'.
      apply list_elem_of_lookup in He' as [q Hq].
      apply lookup_take_Some in Hq as [Hq Hqp].
      apply (Hother q e'); [lia | exact Hq]. }
  simpl. rewrite fold_no_match.
  2:{ apply Forall_forall. intros e' He'.
      apply list_elem_of_lookup in He' as [q Hq].
      rewrite lookup_drop in Hq.
      apply (Hother (S p + q) e'); [lia | exact Hq]. }
  destruct (m e); reflexivity.
Qed.

Lemma coo_entry_app (old new : list (float * nat * Z)) (i j : nat) :
  coo_entry (old ++ new) i j =
  fold_left
    (fun acc t =>
       if (t.1.2 =? i) && (t.2 =? Z.of_nat j)%Z then sp_acc acc t.1.1 else acc)
    new (coo_entry old i j).
Proof. unfold coo_entry. apply fold_left_app. Qed.

Lemma zip_map3 {X Y1 Y2 Y3 : Type} (f : X -> Y1) (g : X -> Y2) (h : X -> Y3)
    (l : list X) :
  zip (zip (map f l) (map g l)) (map h l) = map (fun e => (f e, g e, h e)) l.
Proof. induction l as [|e l IH]; [reflexivity |]. simpl. rewrite IH. reflexivity. Qed.

(** The triplets of the interpolator after a batch: those it had, then those
    of the batch. *)
Lemma soft_triplets_batch (s : DiscreteInterpolator)
    (kept : list (float * nat * Index)) (Bv : list float) (cnt : nat) :
  length (row s) = length (A s) -> length (col s) = length (A s) ->
  soft_triplets
    (with_soft_store (A s ++ map (fun e => e.1.1) kept)
       (row s ++ map (fun e => e.1.2) kept) (col s ++ map snd kept) Bv cnt s) =
  soft_triplets s ++ map (fun e => (e.1.1, e.1.2, index_cast e.2)) kept.
Proof.
  intros Hr Hc. unfold soft_triplets. cbn.
  rewrite map_app, map_map.
  rewrite (zip_with_app pair (A s) _ (row s) _) by (symmetry; exact Hr).
  rewrite zip_with_app.
  - f_equal. exact (zip_map3 (fun e => e.1.1) (fun e => e.1.2)
                      (fun e => index_cast e.2) kept).
  - rewrite length_zip_with, length_map, Hr, Hc. lia.
Qed.

Lemma fold_batch (l : list (float * nat * Index)) (i j : nat) (acc : option float) :
  fold_left
    (fun acc t =>
       if (t.1.2 =? i) && (t.2 =? Z.of_nat j)%Z then sp_acc acc t.1.1 else acc)
    (map (fun e => (e.1.1, e.1.2, index_cast e.2))
       (List.filter (fun e => negb (PrimFloat.eqb e.1.1 0%float)) l)) acc =
  fold_left
    (fun acc e =>
       if negb (PrimFloat.eqb e.1.1 0%float)
          && ((e.1.2 =? i) && (index_cast e.2 =? Z.of_nat j)%Z)
       then sp_acc acc e.1.1 else acc)
    l acc.
Proof.
  revert acc. induction l as [|e l IH]; intros acc; [reflexivity |].
  simpl. destruct (negb (PrimFloat.eqb e.1.1 0%float)); simpl; apply IH.
Qed.

Lemma batch_lookup (c0 ncol : nat) (Av : list float) (Iv : list Index) (q : nat)
    (e : float * nat * Index) :
  zip (zip Av (map (fun p => c0 + p / ncol) (seq 0 (length Av)))) Iv !! q = Some e ->
  Av !! q = Some e.1.1 /\ e.1.2 = c0 + q / ncol /\ Iv !! q = Some e.2.
Proof.
  intros H. unfold zip in H.
  apply lookup_zip_with_Some in H as (ar & cj & -> & Har & Hcj).
  apply lookup_zip_with_Some in Har as (a & r & -> & Ha & Hr).
  rewrite list_lookup_fmap in Hr.
  rewrite lookup_seq_lt in Hr by (eapply lookup_lt_Some; exact Ha).
  injection Hr as <-. cbn. repeat split; assumption.
Qed.

(** A batch can be read back from the assembled matrix.  After a well-shaped
    NaN-free batch with columns below [nx] was added to a well-formed
    rectangular-shape interpolator, [build_matrix(square=False)] returns a
    matrix of [c_ + nr] rows and the right-hand side extended by [B]; its
    earlier rows are what they were; and in the row [c_ + p / ncol] of the
    flattened position [p] of the batch, at the column [idc[p]], provided no
    other position of that row of the batch names the same column, the matrix
    holds the coefficient [A[p]], or no entry at all when [A[p]] is zero.  A
    column the row of the batch does not name holds no entry. *)
Theorem add_constraints_then_build_matrix (damp : bool) (A0 B0 : ndarray float)
    (idc : ndarray Index) (w : World) (dims : list nat) (ncol : nat) :
  shape (self w) = "rectangular" ->
  ~ contains_nan A0 -> ~ contains_nan B0 -> ~ contains_nan_index idc ->
  nd_wf A0 ->
  nd_shape A0 = dims ++ [ncol] ->
  length dims = 1 \/ length dims = 2 ->
  length (nd_data idc) = length (nd_data A0) ->
  Forall (fun cj => (0 <= index_cast cj < Z.of_nat (nx (self w)))%Z) (nd_data idc) ->
  soft_wf (self w) ->
  let s := self w in
  exists Mx : spmatrix,
    ((do_ add_constraints_to_least_squares A0 B0 idc; build_matrix false damp) w).1 =
      Ok (Mx, B s ++ nd_data B0)
    /\ sp_shape Mx = (c_ s + nd_size dims, nx s)
    /\ (forall i j, i < c_ s -> sp_entry Mx i j = sp_entry (soft_matrix s) i j)
    /\ (forall p a cj j,
          nd_data A0 !! p = Some a -> nd_data idc !! p = Some cj ->
          index_cast cj = Z.of_nat j ->
          (forall q cj', q <> p -> q / ncol = p / ncol ->
             nd_data idc !! q = Some cj' -> index_cast cj' <> Z.of_nat j) ->
          sp_entry Mx (c_ s + p / ncol) j =
          if PrimFloat.eqb a 0%float then None else Some a)
    /\ (forall r j,
          (forall q cj', q / ncol = r -> nd_data idc !! q = Some cj' ->
             index_cast cj' <> Z.of_nat j) ->
          sp_entry Mx (c_ s + r) j = None).
Proof.
  intros Hshape HA HB HI Hwf Hsh Hdims Hlen Hcols Hsoft s.
  pose proof (add_constraints_run A0 B0 idc w dims ncol Hshape HA HB HI Hwf Hsh
                Hdims Hlen) as Hrun.
  cbv zeta in Hrun. fold s in Hrun.
  set (kept := batch_triplets (c_ s) ncol A0 idc) in *.
  set (s' := with_soft_store (A s ++ map (fun e => e.1.1) kept)
               (row s ++ map (fun e => e.1.2) kept) (col s ++ map snd kept)
               (B s ++ nd_data B0) (c_ s + nd_size dims) s) in *.
  assert (Hsize : length (nd_data A0) = nd_size dims * ncol).
  { rewrite Hwf, Hsh. apply nd_size_app. }
  pose proof (batch_triplets_rows (c_ s) ncol (nd_size dims) A0 idc Hsize) as Hrows.
  fold kept in Hrows.
  destruct Hsoft as (Hr & Hc & Hrow & Hcol). fold s in Hr, Hc, Hrow, Hcol.
  assert (Hsoft' : soft_wf s').
  { unfold soft_wf, s'. cbn.
    rewrite !length_app, !length_map, Hr, Hc.
    split; [reflexivity |]. split; [reflexivity |]. split.
    - apply Forall_app. split.
      + eapply Forall_impl; [exact Hrow |]. cbn. intros r Hlt. lia.
      + apply Forall_fmap. eapply Forall_impl; [exact Hrows |].
        cbn. intros e He. lia.
    - apply Forall_app. split; [exact Hcol |].
      apply Forall_fmap, Forall_forall. intros e He.
      rewrite Forall_forall in Hcols. apply Hcols.
      eapply batch_triplets_cols. exact He. }
  assert (Htrip : soft_triplets s' =
                  soft_triplets s ++ map (fun e => (e.1.1, e.1.2, index_cast e.2)) kept).
  { apply soft_triplets_batch; assumption. }
  assert (Hold : Forall (fun t : float * nat * Z => t.1.2 < c_ s) (soft_triplets s)).
  { unfold soft_triplets. apply zip_rows_bound. exact Hrow. }
  exists (mkSp (c_ s + nd_size dims, nx s) (coo_entry (soft_triplets s'))).
  split.
  { unfold bind at 1. rewrite Hrun. cbn [fst snd].
    unfold build_matrix, bind, get_self, logger, log_to, lift, ret.
    cbn [self logs fst snd].
    rewrite (coo_matrix_soft s' Hsoft'). reflexivity. }
  split; [reflexivity |].
  cbn [sp_entry soft_matrix]. rewrite Htrip.
  split; [| split].
  - intros i j Hi. rewrite coo_entry_app. apply coo_entry_acc.
    apply Forall_fmap. eapply Forall_impl; [exact Hrows |].
    cbn. intros e He. lia.
  - intros p a cj j Ha Hcj Hj Huniq.
    rewrite coo_entry_app, coo_entry_no_row.
    2:{ eapply Forall_impl; [exact Hold |]. cbn. intros t Ht. lia. }
    unfold kept, batch_triplets. rewrite fold_batch.
    set (l := zip (zip (nd_data A0)
                     (map (fun p => c_ s + p / ncol) (seq 0 (length (nd_data A0)))))
                (nd_data idc)).
    assert (Hp : l !! p = Some (a, c_ s + p / ncol, cj)).
    { unfold l, zip. apply lookup_zip_with_Some.
      exists (a, c_ s + p / ncol), cj. split; [reflexivity |]. split; [| exact Hcj].
      apply lookup_zip_with_Some. exists a, (c_ s + p / ncol).
      split; [reflexivity |]. split; [exact Ha |].
      rewrite list_lookup_fmap, lookup_seq_lt by (eapply lookup_lt_Some; exact Ha).
      reflexivity. }
    rewrite (fold_unique_match _ (fun e => e.1.1) l p _ Hp).
    + cbn. rewrite Nat.eqb_refl, Hj, Z.eqb_refl.
      destruct (PrimFloat.eqb a 0%float); reflexivity.
    + intros q e' Hq He'.
      apply batch_lookup in He' as (_ & Hrq & Hcq).
      apply andb_false_iff. right.
      destruct (Nat.eqb_spec (e'.1.2) (c_ s + p / ncol)) as [Heq |]; [| reflexivity].
      cbn. apply Z.eqb_neq. apply (Huniq q e'.2 Hq); [lia | exact Hcq].
  - intros r j Hnone.
    rewrite coo_entry_app, coo_entry_no_row.
    2:{ eapply Forall_impl; [exact Hold |]. cbn. intros t Ht. lia. }
    unfold kept, batch_triplets. rewrite fold_batch.
    apply fold_no_match. apply Forall_forall. intros e' He'.
    apply list_elem_of_lookup in He' as [q He'].
    apply batch_lookup in He' as (_ & Hrq & Hcq).
    apply andb_false_iff. right.
    destruct (Nat.eqb_spec (e'.1.2) (c_ s + r)) as [Heq |]; [| reflexivity].
    cbn. apply Z.eqb_neq. apply (Hnone q e'.2); [lia | exact Hcq].
Qed.

(** * Solving by least squares leaves the equality constraints out *)

(** With ["lsqr"] the system is the rectangular one, so whatever equality
    constraints are stored, [_solve] publishes the field the soft constraints
    alone determine: the same solver call, on the same matrix and
    right-hand side, and the same published array as without them.  The
    values pinned with [add_equality_constraints] are not imposed. *)
Theorem solve_lsqr_ignores_equality_constraints (env : Backends) (kw : Kwargs)
    (s : DiscreteInterpolator) (l : list LogRecord) (sel : list nat)
    (x : list float) (Cv : list float) (rowv : list nat) (colv : list Z)
    (dv : list float) (cnt : nat) :
  region_ok s sel ->
  soft_wf s ->
  sla_lsqr env (soft_matrix s) (B s) (lsqr_args kw) = Ok x ->
  length x = nx s ->
  let s_eq := with_eq_store Cv rowv colv dv cnt s in
  let cv := scatter (nan_field s) sel x in
  exists l',
    _solve env "lsqr" kw (mkWorld s_eq l) =
    (Ok tt, mkWorld (publish cv (set_c (Some cv) s_eq)) (l ++ l')).
Proof.
  intros Hreg Hsoft Hlsqr Hlen s_eq cv.
  assert (Hsys : solve_system "lsqr" kw (mkWorld s_eq l) = Ok (soft_matrix s, B s)).
  { unfold solve_system. cbn [String.eqb Ascii.eqb Bool.eqb].
    unfold build_matrix, bind, get_self, logger, log_to, lift, ret.
    cbn [self logs fst snd negb].
    change (coo_matrix (A s_eq) (row s_eq) (map index_cast (col s_eq))
              (c_ s_eq, nx s_eq))
      with (coo_matrix (A s) (row s) (map index_cast (col s)) (c_ s, nx s)).
    rewrite (coo_matrix_soft s Hsoft). reflexivity. }
  destruct (solve_run env "lsqr" kw (mkWorld s_eq l) sel (soft_matrix s) (B s) x
              Hreg Hsys (returns_lsqr _ _ _ _ x Hlsqr)) as [l' Hrun].
  - cbn. lia.
  - intros _. exact Hlen.
  - exists l'. cbn [self logs] in Hrun.
    change (nx s_eq) with (nx s) in Hrun.
    rewrite take_ge in Hrun by lia. exact Hrun.
Qed.

(** * The square shape *)

(** An interpolator constructed with the shape "square" starts with a
    right-hand side [B] of [nx] zeros and no row.  On a support with at least
    one node the square system cannot be assembled from it:
    [build_matrix(square=True)] raises ValueError at [A.T.dot(B)], after the
    size was logged, whatever [damp] is. *)
Theorem square_shape_not_assembled (pn : string) (utd : bool) (sup : Support)
    (s : DiscreteInterpolator) (damp : bool) (l : list LogRecord) :
  init "square" pn utd sup = Ok s ->
  0 < n_nodes sup ->
  length (B s) = nx s /\ c_ s = 0
  /\ build_matrix true damp (mkWorld s l) =
     (Raise ValueError, mkWorld s (l ++ [log_matrix_size s])).
Proof.
  unfold init. cbn [region_indices].
  destruct (forallb _ (seq 0 (n_nodes sup))); [| discriminate].
  cbn [result_bind String.eqb Ascii.eqb Bool.eqb].
  intros [= <-] Hn. rewrite length_seq.
  split; [apply repeat_length |]. split; [reflexivity |].
  unfold build_matrix, bind, get_self, logger, log_to, lift, ret.
  cbn [self logs fst snd negb A row col c_ nx B map].
  unfold coo_matrix. cbn [coo_check length forallb fst snd Nat.eqb andb].
  unfold sp_dot, sp_dot_vec.
  cbn [sp_shape sp_T fst snd Nat.eqb]. rewrite repeat_length.
  destruct (n_nodes sup) as [|n]; [lia |]. reflexivity.
Qed.

(** * Further worked instances *)

(** The back ends of [example_env], with a sparse LU factorisation that
    fails. *)
Definition failing_env : Backends :=
  mkBackends (fun _ Bv _ => Ok Bv) (fun _ _ => Raise (OtherError "RuntimeError"))
    (fun _ Bv _ => Ok Bv) None None (ret tt).

(** The interpolator as [__init__] leaves it for the shape "square". *)
Definition square_interpolator : DiscreteInterpolator :=
  mkDI "square" "val" false [0; 0; 0; 0]%float example_support None
    (IndexArray [0; 1; 2; 3]) [0; 0; 0; 0] 4
    0 [] [] [] None [] [] [] [] 0 None.

(** An index array with fewer entries than [identity_A]. *)
Definition short_idc : ndarray Index :=
  mkArray [3; 2] [Idx 0; Idx 1; Idx 2; Idx 0; Idx 1; Idx 2].

(** An interpolator that stored a coefficient for column 7 of 3. *)
Definition stray_interpolator : DiscreteInterpolator :=
  with_soft_store [1%float] [0] [Idx 7] [1%float] 1 example_interpolator.

(** The back ends of [example_env], with a [setup_interpolator] that selects
    the sparse LU solver. *)
Definition switching_env : Backends :=
  mkBackends (fun _ Bv _ => Ok Bv) (fun _ Bv => Ok Bv) (fun _ Bv _ => Ok Bv)
    None None (modify (set_solver (Some "lu"))).

(** A stand-in for the support's evaluation: the first coordinate of each
    point. *)
Definition first_coordinate (_ : Support) (pts : list point) (_ : string)
  : result (list float) :=
  Ok (map (fun p => p.1.1) pts).

Lemma solve_does_not_enable_update_witness :
  let w1 := (_solve example_env "cg" undamped identity_world).2 in
  update example_env w1 =
    (Ok (Some false),
     mkWorld (self w1)
       (logs w1 ++ [mkLog RootLogger DEBUG "Cannot rerun interpolator" []])).
Proof.
  exact (solve_does_not_enable_update example_env "cg" undamped identity_world
           eq_refl).
Defined.

Lemma solve_backend_raises_witness :
  exists l,
    _solve failing_env "lu" undamped identity_world =
    (Raise (OtherError "RuntimeError"),
     mkWorld (set_c (Some [nan; nan; nan; nan]) identity_interpolator) l).
Proof.
  destruct (solve_backend_raises failing_env "lu" undamped identity_world
              identity_system.1 identity_system.2 (OtherError "RuntimeError")
              eq_refl
              (raises_lu failing_env undamped identity_system.1 identity_system.2
                 (OtherError "RuntimeError") eq_refl)) as [l H].
  exists l. exact H.
Defined.

Lemma add_constraints_index_size_mismatch_witness :
  exists rv : list nat,
    length rv = 3
    /\ add_constraints_to_least_squares identity_A identity_B short_idc
         example_world =
       (Raise IndexError,
        mkWorld
          (set_row rv (set_A [1; 1; 1]%float (set_c_ 3 example_interpolator))) []).
Proof.
  refine (add_constraints_index_size_mismatch identity_A identity_B short_idc
            example_world [3] 3 eq_refl
            (not_contains_nan identity_A eq_refl)
            (not_contains_nan identity_B eq_refl)
            (not_contains_nan_index short_idc eq_refl) eq_refl eq_refl
            (or_introl eq_refl) _).
  cbn. lia.
Defined.

Lemma add_constraints_other_shape_counts_only_witness :
  add_constraints_to_least_squares identity_A identity_B identity_idc
    (mkWorld square_interpolator []) =
  (Ok tt, mkWorld (set_c_ 3 square_interpolator) []).
Proof.
  refine (add_constraints_other_shape_counts_only identity_A identity_B identity_idc
            (mkWorld square_interpolator []) [3] 3 _
            (not_contains_nan identity_A eq_refl)
            (not_contains_nan identity_B eq_refl)
            (not_contains_nan_index identity_idc eq_refl) eq_refl
            (or_introl eq_refl)).
  discriminate.
Defined.

Lemma add_constraints_one_dimensional_witness :
  add_constraints_to_least_squares (mkArray [2] [1; 2]%float)
    (mkArray [2] [1; 2]%float) (mkArray [2] [Idx 0; Idx 1]) example_world =
  (Raise IndexError,
   mkWorld (set_A [1; 2]%float (set_c_ 2 example_interpolator)) []).
Proof.
  exact (add_constraints_one_dimensional (mkArray [2] [1; 2]%float)
           (mkArray [2] [1; 2]%float) (mkArray [2] [Idx 0; Idx 1]) example_world 2
           eq_refl
           (not_contains_nan (mkArray [2] [1; 2]%float) eq_refl)
           (not_contains_nan (mkArray [2] [1; 2]%float) eq_refl)
           (not_contains_nan_index (mkArray [2] [Idx 0; Idx 1]) eq_refl)
           eq_refl eq_refl (le_n 2)).
Defined.

Lemma add_equality_constraints_node_out_of_range_witness :
  add_equality_constraints [1; 7] [5; 7]%float identity_world =
  (Raise IndexError, identity_world).
Proof.
  refine (add_equality_constraints_node_out_of_range [1; 7] [5; 7]%float
            identity_world [0; 1; 2] identity_region_ok _).
  exists 7. split; [| cbn; lia].
  apply list_elem_of_further, list_elem_of_here.
Defined.

Lemma add_equality_constraints_values_mismatch_witness :
  exists cols : list Z,
    length cols = 1
    /\ add_equality_constraints [1; 3] [5%float] identity_world =
       (Raise IndexError,
        mkWorld
          (set_eq_const_row [0]
             (set_eq_const_col cols (set_eq_const_C [1%float] identity_interpolator)))
          []).
Proof.
  refine (add_equality_constraints_values_mismatch [1; 3] [5%float] identity_world
            [0; 1; 2] identity_region_ok _ _).
  - repeat (apply Forall_cons_2; [cbn; lia |]). apply Forall_nil_2.
  - cbn. lia.
Defined.

Lemma add_equality_constraints_twice_witness :
  exists w',
    (do_ add_equality_constraints [1; 3] [5; 7]%float;
     add_equality_constraints [0; 2] [4; 6]%float) identity_world = (Ok tt, w')
    /\ eq_const_row (self w') = [0; 0; 1]
    /\ eq_const_c_ (self w') = 3
    /\ length (eq_const_d (self w')) = 3
    /\ forall j, sp_entry (eq_matrix (self w')) 2 j = None.
Proof.
  destruct (add_equality_constraints_twice [1; 3] [0; 2] [5; 7]%float [4; 6]%float
              identity_world [0; 1; 2] identity_region_ok
              eq_refl eq_refl eq_refl eq_refl eq_refl)
    as (w' & Hrun & Hrow & Hc & Hd & _ & Hempty).
  - repeat (apply Forall_cons_2; [cbn; lia |]). apply Forall_nil_2.
  - repeat (apply Forall_cons_2; [cbn; lia |]). apply Forall_nil_2.
  - reflexivity.
  - reflexivity.
  - exists w'. split; [exact Hrun |]. split; [exact Hrow |]. split; [exact Hc |].
    split; [exact Hd |]. intros j. apply Hempty. vm_compute. lia.
Defined.

Lemma build_matrix_column_out_of_range_witness :
  build_matrix true false (mkWorld stray_interpolator []) =
  (Raise ValueError,
   mkWorld stray_interpolator [log_matrix_size stray_interpolator]).
Proof.
  refine (build_matrix_column_out_of_range true false
            (mkWorld stray_interpolator []) _).
  exists (Idx 7). split; [apply list_elem_of_here | cbn; lia].
Defined.

Lemma set_region_ranks_nodes_witness :
  let s' := self (set_region example_mask (mkWorld initial_interpolator [])).2 in
  length (region_map s') = 4
  /\ (forall i, [true; true; true; false] !! i = Some true ->
        region_map s' !! i =
        Some (length (List.filter id (take i [true; true; true; false]))))
  /\ (forall i, [true; true; true; false] !! i = Some false ->
        region_map s' !! i = Some 0)
  /\ accumulated_state s' = accumulated_state initial_interpolator.
Proof.
  exact (set_region_ranks_nodes example_mask [true; true; true; false]
           (mkWorld initial_interpolator []) eq_refl eq_refl eq_refl).
Defined.

Lemma evaluate_value_keeps_nan_points_witness :
  evaluate_value first_coordinate [(nan, 0, 0); (1, 0, 0)]%float example_world =
  (Ok [nan; 1%float], example_world).
Proof.
  exact (evaluate_value_keeps_nan_points first_coordinate
           [(nan, 0, 0); (1, 0, 0)]%float [nan; 1%float] example_world
           (fun _ => eq_refl) eq_refl).
Defined.

Lemma new_weights_rerun_on_update_witness :
  (do_ set_interpolation_weights {["cgw" := 2%float]} ∅; update switching_env)
    solved_world =
  (do_ _solve switching_env "lu" no_kwargs; ret None)
    (mkWorld (set_solver (Some "lu") (set_up_to_date false (self solved_world))) []).
Proof.
  exact (proj1 (proj2
           (new_weights_rerun_on_update switching_env {["cgw" := 2%float]} ∅
              solved_world "cg" (map_non_empty_singleton "cgw" 2%float) eq_refl))
           _ "lu" eq_refl eq_refl).
Defined.

Lemma add_constraints_then_build_matrix_witness :
  exists Mx : spmatrix,
    ((do_ add_constraints_to_least_squares identity_A identity_B identity_idc;
      build_matrix false true) example_world).1 = Ok (Mx, [1; 2; 3]%float)
    /\ sp_shape Mx = (3, 3)
    /\ sp_entry Mx 1 1 = Some 1%float
    /\ sp_entry Mx 0 1 = None.
Proof.
  destruct (add_constraints_then_build_matrix true identity_A identity_B identity_idc
              example_world [3] 3 eq_refl
              (not_contains_nan identity_A eq_refl)
              (not_contains_nan identity_B eq_refl)
              (not_contains_nan_index identity_idc eq_refl) eq_refl eq_refl
              (or_introl eq_refl) eq_refl)
    as (Mx & Hrun & Hshape & _ & Hentry & _).
  - repeat (apply Forall_cons_2; [cbn; lia |]). apply Forall_nil_2.
  - apply empty_accumulator_wf, example_empty_accumulator.
  - exists Mx. split; [exact Hrun |]. split; [exact Hshape |]. split.
    + refine (Hentry 4 1%float (Idx 1) 1 eq_refl eq_refl eq_refl _).
      intros q cj' Hq Hdiv Hlk.
      do 9 (destruct q as [|q];
            [cbn in Hdiv, Hlk; first [lia | injection Hlk as <-; cbn; lia] |]).
      discriminate Hlk.
    + refine (Hentry 1 0%float (Idx 1) 1 eq_refl eq_refl eq_refl _).
      intros q cj' Hq Hdiv Hlk.
      do 9 (destruct q as [|q];
            [cbn in Hdiv, Hlk; first [lia | injection Hlk as <-; cbn; lia] |]).
      discriminate Hlk.
Defined.

Lemma solve_lsqr_ignores_equality_constraints_witness :
  let cv := scatter [nan; nan; nan; nan] [0; 1; 2] [1; 2; 3]%float in
  exists l',
    _solve example_env "lsqr" undamped pinned_world =
    (Ok tt, mkWorld (publish cv (set_c (Some cv) pinned_interpolator)) l').
Proof.
  exact (solve_lsqr_ignores_equality_constraints example_env undamped
           identity_interpolator [] [0; 1; 2] [1; 2; 3]%float
           [1%float] [0] [1%Z] [5%float] 1
           identity_region_ok (proj1 identity_system_wf) eq_refl eq_refl).
Defined.

Lemma square_shape_not_assembled_witness :
  length (B square_interpolator) = nx square_interpolator
  /\ c_ square_interpolator = 0
  /\ build_matrix true true (mkWorld square_interpolator []) =
     (Raise ValueError,
      mkWorld square_interpolator [log_matrix_size square_interpolator]).
Proof.
  refine (square_shape_not_assembled "val" false example_support
            square_interpolator true [] eq_refl _).
  cbn. lia.
Defined.
